(** * The native-interop core of opentui: runtime probe, FFI shim, struct engine

    A shallow embedding of
      - packages/core/src/runtime.ts          (runtime probe, display width)
      - packages/core/src/ffi.ts              (FFI compatibility shim)
      - packages/core/src/deno-ffi-structs.ts (struct layout, pack, unpack)
    and the properties of these that the specification states.

    Conventions of the embedding.
      - A JavaScript string is the list of the code points its iterator
        yields; property names are strings too.
      - A JavaScript number is kept exactly: an integer, a dyadic fraction,
        NaN or an infinity.  Negative zero is identified with zero.
      - An ArrayBuffer (or a view of one) is the list of its bytes.
      - An object used as a record of named values is a plain object:
        the finite map of its own properties, with Object.prototype
        behind it.  What Object.prototype holds is told by the engine
        (Deno removes [__proto__] from it, Bun keeps it).  A Map is an
        association list in insertion order.
      - A function that can throw returns a [result]; the constructors of
        [error] are the exceptions of the source and of the engine.
      - What the JavaScript engine and the two hosts provide (text codecs,
        IEEE-754 codecs, Unicode property tables, string/number
        conversions, the FFI modules) is a field of [Host]: every theorem
        holds for every host, examples are evaluated on [sampleBun] and
        [sampleDeno]. *)

From Stdlib Require Import ZArith Lia List Bool Ascii String.
From coqutil Require Import Byte Word.LittleEndianList.
From stdpp Require Import base option list gmap.

Local Open Scope Z_scope.

(* ===================================================================== *)
(** * Part I: definitions *)
(* ===================================================================== *)

(** ** JavaScript values *)

Abbreviation jsstring := (list Z).

(** The code points of an ASCII literal. *)
Definition str (s : string) : jsstring :=
  List.map (fun a => Z.of_N (N_of_ascii a)) (list_ascii_of_string s).

(** [NFrac m e] is the non-integer m / 2^e (m odd). *)
Inductive number :=
| NInt (z : Z)
| NFrac (m : Z) (e : positive)
| NNaN
| NInf (negative : bool).

#[warnings="-register-all"]
Inductive JsValue :=
| VUndefined
| VNull
| VBool (b : bool)
| VNum (n : number)
| VBig (z : Z)
| VStr (s : jsstring)
| VArr (items : list JsValue)
| VBuf (bytes : list byte)
| VObj (id : Z).

Inductive error :=
| InvalidEnumValue (name : jsstring)
| InvalidEnumNumeric (value : number)
| UnsupportedPointer
| NullPointerReceived
| PointerUnavailable
| UnsupportedRuntime
| BunFFIUnavailable
| DenoFFIUnavailable
| JsRangeError
| JsTypeError
| JsSyntaxError
| HostFault.

Inductive result (A : Type) :=
| Ok (a : A)
| Err (e : error).
Arguments Ok {A} a.
Arguments Err {A} e.

Definition rbind {A B} (r : result A) (f : A -> result B) : result B :=
  match r with
  | Ok a => f a
  | Err e => Err e
  end.

#[global] Instance result_bind : MBind result := fun A B f r => rbind r f.
#[global] Instance result_ret : MRet result := @Ok.

Definition is_Ok {A} (r : result A) : bool :=
  match r with Ok _ => true | Err _ => false end.

#[global] Instance number_eq_dec : EqDecision number.
Proof. solve_decision. Defined.

(** *** Number arithmetic the sources rely on *)

(** Truncation toward zero; NaN and the infinities give 0, as in the
    integer conversions of DataView setters. *)
Definition integral (n : number) : Z :=
  match n with
  | NInt z => z
  | NFrac m e => Z.quot m (2 ^ Z.pos e)
  | NNaN | NInf _ => 0
  end.

(** [n <= 0] *)
Definition num_le0 (n : number) : bool :=
  match n with
  | NInt z => z <=? 0
  | NFrac m _ => m <? 0
  | NNaN => false
  | NInf negative => negative
  end.

(** [n > 0] *)
Definition num_gt0 (n : number) : bool :=
  match n with
  | NInt z => 0 <? z
  | NFrac m _ => 0 <? m
  | NNaN => false
  | NInf negative => negb negative
  end.

(** The number of naturals [i] with [i < n], for finite [n]. *)
Definition num_ceil (n : number) : Z :=
  match n with
  | NInt z => z
  | NFrac m e => - ((- m) / 2 ^ Z.pos e)
  | NNaN | NInf _ => 0
  end.

(** Lowest terms of m / 2^e. *)
Fixpoint dyadic (m : Z) (e : nat) : number :=
  match e with
  | O => NInt m
  | S e' => if Z.even m then dyadic (m / 2) e' else NFrac m (Pos.of_nat e)
  end.

(** [n * k] for an integer [k]. *)
Definition num_scale (n : number) (k : Z) : number :=
  match n with
  | NInt z => NInt (z * k)
  | NFrac m e => dyadic (m * k) (Pos.to_nat e)
  | NNaN => NNaN
  | NInf negative =>
      if k =? 0 then NNaN else NInf (xorb negative (k <? 0))
  end.

(** [Number(z)] for a bigint: the nearest double, ties to even. *)
Definition Number_of_bigint (z : Z) : number :=
  let a := Z.abs z in
  if a <? 2 ^ 53 then NInt z
  else
    let k := Z.log2 a - 52 in
    let q := a / 2 ^ k in
    let r := a mod 2 ^ k in
    let half := 2 ^ (k - 1) in
    let q' := if (half <? r) || ((r =? half) && Z.odd q) then q + 1 else q in
    if 2 ^ 1024 <=? q' * 2 ^ k then NInf (z <? 0)
    else NInt (Z.sgn z * q' * 2 ^ k).

(** ** What the engine and the hosts provide *)

(** An object that starts as [{}] and is filled by assignments: its
    own properties and what stands behind them, which is
    Object.prototype until the setter of [__proto__] has run. *)
Inductive Prototype :=
| ObjectPrototype
| NoPrototype
| ValuePrototype (p : JsValue).

Record JsObject := {
  own : gmap jsstring JsValue;
  proto : Prototype;
}.

(** [{}] *)
Definition newObject : JsObject := {| own := ∅; proto := ObjectPrototype |}.

(** The object with these own properties and Object.prototype behind
    them. *)
Definition plainObject (properties : gmap jsstring JsValue) : JsObject :=
  {| own := properties; proto := ObjectPrototype |}.

(** [typeof v === "object"] or ["function"], [null] excluded. *)
Definition isObject (v : JsValue) : bool :=
  match v with
  | VArr _ | VBuf _ | VObj _ => true
  | _ => false
  end.

(** The setter of the accessor [__proto__]: it replaces the prototype
    by an object or by [null] and ignores every other value. *)
Definition setPrototype (o : JsObject) (v : JsValue) : JsObject :=
  {| own := own o;
     proto := match v with
              | VNull => NoPrototype
              | _ => if isObject v then ValuePrototype v else proto o
              end |}.

(** TextEncoder, TextDecoder, the string/number conversions, the
    IEEE-754 images used by DataView, the Unicode property tables of
    the regular-expression engine, and the objects behind a plain
    object.  [inherited k] is what reading [k] finds in Object.prototype
    ([undefined] when it has no such member; a function for
    [constructor], [toString] and the like); [inheritedSetter k] tells
    whether [k] is there as the accessor [__proto__], whose setter
    replaces the prototype of the object assigned to.  For an object
    [o] whose prototype was replaced by the object [p], and a name that
    [o] has no property for, [getVia p o k] is what reading [o[k]] does
    and [setVia p o k v] what the assignment [o[k] = v] does: [p] can
    have accessors, properties that cannot be written (the module is
    in strict mode, where such an assignment throws), or the traps of a
    proxy. *)
Record Engine := {
  utf8_encode : jsstring -> list byte;
  utf8_decode : list byte -> jsstring;
  StringToNumber : jsstring -> number;
  NumberToString : number -> jsstring;
  StringToBigInt : jsstring -> option Z;
  BigIntToString : Z -> jsstring;
  ObjectToString : JsValue -> jsstring;
  float32_bits : number -> Z;
  float32_value : Z -> number;
  float64_bits : number -> Z;
  float64_value : Z -> number;
  is_Mark : Z -> bool;
  is_Extended_Pictographic : Z -> bool;
  inherited : jsstring -> JsValue;
  inheritedSetter : jsstring -> bool;
  getVia : JsValue -> JsObject -> jsstring -> result JsValue;
  setVia : JsValue -> JsObject -> jsstring -> JsValue -> result JsObject;
}.

(** bun:ffi, over a host memory of type [Memory]. *)
Record BunFFI (Memory : Type) := {
  bun_ptr : Memory -> list byte -> JsValue * Memory;
  bun_toArrayBuffer :
    Memory -> JsValue -> number -> option number -> result (list byte);
}.
Arguments bun_ptr {Memory} _ _ _.
Arguments bun_toArrayBuffer {Memory} _ _ _ _ _.

Record BunGlobal (Memory : Type) := {
  Bun_FFI : option (BunFFI Memory);
  Bun_stringWidth : option (jsstring -> Z);
}.
Arguments Bun_FFI {Memory} _.
Arguments Bun_stringWidth {Memory} _.

(** Deno.UnsafePointer: [of], and the optional [offset] and [value]. *)
Record DenoUnsafePointer (Memory : Type) := {
  UnsafePointer_of : Memory -> list byte -> JsValue * Memory;
  UnsafePointer_offset : option (JsValue -> number -> JsValue);
  UnsafePointer_value : option (JsValue -> JsValue);
}.
Arguments UnsafePointer_of {Memory} _ _ _.
Arguments UnsafePointer_offset {Memory} _.
Arguments UnsafePointer_value {Memory} _.

(** [new Deno.UnsafePointerView(p).getArrayBuffer(n)] *)
Definition DenoUnsafePointerView (Memory : Type) :=
  Memory -> JsValue -> number -> result (list byte).

Record DenoGlobal (Memory : Type) := {
  Deno_dlopen : bool;
  Deno_UnsafePointer : option (DenoUnsafePointer Memory);
  Deno_UnsafePointerView : option (DenoUnsafePointerView Memory);
  Deno_UnsafeCallback : bool;
  Deno_build_arch : option jsstring;
}.
Arguments Deno_dlopen {Memory} _.
Arguments Deno_UnsafePointer {Memory} _.
Arguments Deno_UnsafePointerView {Memory} _.
Arguments Deno_UnsafeCallback {Memory} _.
Arguments Deno_build_arch {Memory} _.

(** globalThis, as far as the three modules look at it. *)
Record Host (Memory : Type) := {
  engine : Engine;
  Bun : option (BunGlobal Memory);
  Deno : option (DenoGlobal Memory);
  process_arch : option jsstring;
}.
Arguments engine {Memory} _.
Arguments Bun {Memory} _.
Arguments Deno {Memory} _.
Arguments process_arch {Memory} _.

(** ** Language-level conversions *)

Section Conversions.
Context (E : Engine).

(** [v == null] *)
Definition nullish (v : JsValue) : bool :=
  match v with
  | VUndefined | VNull => true
  | _ => false
  end.

(** [v === undefined] *)
Definition is_undefined (v : JsValue) : bool :=
  match v with
  | VUndefined => true
  | _ => false
  end.

(** [v ?? d] *)
Definition coalesce (v d : JsValue) : JsValue :=
  if nullish v then d else v.

(** [Boolean(v)], the test of [if (v)] and [!v]. *)
Definition truthy (v : JsValue) : bool :=
  match v with
  | VUndefined | VNull => false
  | VBool b => b
  | VNum (NInt z) => negb (z =? 0)
  | VNum NNaN => false
  | VNum _ => true
  | VBig z => negb (z =? 0)
  | VStr s => negb (Nat.eqb (length s) 0)
  | VArr _ | VBuf _ | VObj _ => true
  end.

Definition join_comma (parts : list jsstring) : jsstring :=
  match parts with
  | [] => []
  | p :: rest => p ++ List.concat (List.map (fun q => 44 :: q) rest)
  end.

(** [String(v)] *)
Fixpoint ToString (v : JsValue) : jsstring :=
  match v with
  | VUndefined => str "undefined"
  | VNull => str "null"
  | VBool true => str "true"
  | VBool false => str "false"
  | VNum n => NumberToString E n
  | VBig z => BigIntToString E z
  | VStr s => s
  | VArr items =>
      join_comma
        ((fix each (l : list JsValue) : list jsstring :=
            match l with
            | [] => []
            | x :: rest =>
                (if nullish x then [] else ToString x) :: each rest
            end) items)
  | VBuf _ | VObj _ => ObjectToString E v
  end.

(** [Number(v)] *)
Definition ToNumber (v : JsValue) : number :=
  match v with
  | VUndefined => NNaN
  | VNull => NInt 0
  | VBool b => NInt (if b then 1 else 0)
  | VNum n => n
  | VBig z => Number_of_bigint z
  | VStr s => StringToNumber E s
  | VArr _ | VBuf _ | VObj _ => StringToNumber E (ToString v)
  end.

(** [BigInt(v)] *)
Definition ToBigInt (v : JsValue) : result Z :=
  match v with
  | VUndefined | VNull => Err JsTypeError
  | VBool b => Ok (if b then 1 else 0)
  | VNum (NInt z) => Ok z
  | VNum _ => Err JsRangeError
  | VBig z => Ok z
  | VStr s =>
      match StringToBigInt E s with
      | Some z => Ok z
      | None => Err JsSyntaxError
      end
  | VArr _ | VBuf _ | VObj _ =>
      match StringToBigInt E (ToString v) with
      | Some z => Ok z
      | None => Err JsSyntaxError
      end
  end.
End Conversions.

(** [o[k]] for a plain object given by its own properties: the own
    property, else the member of that name of Object.prototype, else
    [undefined]. *)
Definition prop (E : Engine) (o : gmap jsstring JsValue) (k : jsstring)
  : JsValue :=
  match o !! k with
  | Some v => v
  | None => inherited E k
  end.

(** [o[k]] *)
Definition getProperty (E : Engine) (o : JsObject) (k : jsstring)
  : result JsValue :=
  match own o !! k with
  | Some v => Ok v
  | None =>
      match proto o with
      | ObjectPrototype => Ok (inherited E k)
      | NoPrototype => Ok VUndefined
      | ValuePrototype p => getVia E p o k
      end
  end.

(** [o[k] = v]: a property of [o]'s own is overwritten; without one
    the prototype decides. *)
Definition setProperty (E : Engine) (o : JsObject) (k : jsstring)
    (v : JsValue) : result JsObject :=
  match own o !! k with
  | Some _ => Ok {| own := <[k := v]> (own o); proto := proto o |}
  | None =>
      match proto o with
      | ObjectPrototype =>
          if inheritedSetter E k then Ok (setPrototype o v)
          else Ok {| own := <[k := v]> (own o); proto := proto o |}
      | NoPrototype => Ok {| own := <[k := v]> (own o); proto := proto o |}
      | ValuePrototype p => setVia E p o k v
      end
  end.

(** ** runtime.ts *)

Inductive RuntimeKind := bun | deno.

Section Runtime.
Context {Memory : Type} (H : Host Memory).

Definition getBunGlobal : option (BunGlobal Memory) := Bun H.
Definition getDenoGlobal : option (DenoGlobal Memory) := Deno H.

Definition detectFfiRuntime : result RuntimeKind :=
  match getBunGlobal ≫= Bun_FFI with
  | Some _ => Ok bun
  | None =>
      if default false (Deno_dlopen <$> getDenoGlobal) then Ok deno
      else Err UnsupportedRuntime
  end.

Definition isFullWidthCodePoint (codePoint : Z) : bool :=
  (0x1100 <=? codePoint) &&
  ((codePoint <=? 0x115f) ||
   (codePoint =? 0x2329) ||
   (codePoint =? 0x232a) ||
   ((0x2e80 <=? codePoint) && (codePoint <=? 0x3247) &&
      negb (codePoint =? 0x303f)) ||
   ((0x3250 <=? codePoint) && (codePoint <=? 0x4dbf)) ||
   ((0x4e00 <=? codePoint) && (codePoint <=? 0xa4c6)) ||
   ((0xa960 <=? codePoint) && (codePoint <=? 0xa97c)) ||
   ((0xac00 <=? codePoint) && (codePoint <=? 0xd7a3)) ||
   ((0xf900 <=? codePoint) && (codePoint <=? 0xfaff)) ||
   ((0xfe10 <=? codePoint) && (codePoint <=? 0xfe19)) ||
   ((0xfe30 <=? codePoint) && (codePoint <=? 0xfe6b)) ||
   ((0xff01 <=? codePoint) && (codePoint <=? 0xff60)) ||
   ((0xffe0 <=? codePoint) && (codePoint <=? 0xffe6)) ||
   ((0x1b000 <=? codePoint) && (codePoint <=? 0x1b001)) ||
   ((0x1f200 <=? codePoint) && (codePoint <=? 0x1f251)) ||
   ((0x20000 <=? codePoint) && (codePoint <=? 0x3fffd))).

(** [char] is one element of the string's iteration, so its
    [codePointAt(0)] is never undefined. *)
Definition getCharWidth (codePoint : Z) : Z :=
  if (codePoint <=? 0x1f) || ((0x7f <=? codePoint) && (codePoint <=? 0x9f))
  then 0
  else if is_Mark (engine H) codePoint ||
          ((0xFE00 <=? codePoint) && (codePoint <=? 0xFE0F))
  then 0
  else if is_Extended_Pictographic (engine H) codePoint ||
          isFullWidthCodePoint codePoint
  then 2
  else 1.

Definition stringWidth (value : jsstring) : Z :=
  match getBunGlobal ≫= Bun_stringWidth with
  | Some bunStringWidth => bunStringWidth value
  | None => foldl (fun width char => width + getCharWidth char) 0 value
  end.
End Runtime.

(** ** ffi.ts *)

Inductive NativeType :=
| T_void | T_bool | T_u8 | T_i8 | T_u16 | T_i16 | T_u32 | T_i32
| T_u64 | T_i64 | T_f32 | T_f64 | T_ptr | T_pointer | T_buffer | T_usize.

(** A [NativeType] is the string that spells it. *)
Definition NativeType_string (t : NativeType) : jsstring :=
  match t with
  | T_void => str "void" | T_bool => str "bool"
  | T_u8 => str "u8" | T_i8 => str "i8"
  | T_u16 => str "u16" | T_i16 => str "i16"
  | T_u32 => str "u32" | T_i32 => str "i32"
  | T_u64 => str "u64" | T_i64 => str "i64"
  | T_f32 => str "f32" | T_f64 => str "f64"
  | T_ptr => str "ptr" | T_pointer => str "pointer"
  | T_buffer => str "buffer" | T_usize => str "usize"
  end.

Record CompatSymbolDefinition := {
  sym_args : option (list NativeType);
  sym_parameters : option (list NativeType);
  sym_returns : option NativeType;
  sym_result : option NativeType;
  sym_nonblocking : option bool;
}.

(** [Object.entries(symbols)] *)
Abbreviation CompatSymbolDefinitions := (list (jsstring * CompatSymbolDefinition)).

Record BunSymbol := {
  bs_args : list NativeType;
  bs_returns : NativeType;
  bs_nonblocking : option bool;
}.

Record DenoSymbol := {
  ds_parameters : list jsstring;
  ds_result : jsstring;
  ds_nonblocking : option bool;
}.

Inductive NormalizedSymbols :=
| BunSymbols (table : gmap jsstring BunSymbol)
| DenoSymbols (table : gmap jsstring DenoSymbol).

Definition normalizeSymbol (symbol : CompatSymbolDefinition) : BunSymbol :=
  let args :=
    match sym_parameters symbol with
    | Some ps => ps
    | None => default [] (sym_args symbol)
    end in
  let returns :=
    match sym_result symbol with
    | Some r => r
    | None => default T_void (sym_returns symbol)
    end in
  {| bs_args := args; bs_returns := returns;
     bs_nonblocking := sym_nonblocking symbol |}.

Definition toDenoType (type : NativeType) : jsstring :=
  match type with
  | T_ptr => str "pointer"
  | _ => NativeType_string type
  end.

(** [out[name] = value] on the table [out], which starts as [{}] and
    is given by its own properties: every value assigned is an object,
    so under the name of the accessor [__proto__] the assignment
    replaces the prototype of the table and adds no property; what
    stands behind the table then is an object with data properties
    only, which lets every later assignment create its property. *)
Definition assignEntry {V} (E : Engine) (out : gmap jsstring V)
    (name : jsstring) (value : V) : gmap jsstring V :=
  if inheritedSetter E name then out else <[name := value]> out.

(** The names that such assignments make a property of. *)
Definition stored (E : Engine) (names : list jsstring) : list jsstring :=
  filter (fun nm => inheritedSetter E nm = false) names.

(** The bodies of the two loops over [Object.entries(symbols)]. *)
Definition bunEntry (E : Engine) (out : gmap jsstring BunSymbol)
    (entry : jsstring * CompatSymbolDefinition) : gmap jsstring BunSymbol :=
  let '(name, symbol) := entry in
  assignEntry E out name (normalizeSymbol symbol).

Definition denoEntry (E : Engine) (out : gmap jsstring DenoSymbol)
    (entry : jsstring * CompatSymbolDefinition) : gmap jsstring DenoSymbol :=
  let '(name, symbol) := entry in
  let normalized := normalizeSymbol symbol in
  assignEntry E out name
    {| ds_parameters := List.map toDenoType (bs_args normalized);
       ds_result := toDenoType (bs_returns normalized);
       ds_nonblocking := bs_nonblocking normalized |}.

Definition toBunSymbols (E : Engine) (symbols : CompatSymbolDefinitions)
  : gmap jsstring BunSymbol :=
  foldl (bunEntry E) ∅ symbols.

Definition toDenoSymbols (E : Engine) (symbols : CompatSymbolDefinitions)
  : gmap jsstring DenoSymbol :=
  foldl (denoEntry E) ∅ symbols.

Definition normalizeSymbolsForRuntime (E : Engine)
    (symbols : CompatSymbolDefinitions) (runtime : RuntimeKind)
  : NormalizedSymbols :=
  match runtime with
  | bun => BunSymbols (toBunSymbols E symbols)
  | deno => DenoSymbols (toDenoSymbols E symbols)
  end.

(** The two shapes in which one logical definition can be written. *)
Definition legacyShape (args : option (list NativeType))
    (returns : option NativeType) (nonblocking : option bool)
  : CompatSymbolDefinition :=
  {| sym_args := args; sym_parameters := None;
     sym_returns := returns; sym_result := None;
     sym_nonblocking := nonblocking |}.

Definition canonicalShape (parameters : option (list NativeType))
    (result : option NativeType) (nonblocking : option bool)
  : CompatSymbolDefinition :=
  {| sym_args := None; sym_parameters := parameters;
     sym_returns := None; sym_result := result;
     sym_nonblocking := nonblocking |}.

(** One logical definition: its argument types, its return type and its
    nonblocking flag, each of them optional; and a table of them written
    in either shape. *)
Abbreviation LogicalSymbol :=
  (option (list NativeType) * option NativeType * option bool)%type.

Definition asLegacy (table : list (jsstring * LogicalSymbol))
  : CompatSymbolDefinitions :=
  List.map (fun '(nm, (args, returns, nonblocking)) =>
              (nm, legacyShape args returns nonblocking)) table.

Definition asCanonical (table : list (jsstring * LogicalSymbol))
  : CompatSymbolDefinitions :=
  List.map (fun '(nm, (args, returns, nonblocking)) =>
              (nm, canonicalShape args returns nonblocking)) table.

(** Reading the alias as the type it stands for. *)
Definition unalias (t : NativeType) : NativeType :=
  match t with
  | T_ptr => T_pointer
  | _ => t
  end.

Definition unaliasSymbol (s : LogicalSymbol) : LogicalSymbol :=
  let '(args, returns, nonblocking) := s in
  (List.map unalias <$> args, unalias <$> returns, nonblocking).

Definition unaliasTable (table : list (jsstring * LogicalSymbol))
  : list (jsstring * LogicalSymbol) :=
  List.map (fun '(nm, s) => (nm, unaliasSymbol s)) table.

(** What [getDenoFFI] hands back: the parts of the Deno global in use. *)
Record DenoFFI (Memory : Type) := {
  deno_UnsafePointer : DenoUnsafePointer Memory;
  deno_UnsafePointerView : DenoUnsafePointerView Memory;
}.
Arguments deno_UnsafePointer {Memory} _.
Arguments deno_UnsafePointerView {Memory} _.

Section FFI.
Context {Memory : Type} (H : Host Memory).

Definition detectRuntime : result RuntimeKind := detectFfiRuntime H.

(** The module [bun:ffi] is imported exactly when [Bun.FFI] is there,
    and is taken to be that object. *)
Definition getBunFFI : result (BunFFI Memory) :=
  match getBunGlobal H ≫= Bun_FFI with
  | Some ffi => Ok ffi
  | None => Err BunFFIUnavailable
  end.

Definition getDenoFFI : result (DenoFFI Memory) :=
  match getDenoGlobal H with
  | Some d =>
      match Deno_dlopen d, Deno_UnsafePointer d,
            Deno_UnsafePointerView d, Deno_UnsafeCallback d with
      | true, Some up, Some upv, true =>
          Ok {| deno_UnsafePointer := up; deno_UnsafePointerView := upv |}
      | _, _, _, _ => Err DenoFFIUnavailable
      end
  | None => Err DenoFFIUnavailable
  end.

Definition toPointer (value : JsValue) : result JsValue :=
  match value with
  | VNull => Err NullPointerReceived
  | _ => Ok value
  end.

(** [ptr(value)]: the host pins the bytes and tells their address. *)
Definition ptr (m : Memory) (value : list byte)
  : result (JsValue * Memory) :=
  runtime ← detectRuntime;
  match runtime with
  | bun =>
      ffi ← getBunFFI;
      let '(p, m') := bun_ptr ffi m value in
      p' ← toPointer p;
      Ok (p', m')
  | deno =>
      d ← getDenoFFI;
      let '(pointer, m') := UnsafePointer_of (deno_UnsafePointer d) m value in
      if truthy pointer then
        p' ← toPointer pointer;
        Ok (p', m')
      else Err PointerUnavailable
  end.

(** [byteOffset] defaults to 0 at the call sites that omit it. *)
Definition toArrayBuffer (m : Memory) (pointer : JsValue)
    (byteOffset : number) (byteLength : option number)
  : result (list byte) :=
  runtime ← detectRuntime;
  match runtime with
  | bun =>
      ffi ← getBunFFI;
      bun_toArrayBuffer ffi m pointer byteOffset byteLength
  | deno =>
      d ← getDenoFFI;
      let targetPointer :=
        if num_gt0 byteOffset then
          match UnsafePointer_offset (deno_UnsafePointer d) with
          | Some offset => offset pointer byteOffset
          | None => pointer
          end
        else pointer in
      let length := default (NInt 0) byteLength in
      deno_UnsafePointerView d m targetPointer length
  end.

(** [deno?.UnsafePointer?.value], when it is a function. *)
Definition denoPointerValue : option (JsValue -> JsValue) :=
  match getDenoGlobal H with
  | Some d =>
      match Deno_UnsafePointer d with
      | Some up => UnsafePointer_value up
      | None => None
      end
  | None => None
  end.

(** The tail of [pointerToBigInt]: a pointer that is neither nullish,
    a bigint nor a number. *)
Definition pointerFromAccessor (pointer : JsValue) : result Z :=
  match denoPointerValue with
  | Some pointerValue =>
      match pointerValue pointer with
      | VBig z => Ok z
      | VNum n => ToBigInt (engine H) (VNum n)
      | _ => Err UnsupportedPointer
      end
  | None => Err UnsupportedPointer
  end.

Definition pointerToBigInt (pointer : JsValue) : result Z :=
  if nullish pointer then Ok 0
  else
    match pointer with
    | VBig z => Ok z
    | VNum n => ToBigInt (engine H) (VNum n)
    | _ => pointerFromAccessor pointer
    end.
End FFI.

(** ** deno-ffi-structs.ts: declarations *)

Inductive PrimitiveType :=
| u8 | bool_u8 | bool_u32 | u16 | i16 | u32 | i32 | u64 | f32 | f64 | pointer.

#[global] Instance PrimitiveType_eq_dec : EqDecision PrimitiveType.
Proof. solve_decision. Defined.

(** A JavaScript [Map], in insertion order; [set] on a present key
    replaces its value in place. *)
Fixpoint Map_set {K V} `{EqDecision K} (k : K) (v : V) (m : list (K * V))
  : list (K * V) :=
  match m with
  | [] => [(k, v)]
  | (k', v') :: rest =>
      if decide (k' = k) then (k, v) :: rest else (k', v') :: Map_set k v rest
  end.

Fixpoint Map_get {K V} `{EqDecision K} (k : K) (m : list (K * V)) : option V :=
  match m with
  | [] => None
  | (k', v') :: rest => if decide (k' = k) then Some v' else Map_get k rest
  end.

(** The record [defineEnum] returns; [enum] is [Object.entries] of the
    mapping, a plain object, and [reverse] the Map its closures
    capture. *)
Record EnumDef := {
  enum_type : PrimitiveType;
  enum : list (jsstring * number);
  reverse : list (number * jsstring);
}.

Definition defineEnum (mapping : list (jsstring * number))
    (base : option PrimitiveType) : EnumDef :=
  {| enum_type := default u32 base;
     enum := mapping;
     reverse := foldl (fun reverse '(name, value) => Map_set value name reverse)
                      [] mapping |}.

Section EnumDefMethods.
Context (E : Engine).

(** [mapping[value]]: the own entry of that name, else what the mapping
    inherits under that name. *)
Definition EnumDef_to (d : EnumDef) (value : JsValue) : result JsValue :=
  match value with
  | VNum n => Ok (VNum n)
  | _ =>
      let mapped :=
        match Map_get (ToString E value) (enum d) with
        | Some number => VNum number
        | None => inherited E (ToString E value)
        end in
      if is_undefined mapped then Err (InvalidEnumValue (ToString E value))
      else Ok mapped
  end.

Definition EnumDef_from (d : EnumDef) (value : number) : result jsstring :=
  match Map_get value (reverse d) with
  | Some mapped => Ok mapped
  | None => Err (InvalidEnumNumeric value)
  end.
End EnumDefMethods.

Record FieldOptions := {
  opt_optional : option bool;
  opt_default : JsValue;
  opt_lengthOf : option jsstring;
  opt_packTransform : option (JsValue -> JsValue);
  opt_unpackTransform : option (JsValue -> JsValue);
}.

Definition noOptions : FieldOptions :=
  {| opt_optional := None; opt_default := VUndefined; opt_lengthOf := None;
     opt_packTransform := None; opt_unpackTransform := None |}.

(** A primitive tag, ["char*"], [[primitive]] or an enum. *)
Inductive FieldType :=
| FPrimitive (t : PrimitiveType)
| FCharPtr
| FArray (t : PrimitiveType)
| FEnum (d : EnumDef).

Abbreviation FieldDef := (jsstring * FieldType * option FieldOptions)%type.

Inductive Kind := primitive | char_ptr | enum_kind | array.

Record LayoutEntry := {
  name : jsstring;
  kind : Kind;
  type : PrimitiveType;
  offset : Z;
  size : Z;
  optional : bool;
  defaultValue : JsValue;
  lengthOf : option jsstring;
  packTransform : option (JsValue -> JsValue);
  unpackTransform : option (JsValue -> JsValue);
  enumDef : option EnumDef;
}.

(** The test [if (entry.lengthOf)]: an absent or empty name is falsy. *)
Definition lengthOf_truthy (e : LayoutEntry) : option jsstring :=
  match lengthOf e with
  | Some (c :: s) => Some (c :: s)
  | _ => None
  end.

Definition ToInt32 (z : Z) : Z :=
  let u := z mod 2 ^ 32 in
  if u <? 2 ^ 31 then u else u - 2 ^ 32.

(** [(offset + align - 1) & ~(align - 1)] on 32-bit integers. *)
Definition alignOffset (offset align : Z) : Z :=
  Z.land (ToInt32 (offset + align - 1)) (Z.lnot (ToInt32 (align - 1))).

(** What the closures of one [defineStruct] call share. *)
Record BuiltStruct := {
  layout : list LayoutEntry;
  struct_size : Z;
  byName : gmap jsstring LayoutEntry;
  inferredLengthFieldFor : gmap jsstring jsstring;
  reduceValue : option (gmap jsstring JsValue -> gmap jsstring JsValue);
}.

Section Layout.
Context {Memory : Type} (H : Host Memory).

Definition getPointerSize : Z :=
  let is_one_of (a b : jsstring) (arch : option jsstring) : bool :=
    match arch with
    | Some s => bool_decide (s = a) || bool_decide (s = b)
    | None => false
    end in
  if is_one_of (str "x64") (str "arm64") (process_arch H) then 8
  else if is_one_of (str "x86_64") (str "aarch64")
            (getDenoGlobal H ≫= Deno_build_arch) then 8
  else 4.

Definition pointerSize : Z := getPointerSize.

Definition primitiveSizes (t : PrimitiveType) : Z :=
  match t with
  | u8 => 1
  | bool_u8 => 1
  | bool_u32 => 4
  | u16 => 2
  | i16 => 2
  | u32 => 4
  | i32 => 4
  | u64 => 8
  | f32 => 4
  | f64 => 8
  | pointer => pointerSize
  end.

(** One turn of the layout loop of [defineStruct]. *)
Definition layoutField (acc : Z * list LayoutEntry) (field : FieldDef)
  : Z * list LayoutEntry :=
  let '(offset, layout) := acc in
  let '(name, rawType, rawOptions) := field in
  let fieldOptions := default noOptions rawOptions in
  let '(kind, type, size, enumDef) :=
    match rawType with
    | FArray t => (array, t, pointerSize, None)
    | FCharPtr => (char_ptr, pointer, pointerSize, None)
    | FPrimitive t => (primitive, t, primitiveSizes t, None)
    | FEnum d => (enum_kind, enum_type d, primitiveSizes (enum_type d), Some d)
    end in
  let align := Z.max 1 (Z.min size pointerSize) in
  let offset := alignOffset offset align in
  (offset + size,
   layout ++
     [{| name := name; kind := kind; type := type; offset := offset;
         size := size;
         optional := default false (opt_optional fieldOptions);
         defaultValue := opt_default fieldOptions;
         lengthOf := opt_lengthOf fieldOptions;
         packTransform := opt_packTransform fieldOptions;
         unpackTransform := opt_unpackTransform fieldOptions;
         enumDef := enumDef |}]).

Definition defineStruct (fields : list FieldDef)
    (reduce : option (gmap jsstring JsValue -> gmap jsstring JsValue))
  : BuiltStruct :=
  let '(offset, layout) := foldl layoutField (0, []) fields in
  let size := alignOffset offset pointerSize in
  let byName := foldl (fun m entry => <[name entry := entry]> m) ∅ layout in
  let inferredLengthFieldFor :=
    foldl (fun m entry =>
             match lengthOf_truthy entry with
             | None => m
             | Some target =>
                 match kind entry with
                 | primitive | enum_kind => <[target := name entry]> m
                 | _ => m
                 end
             end) ∅ layout in
  {| layout := layout; struct_size := size; byName := byName;
     inferredLengthFieldFor := inferredLengthFieldFor;
     reduceValue := reduce |}.
End Layout.

(** ** DataView over a list of bytes *)

(** [new ArrayBuffer(n)] *)
Definition newArrayBuffer (n : Z) : result (list byte) :=
  if n <? 0 then Err JsRangeError
  else Ok (replicate (Z.to_nat n) Byte.x00).

(** Every accessor checks that its range lies inside the view. *)
Definition view_set (view : list byte) (offset : Z) (bs : list byte)
  : result (list byte) :=
  if (0 <=? offset) && (offset + Z.of_nat (length bs) <=? Z.of_nat (length view))
  then Ok (take (Z.to_nat offset) view ++ bs ++
           drop (Z.to_nat offset + length bs) view)
  else Err JsRangeError.

Definition view_get (view : list byte) (offset : Z) (n : nat)
  : result (list byte) :=
  if (0 <=? offset) && (offset + Z.of_nat n <=? Z.of_nat (length view))
  then Ok (take n (drop (Z.to_nat offset) view))
  else Err JsRangeError.

(** The value of [n] little-endian bytes read as a signed integer. *)
Definition signed (n : nat) (u : Z) : Z :=
  if u <? 2 ^ (8 * Z.of_nat n - 1) then u else u - 2 ^ (8 * Z.of_nat n).

(** The bytes of an [n]-byte integer in the order the flag asks for. *)
Definition to_bytes (n : nat) (z : Z) (littleEndian : bool) : list byte :=
  if littleEndian then le_split n z else rev (le_split n z).

Definition of_bytes (bs : list byte) (littleEndian : bool) : Z :=
  if littleEndian then le_combine bs else le_combine (rev bs).

Section DataView.
Context (E : Engine).

(** The integer setters reduce their argument modulo 2^8n. *)
Definition setUint8 view offset (value : number) :=
  view_set view offset (to_bytes 1 (integral value) true).
Definition setUint16 view offset (value : number) (littleEndian : bool) :=
  view_set view offset (to_bytes 2 (integral value) littleEndian).
Definition setInt16 view offset (value : number) (littleEndian : bool) :=
  view_set view offset (to_bytes 2 (integral value) littleEndian).
Definition setUint32 view offset (value : number) (littleEndian : bool) :=
  view_set view offset (to_bytes 4 (integral value) littleEndian).
Definition setInt32 view offset (value : number) (littleEndian : bool) :=
  view_set view offset (to_bytes 4 (integral value) littleEndian).
Definition setBigUint64 view offset (value : Z) (littleEndian : bool) :=
  view_set view offset (to_bytes 8 value littleEndian).
Definition setFloat32 view offset (value : number) (littleEndian : bool) :=
  view_set view offset (to_bytes 4 (float32_bits E value) littleEndian).
Definition setFloat64 view offset (value : number) (littleEndian : bool) :=
  view_set view offset (to_bytes 8 (float64_bits E value) littleEndian).

Definition getUint8 view offset : result Z :=
  bs ← view_get view offset 1; Ok (of_bytes bs true).
Definition getUint16 view offset (littleEndian : bool) : result Z :=
  bs ← view_get view offset 2; Ok (of_bytes bs littleEndian).
Definition getInt16 view offset (littleEndian : bool) : result Z :=
  bs ← view_get view offset 2; Ok (signed 2 (of_bytes bs littleEndian)).
Definition getUint32 view offset (littleEndian : bool) : result Z :=
  bs ← view_get view offset 4; Ok (of_bytes bs littleEndian).
Definition getInt32 view offset (littleEndian : bool) : result Z :=
  bs ← view_get view offset 4; Ok (signed 4 (of_bytes bs littleEndian)).
Definition getBigUint64 view offset (littleEndian : bool) : result Z :=
  bs ← view_get view offset 8; Ok (of_bytes bs littleEndian).
Definition getFloat32 view offset (littleEndian : bool) : result number :=
  bs ← view_get view offset 4; Ok (float32_value E (of_bytes bs littleEndian)).
Definition getFloat64 view offset (littleEndian : bool) : result number :=
  bs ← view_get view offset 8; Ok (float64_value E (of_bytes bs littleEndian)).
End DataView.

(** ** deno-ffi-structs.ts: writePrimitive, readPrimitive, pack, unpack *)

Section Structs.
Context {Memory : Type} (H : Host Memory).
Local Abbreviation E := (engine H).

Definition writePrimitive (view : list byte) (type : PrimitiveType)
    (offset : Z) (value : JsValue) : result (list byte) :=
  let zero := VNum (NInt 0) in
  match type with
  | u8 => setUint8 view offset (ToNumber E (coalesce value zero))
  | bool_u8 => setUint8 view offset (NInt (if truthy value then 1 else 0))
  | bool_u32 =>
      setUint32 view offset (NInt (if truthy value then 1 else 0)) true
  | u16 => setUint16 view offset (ToNumber E (coalesce value zero)) true
  | i16 => setInt16 view offset (ToNumber E (coalesce value zero)) true
  | u32 => setUint32 view offset (ToNumber E (coalesce value zero)) true
  | i32 => setInt32 view offset (ToNumber E (coalesce value zero)) true
  | u64 =>
      z ← ToBigInt E (coalesce value zero);
      setBigUint64 view offset z true
  | f32 => setFloat32 E view offset (ToNumber E (coalesce value zero)) true
  | f64 => setFloat64 E view offset (ToNumber E (coalesce value zero)) true
  | pointer =>
      pointer ← pointerToBigInt H value;
      if pointerSize H =? 8 then setBigUint64 view offset pointer true
      else setUint32 view offset (Number_of_bigint pointer) true
  end.

Definition readPrimitive (view : list byte) (type : PrimitiveType)
    (offset : Z) : result JsValue :=
  match type with
  | u8 => x ← getUint8 view offset; Ok (VNum (NInt x))
  | bool_u8 => x ← getUint8 view offset; Ok (VBool (negb (x =? 0)))
  | bool_u32 => x ← getUint32 view offset true; Ok (VBool (negb (x =? 0)))
  | u16 => x ← getUint16 view offset true; Ok (VNum (NInt x))
  | i16 => x ← getInt16 view offset true; Ok (VNum (NInt x))
  | u32 => x ← getUint32 view offset true; Ok (VNum (NInt x))
  | i32 => x ← getInt32 view offset true; Ok (VNum (NInt x))
  | u64 => x ← getBigUint64 view offset true; Ok (VBig x)
  | f32 => x ← getFloat32 E view offset true; Ok (VNum x)
  | f64 => x ← getFloat64 E view offset true; Ok (VNum x)
  | pointer =>
      if pointerSize H =? 8
      then x ← getBigUint64 view offset true; Ok (VBig x)
      else x ← getUint32 view offset true; Ok (VBig x)
  end.

(** A loop whose body can throw. *)
Fixpoint foldM {A B} (f : A -> B -> result A) (a : A) (l : list B)
  : result A :=
  match l with
  | [] => Ok a
  | b :: rest => a' ← f a b; foldM f a' rest
  end.

(** [for (let i = 0; i < values.length; i++) writePrimitive(arrView, ...)] *)
Fixpoint writeItems (arrView : list byte) (type : PrimitiveType)
    (elementSize : Z) (i : Z) (values : list JsValue) : result (list byte) :=
  match values with
  | [] => Ok arrView
  | v :: rest =>
      arrView' ← writePrimitive arrView type (i * elementSize) v;
      writeItems arrView' type elementSize (i + 1) rest
  end.

(** [for (let i = 0; i < len; i++) items.push(readPrimitive(arrView, ...))],
    [count] turns from index [i] on. *)
Fixpoint readItems (arrView : list byte) (type : PrimitiveType)
    (elementSize : Z) (i : Z) (count : nat) : result (list JsValue) :=
  match count with
  | O => Ok []
  | S count' =>
      item ← readPrimitive arrView type (i * elementSize);
      items ← readItems arrView type elementSize (i + 1) count';
      Ok (item :: items)
  end.

(** The local state of [pack]: the struct's buffer, the retained
    payload buffers and the host memory. *)
Record PackState := {
  st_view : list byte;
  st_allocated : list (list byte);
  st_memory : Memory;
}.

(** After a string or array payload: the write into the field that
    [entry.lengthOf] names, when there is one. *)
Definition writeLengthField (S : BuiltStruct) (entry : LayoutEntry)
    (view : list byte) (length : Z) : result (list byte) :=
  match lengthOf_truthy entry with
  | Some target =>
      match byName S !! target with
      | Some lenField =>
          writePrimitive view (type lenField) (offset lenField)
                         (VNum (NInt length))
      | None => Ok view
      end
  | None => Ok view
  end.

(** The first half of the body of the loop of [pack]: the value of the
    field once its default, its [packTransform], the derived length and
    [optional] are applied. *)
Definition fieldValueOf (input : gmap jsstring JsValue) (entry : LayoutEntry)
  : JsValue :=
  let fieldValue := prop E input (name entry) in
  let fieldValue :=
    if is_undefined fieldValue && negb (is_undefined (defaultValue entry))
    then defaultValue entry else fieldValue in
  let fieldValue :=
    match packTransform entry with
    | Some f => f fieldValue
    | None => fieldValue
    end in
  let fieldValue :=
    match kind entry, lengthOf_truthy entry with
    | (primitive | enum_kind), Some source =>
        match prop E input source with
        | VStr sourceValue =>
            VNum (NInt (Z.of_nat (length (utf8_encode E sourceValue))))
        | VArr sourceValue => VNum (NInt (Z.of_nat (length sourceValue)))
        | VBuf sourceValue => VNum (NInt (Z.of_nat (length sourceValue)))
        | _ => fieldValue
        end
    | _, _ => fieldValue
    end in
  if is_undefined fieldValue && optional entry then VNull else fieldValue.

(** The body of the loop of [pack]: the [switch] on the kind. *)
Definition packField (S : BuiltStruct) (input : gmap jsstring JsValue)
    (st : PackState) (entry : LayoutEntry) : result PackState :=
  let fieldValue := fieldValueOf input entry in
  match kind entry with
  | primitive =>
      view ← writePrimitive (st_view st) (type entry) (offset entry) fieldValue;
      Ok {| st_view := view; st_allocated := st_allocated st;
            st_memory := st_memory st |}
  | enum_kind =>
      match enumDef entry with
      | Some d =>
          mapped ← EnumDef_to E d fieldValue;
          view ← writePrimitive (st_view st) (type entry) (offset entry) mapped;
          Ok {| st_view := view; st_allocated := st_allocated st;
                st_memory := st_memory st |}
      | None => Err JsTypeError
      end
  | char_ptr =>
      let text := if nullish fieldValue then [] else ToString E fieldValue in
      let encoded := utf8_encode E text in
      st' ←
        (if Nat.eqb (length encoded) 0 then
           view ← writePrimitive (st_view st) pointer (offset entry)
                                 (VNum (NInt 0));
           Ok {| st_view := view; st_allocated := st_allocated st;
                 st_memory := st_memory st |}
         else
           '(p, m') ← ptr H (st_memory st) encoded;
           view ← writePrimitive (st_view st) pointer (offset entry) p;
           Ok {| st_view := view;
                 st_allocated := st_allocated st ++ [encoded];
                 st_memory := m' |});
      view ← writeLengthField S entry (st_view st')
                              (Z.of_nat (length encoded));
      Ok {| st_view := view; st_allocated := st_allocated st';
            st_memory := st_memory st' |}
  | array =>
      let values :=
        match fieldValue with
        | VArr items => items
        | _ => []
        end in
      let elementSize := primitiveSizes H (type entry) in
      arrBuf ← newArrayBuffer (Z.of_nat (length values) * elementSize);
      arrBuf ← writeItems arrBuf (type entry) elementSize 0 values;
      st' ←
        (if Nat.eqb (length values) 0 then
           view ← writePrimitive (st_view st) pointer (offset entry)
                                 (VNum (NInt 0));
           Ok {| st_view := view; st_allocated := st_allocated st;
                 st_memory := st_memory st |}
         else
           '(p, m') ← ptr H (st_memory st) arrBuf;
           view ← writePrimitive (st_view st) pointer (offset entry) p;
           Ok {| st_view := view;
                 st_allocated := st_allocated st ++ [arrBuf];
                 st_memory := m' |});
      view ← writeLengthField S entry (st_view st')
                              (Z.of_nat (length values));
      Ok {| st_view := view; st_allocated := st_allocated st';
            st_memory := st_memory st' |}
  end.

(** [pack(value)]: the buffer, its [_refs] and the host memory after
    the payloads were pinned. *)
Definition packInput (S : BuiltStruct) (value : gmap jsstring JsValue)
  : gmap jsstring JsValue :=
  match reduceValue S with
  | Some reduce => reduce value
  | None => value
  end.

Definition pack (S : BuiltStruct) (m : Memory)
    (value : gmap jsstring JsValue) : result PackState :=
  let input := packInput S value in
  buffer ← newArrayBuffer (struct_size S);
  foldM (packField S input)
        {| st_view := buffer; st_allocated := []; st_memory := m |}
        (layout S).

Definition getLengthFieldValue (S : BuiltStruct) (view : list byte)
    (out : JsObject) (fieldName : option jsstring)
  : result number :=
  match fieldName with
  | Some (c :: s) =>
      let fieldName := c :: s in
      existing ← getProperty E out fieldName;
      if negb (is_undefined existing) then Ok (ToNumber E existing)
      else
        match byName S !! fieldName with
        | Some field =>
            v ← readPrimitive view (type field) (offset field);
            Ok (ToNumber E v)
        | None => Ok (NInt 0)
        end
  | _ => Ok (NInt 0)
  end.

(** [entry.lengthOf ?? inferredLengthFieldFor.get(entry.name)] *)
Definition lengthFieldOf (S : BuiltStruct) (entry : LayoutEntry)
  : option jsstring :=
  match lengthOf entry with
  | Some l => Some l
  | None => inferredLengthFieldFor S !! name entry
  end.

(** The [switch] of the loop of [unpack]: the decoded value of one
    field, before its [unpackTransform]. *)
Definition unpackValue (S : BuiltStruct) (m : Memory) (view : list byte)
    (out : JsObject) (entry : LayoutEntry) : result JsValue :=
  match kind entry with
  | primitive => readPrimitive view (type entry) (offset entry)
  | enum_kind =>
      v ← readPrimitive view (type entry) (offset entry);
      let raw := ToNumber E v in
      match enumDef entry with
      | Some d => nm ← EnumDef_from d raw; Ok (VStr nm)
      | None => Err JsTypeError
      end
  | char_ptr =>
      pointer ← readPrimitive view pointer (offset entry);
      let lenField := lengthFieldOf S entry in
      len ← getLengthFieldValue S view out lenField;
      if negb (truthy pointer) || num_le0 len then Ok (VStr [])
      else
        bytes ← toArrayBuffer H m pointer (NInt 0) (Some len);
        Ok (VStr (utf8_decode E bytes))
  | array =>
      pointer ← readPrimitive view pointer (offset entry);
      let lenField := lengthFieldOf S entry in
      len ← getLengthFieldValue S view out lenField;
      if negb (truthy pointer) || num_le0 len then Ok (VArr [])
      else
        let elementSize := primitiveSizes H (type entry) in
        arrView ← toArrayBuffer H m pointer (NInt 0)
                                (Some (num_scale len elementSize));
        match len with
        | NInf _ => Err JsRangeError
        | _ =>
            items ← readItems arrView (type entry) elementSize 0
                              (Z.to_nat (num_ceil len));
            Ok (VArr items)
        end
  end.

Definition unpackField (S : BuiltStruct) (m : Memory) (view : list byte)
    (out : JsObject) (entry : LayoutEntry) : result JsObject :=
  value ← unpackValue S m view out entry;
  let value :=
    match unpackTransform entry with
    | Some f => f value
    | None => value
    end in
  setProperty E out (name entry) value.

Definition unpack (S : BuiltStruct) (m : Memory) (buffer : list byte)
  : result JsObject :=
  foldM (unpackField S m buffer) newObject (layout S).
End Structs.

(** ** Two sample hosts *)

(** The examples run on a 64-bit Bun and a 64-bit Deno.  Their engine
    encodes UTF-8 as TextEncoder does, decodes it with one U+FFFD per
    offending byte after dropping a byte-order mark, converts decimal
    integer literals, and knows the two Unicode properties on a few
    blocks only.  Object.prototype holds its standard functions on
    both, and the accessor [__proto__] on Bun only.  Their memory is
    the list of pinned buffers with the address of each. *)
Module Sample.

Definition utf8_of_codepoint (c : Z) : list Z :=
  if c <? 0x80 then [c]
  else if c <? 0x800 then [0xC0 + c / 64; 0x80 + c mod 64]
  else if (0xD800 <=? c) && (c <=? 0xDFFF) then [0xEF; 0xBF; 0xBD]
  else if c <? 0x10000 then
    [0xE0 + c / 4096; 0x80 + (c / 64) mod 64; 0x80 + c mod 64]
  else
    [0xF0 + c / 262144; 0x80 + (c / 4096) mod 64;
     0x80 + (c / 64) mod 64; 0x80 + c mod 64].

Definition encode (s : jsstring) : list byte :=
  List.map byte.of_Z (List.concat (List.map utf8_of_codepoint s)).

Definition continuation (b : Z) : bool := (0x80 <=? b) && (b <? 0xC0).

Fixpoint decode_from (bs : list Z) : jsstring :=
  match bs with
  | [] => []
  | b0 :: r0 =>
      if b0 <? 0x80 then b0 :: decode_from r0
      else
        match r0 with
        | b1 :: r1 =>
            if (0xC2 <=? b0) && (b0 <? 0xE0) && continuation b1
            then ((b0 - 0xC0) * 64 + (b1 - 0x80)) :: decode_from r1
            else
              match r1 with
              | b2 :: r2 =>
                  let c3 := (b0 - 0xE0) * 4096 + (b1 - 0x80) * 64 + (b2 - 0x80) in
                  if (0xE0 <=? b0) && (b0 <? 0xF0) && continuation b1 &&
                     continuation b2 && (0x800 <=? c3) &&
                     negb ((0xD800 <=? c3) && (c3 <=? 0xDFFF))
                  then c3 :: decode_from r2
                  else
                    match r2 with
                    | b3 :: r3 =>
                        let c4 := (b0 - 0xF0) * 262144 + (b1 - 0x80) * 4096 +
                                  (b2 - 0x80) * 64 + (b3 - 0x80) in
                        if (0xF0 <=? b0) && (b0 <? 0xF5) && continuation b1 &&
                           continuation b2 && continuation b3 &&
                           (0x10000 <=? c4) && (c4 <=? 0x10FFFF)
                        then c4 :: decode_from r3
                        else 0xFFFD :: decode_from r0
                    | [] => 0xFFFD :: decode_from r0
                    end
              | [] => 0xFFFD :: decode_from r0
              end
        | [] => [0xFFFD]
        end
  end.

Definition decode (bs : list byte) : jsstring :=
  match List.map byte.unsigned bs with
  | 0xEF :: 0xBB :: 0xBF :: rest => decode_from rest
  | zs => decode_from zs
  end.

(** Decimal digits, most significant first. *)
Fixpoint digits_fuel (fuel : nat) (n : Z) (acc : jsstring) : jsstring :=
  match fuel with
  | O => acc
  | S fuel' =>
      let acc' := (48 + n mod 10) :: acc in
      if n <? 10 then acc' else digits_fuel fuel' (n / 10) acc'
  end.

Definition decimal (z : Z) : jsstring :=
  let a := Z.abs z in
  let ds := digits_fuel (S (Z.to_nat (Z.log2 a))) a [] in
  if z <? 0 then 45 :: ds else ds.

Definition parse_digits (s : jsstring) : option Z :=
  foldl (fun acc c =>
           match acc with
           | Some n =>
               if (48 <=? c) && (c <=? 57) then Some (10 * n + (c - 48))
               else None
           | None => None
           end) (Some 0) s.

Definition parse_integer (s : jsstring) : option Z :=
  match s with
  | [] => Some 0
  | 45 :: (c :: r) => Z.opp <$> parse_digits (c :: r)
  | 43 :: (c :: r) => parse_digits (c :: r)
  | 45 :: [] | 43 :: [] => None
  | _ => parse_digits s
  end.

Definition number_of_string (s : jsstring) : number :=
  match parse_integer s with
  | Some z => Number_of_bigint z
  | None => NNaN
  end.

(** A non-integer prints as its exact decimal expansion. *)
Definition string_of_number (n : number) : jsstring :=
  match n with
  | NInt z => decimal z
  | NFrac m e =>
      let scaled := Z.abs m * 5 ^ Z.pos e in
      let whole := scaled / 10 ^ Z.pos e in
      let part := scaled mod 10 ^ Z.pos e in
      let frac := decimal (10 ^ Z.pos e + part) in
      (if m <? 0 then [45] else []) ++ decimal whole ++ 46 :: drop 1 frac
  | NNaN => str "NaN"
  | NInf true => str "-Infinity"
  | NInf false => str "Infinity"
  end.

(** The functions of Object.prototype, each with the identity of its
    function object (a negative number, where no pointer of the sample
    hosts lies); [constructor] is the function [Object]. *)
Definition builtins : list (jsstring * (Z * jsstring)) :=
  [ (str "constructor", (-1, str "Object"));
    (str "hasOwnProperty", (-2, str "hasOwnProperty"));
    (str "isPrototypeOf", (-3, str "isPrototypeOf"));
    (str "propertyIsEnumerable", (-4, str "propertyIsEnumerable"));
    (str "toLocaleString", (-5, str "toLocaleString"));
    (str "toString", (-6, str "toString"));
    (str "valueOf", (-7, str "valueOf"));
    (str "__defineGetter__", (-8, str "__defineGetter__"));
    (str "__defineSetter__", (-9, str "__defineSetter__"));
    (str "__lookupGetter__", (-10, str "__lookupGetter__"));
    (str "__lookupSetter__", (-11, str "__lookupSetter__")) ].

(** Object.prototype itself. *)
Definition objectPrototype : JsValue := VObj (-12).

Definition string_of_object (v : JsValue) : jsstring :=
  match v with
  | VBuf _ => str "[object ArrayBuffer]"
  | VObj id =>
      match List.find (fun b => fst (snd b) =? id) builtins with
      | Some (_, (_, fname)) =>
          str "function " ++ fname ++ str "() { [native code] }"
      | None => str "[object Object]"
      end
  | _ => str "[object Object]"
  end.

(** Reading through Object.prototype; [with_proto] tells whether the
    accessor [__proto__] is there. *)
Definition object_member (with_proto : bool) (k : jsstring) : JsValue :=
  match List.find (fun b => bool_decide (fst b = k)) builtins with
  | Some (_, (id, _)) => VObj id
  | None =>
      if with_proto && bool_decide (k = str "__proto__") then objectPrototype
      else VUndefined
  end.

(** The function objects of [builtins]. *)
Definition builtinFunction (p : JsValue) : option (Z * jsstring) :=
  match p with
  | VObj id => snd <$> List.find (fun b => fst (snd b) =? id) builtins
  | _ => None
  end.

(** The number of parameters each of them declares. *)
Definition builtinLength (id : Z) : Z :=
  if (id =? -8) || (id =? -9) then 2
  else if (id =? -5) || (id =? -6) || (id =? -7) then 0
  else 1.

(** The accessors of ArrayBuffer.prototype: getters that throw on an
    object that is no ArrayBuffer, and no setters. *)
Definition bufferAccessor (k : jsstring) : bool :=
  bool_decide (k ∈ [str "byteLength"; str "maxByteLength"; str "resizable";
                    str "detached"]).

(** Reading through an object that replaced Object.prototype.  The
    examples replace it by arrays, buffers and the functions of
    [builtins] only: an array shows its length, a function its name
    and length, a buffer the accessors of ArrayBuffer.prototype, and
    every other name is looked up in Object.prototype (the methods of
    Array.prototype, Function.prototype and ArrayBuffer.prototype play
    no part in the examples and are left out). *)
Definition member_via (with_proto : bool) (p : JsValue) (o : JsObject)
    (k : jsstring) : result JsValue :=
  match p with
  | VArr items =>
      if bool_decide (k = str "length")
      then Ok (VNum (NInt (Z.of_nat (length items))))
      else Ok (object_member with_proto k)
  | VBuf _ =>
      if bufferAccessor k then Err JsTypeError
      else Ok (object_member with_proto k)
  | _ =>
      match builtinFunction p with
      | Some (id, fname) =>
          if bool_decide (k = str "name") then Ok (VStr fname)
          else if bool_decide (k = str "length")
               then Ok (VNum (NInt (builtinLength id)))
               else Ok (object_member with_proto k)
      | None => Ok (object_member with_proto k)
      end
  end.

(** Assigning through such an object: the setter of [__proto__] runs
    where Object.prototype has it; the name and the length of a
    function, the prototype of [Object] and the accessors of a buffer
    cannot be written; every other name becomes a property of the
    object assigned to. *)
Definition assign_via (with_proto : bool) (p : JsValue) (o : JsObject)
    (k : jsstring) (v : JsValue) : result JsObject :=
  let readOnly :=
    match p with
    | VBuf _ => bufferAccessor k
    | _ =>
        match builtinFunction p with
        | Some (id, _) =>
            bool_decide (k = str "name") || bool_decide (k = str "length")
            || ((id =? -1) && bool_decide (k = str "prototype"))
        | None => false
        end
    end in
  if with_proto && bool_decide (k = str "__proto__") then Ok (setPrototype o v)
  else if readOnly then Err JsTypeError
  else Ok {| own := <[k := v]> (own o); proto := proto o |}.

(** The binary interchange image with [mbits] fraction bits and
    [ebits] exponent bits, rounding to nearest even; magnitudes below
    the normal range go to zero. *)
Definition ieee_bits (mbits ebits : Z) (n : number) : Z :=
  let bias := 2 ^ (ebits - 1) - 1 in
  let top := 2 ^ ebits - 1 in
  let signbit (negative : bool) := if negative then 2 ^ (mbits + ebits) else 0 in
  let finite (m e : Z) :=
    let a := Z.abs m in
    let p := Z.log2 a in
    let sh := p - mbits in
    let q :=
      if sh <=? 0 then a * 2 ^ (- sh)
      else
        let q0 := a / 2 ^ sh in
        let r := a mod 2 ^ sh in
        let half := 2 ^ (sh - 1) in
        if (half <? r) || ((r =? half) && Z.odd q0) then q0 + 1 else q0 in
    let '(q, x) :=
      if q =? 2 ^ (mbits + 1) then (2 ^ mbits, p - e + 1) else (q, p - e) in
    if top <=? x + bias then signbit (m <? 0) + top * 2 ^ mbits
    else if x + bias <=? 0 then signbit (m <? 0)
    else signbit (m <? 0) + (x + bias) * 2 ^ mbits + (q - 2 ^ mbits) in
  match n with
  | NNaN => top * 2 ^ mbits + 2 ^ (mbits - 1)
  | NInf negative => signbit negative + top * 2 ^ mbits
  | NInt 0 => 0
  | NInt z => finite z 0
  | NFrac m e => finite m (Z.pos e)
  end.

Definition ieee_value (mbits ebits : Z) (bits : Z) : number :=
  let bias := 2 ^ (ebits - 1) - 1 in
  let top := 2 ^ ebits - 1 in
  let negative := Z.testbit bits (mbits + ebits) in
  let x := (bits / 2 ^ mbits) mod 2 ^ ebits in
  let f := bits mod 2 ^ mbits in
  let sign := if negative then -1 else 1 in
  if x =? top then (if f =? 0 then NInf negative else NNaN)
  else
    let '(s, power) :=
      if x =? 0 then (f, 1 - bias - mbits) else (2 ^ mbits + f, x - bias - mbits) in
    if 0 <=? power then NInt (sign * s * 2 ^ power)
    else dyadic (sign * s) (Z.to_nat (- power)).

Definition in_range (lo hi c : Z) : bool := (lo <=? c) && (c <=? hi).

(** Combining Diacritical Marks, Combining Diacritical Marks for
    Symbols up to U+20F0, the variation selectors. *)
Definition mark (c : Z) : bool :=
  in_range 0x0300 0x036F c || in_range 0x20D0 0x20F0 c ||
  in_range 0xFE00 0xFE0F c || in_range 0xE0100 0xE01EF c.

(** The copyright and registered signs, the Emoticons block. *)
Definition pictographic (c : Z) : bool :=
  (c =? 0xA9) || (c =? 0xAE) || in_range 0x1F600 0x1F64F c.

Definition engineWith (with_proto : bool) : Engine :=
  {| utf8_encode := encode;
     utf8_decode := decode;
     StringToNumber := number_of_string;
     NumberToString := string_of_number;
     StringToBigInt := parse_integer;
     BigIntToString := decimal;
     ObjectToString := string_of_object;
     float32_bits := ieee_bits 23 8;
     float32_value := ieee_value 23 8;
     float64_bits := ieee_bits 52 11;
     float64_value := ieee_value 52 11;
     is_Mark := mark;
     is_Extended_Pictographic := pictographic;
     inherited := object_member with_proto;
     inheritedSetter := fun k =>
       with_proto && bool_decide (k = str "__proto__");
     getVia := member_via with_proto;
     setVia := assign_via with_proto |}.

(** The engine of Bun, and of the host without FFI: Object.prototype
    has [__proto__]. *)
Definition sampleEngine : Engine := engineWith true.

(** The engine of Deno, which removes [__proto__] from
    Object.prototype. *)
Definition denoEngine : Engine := engineWith false.

(** Pinned buffers: base address and contents, oldest first. *)
Abbreviation Memory := (list (Z * list byte)).

(** The next free address: past every pinned buffer, a multiple of 16,
    never 0. *)
Definition next_address (m : Memory) : Z :=
  let top := foldl (fun t '(a, bs) => Z.max t (a + Z.of_nat (length bs)))
                   4096 m in
  (top + 15) / 16 * 16.

(** Pinning fails (the host returns a null pointer) when the buffer
    would end at or beyond 4 GiB. *)
Definition pin (m : Memory) (bs : list byte) : option (Z * Memory) :=
  let a := next_address m in
  if a + Z.of_nat (length bs) <? 2 ^ 32 then Some (a, m ++ [(a, bs)])
  else None.

(** The first pinned buffer that holds [n] bytes at [address]. *)
Fixpoint load (m : Memory) (address : Z) (n : Z) : result (list byte) :=
  match m with
  | [] => Err HostFault
  | (a, bs) :: rest =>
      if (a <=? address) && (address + n <=? a + Z.of_nat (length bs))
      then Ok (take (Z.to_nat n) (drop (Z.to_nat (address - a)) bs))
      else load rest address n
  end.

(** The address behind a pointer of either host. *)
Definition address_of (p : JsValue) : option Z :=
  match p with
  | VNum (NInt a) => Some a
  | VBig a => Some a
  | VObj a => Some a
  | _ => None
  end.

Definition read (m : Memory) (p : JsValue) (byteOffset : Z)
    (byteLength : number) : result (list byte) :=
  match address_of p, byteLength with
  | Some a, NInt n =>
      if (a =? 0) || (n <? 0) then Err HostFault
      else load m (a + byteOffset) n
  | _, _ => Err HostFault
  end.

Definition bunFFI : BunFFI Memory :=
  {| bun_ptr := fun m bs =>
       match pin m bs with
       | Some (a, m') => (VNum (NInt a), m')
       | None => (VNull, m)
       end;
     bun_toArrayBuffer := fun m p byteOffset byteLength =>
       read m p (integral byteOffset) (default (NInt 0) byteLength) |}.

Definition denoUnsafePointer (with_offset : bool) : DenoUnsafePointer Memory :=
  {| UnsafePointer_of := fun m bs =>
       match pin m bs with
       | Some (a, m') => (VObj a, m')
       | None => (VNull, m)
       end;
     UnsafePointer_offset :=
       if with_offset then
         Some (fun p byteOffset =>
                 match address_of p with
                 | Some a => VObj (a + integral byteOffset)
                 | None => VNull
                 end)
       else None;
     UnsafePointer_value :=
       Some (fun p => match p with
                      | VObj a => VBig a
                      | _ => VUndefined
                      end) |}.

Definition sampleBun : Host Memory :=
  {| engine := sampleEngine;
     Bun := Some {| Bun_FFI := Some bunFFI; Bun_stringWidth := None |};
     Deno := None;
     process_arch := Some (str "x64") |}.

Definition sampleDeno (with_offset : bool) : Host Memory :=
  {| engine := denoEngine;
     Bun := None;
     Deno := Some {| Deno_dlopen := true;
                     Deno_UnsafePointer := Some (denoUnsafePointer with_offset);
                     Deno_UnsafePointerView := Some (fun m p n => read m p 0 n);
                     Deno_UnsafeCallback := true;
                     Deno_build_arch := Some (str "x86_64") |};
     process_arch := None |}.

(** A host with no FFI at all and 32-bit pointers: only the engine. *)
Definition sampleBare : Host Memory :=
  {| engine := sampleEngine; Bun := None; Deno := None;
     process_arch := None |}.
End Sample.

(** ** What a scalar looks like in memory *)

Section ScalarImage.
Context {Memory : Type} (H : Host Memory).
Local Abbreviation E := (engine H).

(** The width of a primitive in bytes. *)
Definition widthOf (t : PrimitiveType) : nat := Z.to_nat (primitiveSizes H t).

(** The integer whose low bytes [writePrimitive] stores for [value]. *)
Definition scalarImage (t : PrimitiveType) (value : JsValue) : result Z :=
  let zero := VNum (NInt 0) in
  match t with
  | u8 | u16 | i16 | u32 | i32 => Ok (integral (ToNumber E (coalesce value zero)))
  | bool_u8 | bool_u32 => Ok (if truthy value then 1 else 0)
  | u64 => ToBigInt E (coalesce value zero)
  | f32 => Ok (float32_bits E (ToNumber E (coalesce value zero)))
  | f64 => Ok (float64_bits E (ToNumber E (coalesce value zero)))
  | pointer =>
      p ← pointerToBigInt H value;
      Ok (if pointerSize H =? 8 then p else integral (Number_of_bigint p))
  end.

(** The value [readPrimitive] makes of the integer that the bytes of a
    slot spell. *)
Definition valueOfImage (t : PrimitiveType) (x : Z) : JsValue :=
  match t with
  | u8 | u16 | u32 => VNum (NInt x)
  | i16 => VNum (NInt (signed 2 x))
  | i32 => VNum (NInt (signed 4 x))
  | bool_u8 | bool_u32 => VBool (negb (x =? 0))
  | u64 | pointer => VBig x
  | f32 => VNum (float32_value E x)
  | f64 => VNum (float64_value E x)
  end.
(** The alignment of one layout entry: [offset % min(size, pointerWidth)]
    is 0. *)
Definition aligned (e : LayoutEntry) : Prop :=
  Z.rem (offset e) (Z.min (size e) (pointerSize H)) = 0.
End ScalarImage.

(** ** Data of the examples *)

Definition colours : list (jsstring * number) :=
  [(str "red", NInt 0); (str "green", NInt 1); (str "blue", NInt 2)].

Definition fourBytes : Sample.Memory :=
  [(4096, [Byte.x0a; Byte.x0b; Byte.x0c; Byte.x0d])].

Definition writeSymbol : list (jsstring * LogicalSymbol) :=
  [(str "write", (Some [T_ptr; T_u32], Some T_void, None))].

Definition nameAndLength : list FieldDef :=
  [ (str "name", FCharPtr, None);
    (str "nameLen", FPrimitive u32,
       Some {| opt_optional := None; opt_default := VUndefined;
               opt_lengthOf := Some (str "name");
               opt_packTransform := None; opt_unpackTransform := None |}) ].

(** A null pointer followed by the length 5. *)
Definition nullWithLength : list byte :=
  replicate 8 Byte.x00 ++ [Byte.x05; Byte.x00; Byte.x00; Byte.x00] ++
  replicate 4 Byte.x00.

(** The layout entry of the field [name] of that struct. *)
Definition nameEntry : LayoutEntry :=
  {| name := str "name"; kind := char_ptr; type := pointer; offset := 0;
     size := 8; optional := false; defaultValue := VUndefined;
     lengthOf := None; packTransform := None; unpackTransform := None;
     enumDef := None |}.

(** ** The shape of a layout *)

Section LayoutShape.
Context {Memory : Type} (H : Host Memory).

(** The slot of an entry is as wide as what [pack] writes there: the
    primitive itself, or a pointer for a string or an array. *)
Definition wellSized (e : LayoutEntry) : Prop :=
  match kind e with
  | primitive | enum_kind => size e = primitiveSizes H (type e)
  | char_ptr | array => size e = pointerSize H
  end.

(** Slots in declaration order, one after the other, from 0 up to
    [limit]. *)
Definition inOrder (lay : list LayoutEntry) (limit : Z) : Prop :=
  (forall k e, lay !! k = Some e ->
     0 <= offset e /\ offset e + size e <= limit /\ wellSized e)
  /\ (forall j k e' e, (j < k)%nat -> lay !! j = Some e' -> lay !! k = Some e ->
        offset e' + size e' <= offset e).
End LayoutShape.

(** ** What a round trip needs *)

Section RoundTripDefs.
Context {Memory : Type} (H : Host Memory).
Local Abbreviation E := (engine H).

(** The host memory [m] holds the bytes [bs] at address [a]: every
    non-empty prefix of them can be fetched through [toArrayBuffer]. *)
Definition Readable (m : Memory) (a : Z) (bs : list byte) : Prop :=
  forall n, 0 < n <= Z.of_nat (length bs) ->
    toArrayBuffer H m (VBig a) (NInt 0) (Some (NInt n))
      = Ok (take (Z.to_nat n) bs).

(** A host on which pointers can make the trip: the pointer that [ptr]
    gives for a buffer is a non-null address of pointer width at which
    the buffer can be read, and pinning a buffer leaves what was
    readable readable. *)
Definition pinsFaithfully : Prop :=
  forall m bs p m', ptr H m bs = Ok (p, m') ->
    (exists a, pointerToBigInt H p = Ok a /\
               0 < a < 2 ^ (8 * pointerSize H) /\ Readable m' a bs)
    /\ (forall a' bs', Readable m a' bs' -> Readable m' a' bs').

Definition isNone {A} (o : option A) : bool :=
  match o with
  | None => true
  | Some _ => false
  end.

(** The error of a [ptr] call that failed on this host. *)
Definition pinFailure (err : error) : Prop :=
  exists (m : Memory) (bs : list byte), ptr H m bs = Err err.

(** No field has the name of the inherited accessor [__proto__]: every
    assignment of [unpack] creates or updates a property. *)
Definition storesEveryField (S : BuiltStruct) : bool :=
  forallb (fun e => negb (inheritedSetter E (name e))) (layout S).

(** No string or array field carries a [lengthOf] of its own. *)
Definition lengthOnScalarsOnly (S : BuiltStruct) : bool :=
  forallb (fun e =>
             match kind e with
             | char_ptr | array => isNone (lengthOf_truthy e)
             | primitive | enum_kind => true
             end) (layout S).

(** [value[name]], or the declared default when that is undefined. *)
Definition effective (input : gmap jsstring JsValue) (e : LayoutEntry)
  : JsValue :=
  let v := prop E input (name e) in
  if is_undefined v && negb (is_undefined (defaultValue e))
  then defaultValue e else v.

(** The length that a [lengthOf] field derives from its source. *)
Definition derivedLength (input : gmap jsstring JsValue) (source : jsstring)
  : option Z :=
  match prop E input source with
  | VStr s => Some (Z.of_nat (length (utf8_encode E s)))
  | VArr items => Some (Z.of_nat (length items))
  | VBuf bs => Some (Z.of_nat (length bs))
  | _ => None
  end.

(** The logical value of a field: the derived length for a [lengthOf]
    field, else the given value or the declared default. *)
Definition logicalValue (input : gmap jsstring JsValue) (e : LayoutEntry)
  : JsValue :=
  match kind e, lengthOf_truthy e with
  | primitive, Some source =>
      match derivedLength input source with
      | Some n => VNum (NInt n)
      | None => effective input e
      end
  | _, _ => effective input e
  end.

(** [v] is a value of the primitive type [t] that a slot of that type
    holds exactly. *)
Definition fits (t : PrimitiveType) (v : JsValue) : bool :=
  match t, v with
  | u8, VNum (NInt z) => (0 <=? z) && (z <? 2 ^ 8)
  | u16, VNum (NInt z) => (0 <=? z) && (z <? 2 ^ 16)
  | u32, VNum (NInt z) => (0 <=? z) && (z <? 2 ^ 32)
  | i16, VNum (NInt z) => (- 2 ^ 15 <=? z) && (z <? 2 ^ 15)
  | i32, VNum (NInt z) => (- 2 ^ 31 <=? z) && (z <? 2 ^ 31)
  | u64, VBig z => (0 <=? z) && (z <? 2 ^ 64)
  | bool_u8, VBool _ => true
  | bool_u32, VBool _ => true
  | f32, VNum n =>
      bool_decide (float32_value E (float32_bits E n mod 2 ^ 32) = n)
  | f64, VNum n =>
      bool_decide (float64_value E (float64_bits E n mod 2 ^ 64) = n)
  | pointer, VBig z => (0 <=? z) && (z <? 2 ^ (8 * pointerSize H))
  | _, _ => false
  end.

Definition isPrimitive (k : Kind) : bool :=
  match k with
  | primitive => true
  | _ => false
  end.

(** The entry that [unpack] takes the length of [e] from, when [e]
    declares none itself. *)
Definition lengthEntryOf (S : BuiltStruct) (e : LayoutEntry)
  : option LayoutEntry :=
  match inferredLengthFieldFor S !! name e with
  | Some ln => byName S !! ln
  | None => None
  end.

(** The entry [L] carries the length of [e]. *)
Definition carriesLengthOf (L e : LayoutEntry) : bool :=
  isPrimitive (kind L) && bool_decide (lengthOf L = Some (name e)) &&
  negb (Nat.eqb (length (name L)) 0).

(** A name under which Object.prototype holds nothing: reading it on
    an object that has no such property gives [undefined], and
    assigning to it creates the property. *)
Definition ordinaryName (nm : jsstring) : bool :=
  is_undefined (inherited E nm) && negb (inheritedSetter E nm).

(** The value given for one field conforms to the field: an ordinary
    name; no transform hooks; a scalar that fits its type; a declared
    enum name whose number fits and maps back to it; a string that
    survives UTF-8, or an array of fitting elements, with a scalar
    field of the struct declared [lengthOf] it; for a [lengthOf] field,
    a source whose length fits. *)
Definition conformsField (S : BuiltStruct) (input : gmap jsstring JsValue)
    (e : LayoutEntry) : bool :=
  ordinaryName (name e) &&
  isNone (packTransform e) && isNone (unpackTransform e) &&
  match kind e with
  | primitive =>
      match lengthOf e with
      | None => fits (type e) (effective input e)
      | Some [] => false
      | Some source =>
          match derivedLength input source with
          | Some n => fits (type e) (VNum (NInt n))
          | None => false
          end
      end
  | enum_kind =>
      isNone (lengthOf e) &&
      match enumDef e, effective input e with
      | Some d, VStr nm =>
          match Map_get nm (enum d) with
          | Some (NInt z) =>
              fits (type e) (VNum (NInt z)) &&
              bool_decide (Map_get (NInt z) (reverse d) = Some nm)
          | _ => false
          end
      | _, _ => false
      end
  | char_ptr =>
      isNone (lengthOf e) &&
      match prop E input (name e), lengthEntryOf S e with
      | VStr s, Some L =>
          bool_decide (utf8_decode E (utf8_encode E s) = s) &&
          (negb (Nat.eqb (length (utf8_encode E s)) 0) || bool_decide (s = [])) &&
          carriesLengthOf L e
      | _, _ => false
      end
  | array =>
      isNone (lengthOf e) &&
      match prop E input (name e), lengthEntryOf S e with
      | VArr items, Some L =>
          forallb (fits (type e)) items && carriesLengthOf L e
      | _, _ => false
      end
  end.

(** A value conforms to the field set of a struct: the field names are
    distinct and the value of every field conforms. *)
Definition conforming (S : BuiltStruct) (input : gmap jsstring JsValue)
  : bool :=
  bool_decide (NoDup (name <$> layout S)) &&
  forallb (conformsField S input) (layout S).

(** Every property of an object under construction by [unpack] is the
    logical value of the field of that name. *)
Definition decodedSoFar (S : BuiltStruct) (input : gmap jsstring JsValue)
    (out : gmap jsstring JsValue) : Prop :=
  forall nm v, out !! nm = Some v ->
    exists e, e ∈ layout S /\ name e = nm /\ v = logicalValue input e.

(** The object that [unpack] builds from the logical values. *)
Definition expectedOut (input : gmap jsstring JsValue)
    (done : list LayoutEntry) : gmap jsstring JsValue :=
  foldl (fun out e => <[name e := logicalValue input e]> out) ∅ done.
End RoundTripDefs.

(** The options [{ lengthOf: source }]. *)
Definition lengthOfOption (source : jsstring) : option FieldOptions :=
  Some {| opt_optional := None; opt_default := VUndefined;
          opt_lengthOf := Some source;
          opt_packTransform := None; opt_unpackTransform := None |}.

(** A string with a one-byte length, and a value whose string has 256
    bytes. *)
Definition shortText : list FieldDef :=
  [ (str "text", FCharPtr, None);
    (str "textLen", FPrimitive u8, lengthOfOption (str "text")) ].

Definition longValue : gmap jsstring JsValue :=
  <[str "text" := VStr (replicate 256 97)]> ∅.

(** The value [{ name: "abc", nameLen: 99 }] for [nameAndLength]. *)
Definition abcValue : gmap jsstring JsValue :=
  <[str "name" := VStr (str "abc")]> (<[str "nameLen" := VNum (NInt 99)]> ∅).

(** The layout entry of the field [nameLen] of [nameAndLength]. *)
Definition nameLenEntry : LayoutEntry :=
  {| name := str "nameLen"; kind := primitive; type := u32; offset := 8;
     size := 4; optional := false; defaultValue := VUndefined;
     lengthOf := Some (str "name"); packTransform := None;
     unpackTransform := None; enumDef := None |}.
(** The struct of the scenario of the specification, the same struct
    with a length field for its string, and a value for both. *)
Definition scenario : list FieldDef :=
  [ (str "id", FPrimitive u32, None);
    (str "name", FCharPtr, None);
    (str "tags", FArray u32, None);
    (str "tagCount", FPrimitive u32, lengthOfOption (str "tags")) ].

Definition scenarioWithLength : list FieldDef :=
  [ (str "id", FPrimitive u32, None);
    (str "name", FCharPtr, None);
    (str "nameLen", FPrimitive u32, lengthOfOption (str "name"));
    (str "tags", FArray u32, None);
    (str "tagCount", FPrimitive u32, lengthOfOption (str "tags")) ].

Definition scenarioValue : gmap jsstring JsValue :=
  <[str "id" := VNum (NInt 7)]>
    (<[str "name" := VStr (str "abc")]>
       (<[str "tags" := VArr [VNum (NInt 1); VNum (NInt 2); VNum (NInt 3)]]> ∅)).

(** ** More of the layout *)

(** Where the slot of an entry ends. *)
Definition slotEnd (e : LayoutEntry) : Z := offset e + size e.

(** Where the slot before index [k] ends: 0 before the first field. *)
Definition endBefore (lay : list LayoutEntry) (k : nat) : Z :=
  match k with
  | O => 0
  | Datatypes.S j => default 0 (slotEnd <$> lay !! j)
  end.

(** Every slot starts less than one alignment after the end of the
    slot before it. *)
Definition tight {Memory : Type} (H : Host Memory) (lay : list LayoutEntry)
  : Prop :=
  forall k e, lay !! k = Some e ->
    endBefore lay k <= offset e
    < endBefore lay k + Z.min (size e) (pointerSize H).

(** ** More of [pack] and [unpack] *)

(** No field of the struct is a string or an array. *)
Definition scalarsOnly (S : BuiltStruct) : bool :=
  forallb (fun e =>
             match kind e with
             | primitive | enum_kind => true
             | char_ptr | array => false
             end) (layout S).

(** ** deno-ffi-structs.ts: packList, unpackList *)

(** [target.set(source, offset)] of a typed array: the source must fit. *)
Definition Uint8Array_set (target source : list byte) (offset : Z)
  : result (list byte) :=
  view_set target offset source.

(** [bytes.slice(start, end)] of a typed array: a negative index
    counts from the end, and both are clamped to the array. *)
Definition Uint8Array_slice (bytes : list byte) (start final : Z)
  : list byte :=
  let len := Z.of_nat (length bytes) in
  let relative (i : Z) := if i <? 0 then Z.max (len + i) 0 else Z.min i len in
  let first := relative start in
  let final := relative final in
  take (Z.to_nat (final - first)) (drop (Z.to_nat first) bytes).

Section StructLists.
Context {Memory : Type} (H : Host Memory).

(** The body of the loop of [packList]: the list buffer, its [refs]
    and the host memory so far, and the index [i]. *)
Definition packListItem (S : BuiltStruct) (acc : PackState * Z)
    (value : gmap jsstring JsValue) : result (PackState * Z) :=
  let '(st, i) := acc in
  packed ← pack H S (st_memory st) value;
  outView ← Uint8Array_set (st_view st) (st_view packed) (i * struct_size S);
  Ok ({| st_view := outView;
         st_allocated := st_allocated st ++ [st_view packed] ++ st_allocated packed;
         st_memory := st_memory packed |},
      i + 1).

(** [packList(values)]: the list buffer with its [_refs], and the host
    memory after all payloads were pinned. *)
Definition packList (S : BuiltStruct) (m : Memory)
    (values : list (gmap jsstring JsValue)) : result PackState :=
  listBuffer ← newArrayBuffer (struct_size S * Z.of_nat (length values));
  '(st, _) ← foldM (packListItem S)
                   ({| st_view := listBuffer; st_allocated := [];
                       st_memory := m |}, 0)
                   values;
  Ok st.

(** [for (let i = 0; i < count; i++) out.push(unpack(bytes.slice(...)))],
    [count] turns from index [i] on. *)
Fixpoint unpackItems (S : BuiltStruct) (m : Memory) (bytes : list byte)
    (i : Z) (count : nat) : result (list JsObject) :=
  match count with
  | O => Ok []
  | Datatypes.S count' =>
      let start := i * struct_size S in
      item ← unpack H S m (Uint8Array_slice bytes start (start + struct_size S));
      items ← unpackItems S m bytes (i + 1) count';
      Ok (item :: items)
  end.

(** [unpackList(buffer, count)], for an integer [count]; a count that
    is not positive gives no turn of the loop. *)
Definition unpackList (S : BuiltStruct) (m : Memory) (buffer : list byte)
    (count : Z) : result (list JsObject) :=
  unpackItems S m buffer 0 (Z.to_nat count).

(** The calls of [pack] that [packList] makes, one after the other,
    each on the memory that the one before left. *)
Fixpoint packEach (S : BuiltStruct) (m : Memory)
    (values : list (gmap jsstring JsValue)) : result (list PackState) :=
  match values with
  | [] => Ok []
  | value :: rest =>
      packed ← pack H S m value;
      others ← packEach S (st_memory packed) rest;
      Ok (packed :: others)
  end.

(** [unpack] of one buffer after the other, on one host memory. *)
Fixpoint unpackEach (S : BuiltStruct) (m : Memory)
    (buffers : list (list byte)) : result (list JsObject) :=
  match buffers with
  | [] => Ok []
  | buffer :: rest =>
      item ← unpack H S m buffer;
      items ← unpackEach S m rest;
      Ok (item :: items)
  end.
End StructLists.

(** ** ffi.ts: the wrappers of Deno symbols *)

Definition isPointerType (type : NativeType) : bool :=
  match type with
  | T_ptr | T_pointer => true
  | _ => false
  end.

(** [for (let i = 0; i < args.length; i++)], from index [i] on. *)
Fixpoint pointerIndicesFrom (i : nat) (args : list NativeType) : list nat :=
  match args with
  | [] => []
  | type :: rest =>
      if isPointerType type then i :: pointerIndicesFrom (Datatypes.S i) rest
      else pointerIndicesFrom (Datatypes.S i) rest
  end.

Definition getPointerParameterIndices (symbol : CompatSymbolDefinition)
  : list nat :=
  let args :=
    match sym_parameters symbol with
    | Some ps => ps
    | None => default [] (sym_args symbol)
    end in
  pointerIndicesFrom 0 args.

(** A function of a native library: it is called with arguments on a
    host memory, which it may change. *)
Definition NativeSymbol (Memory : Type) : Type :=
  list JsValue -> Memory -> result (JsValue * Memory).

Section DenoWrappers.
Context {Memory : Type} (H : Host Memory).

(** One turn of the loop over [pointerIndices] inside a wrapper. *)
Definition convertArgument (acc : list JsValue * Memory) (pointerIndex : nat)
  : result (list JsValue * Memory) :=
  let '(convertedArgs, m) := acc in
  match convertedArgs !! pointerIndex with
  | Some (VBuf value) =>
      '(p, m') ← ptr H m value;
      Ok (<[pointerIndex := p]> convertedArgs, m')
  | _ => Ok (convertedArgs, m)
  end.

(** The wrapper that [wrapDenoSymbols] puts around a native symbol
    with pointer parameters. *)
Definition wrapSymbol (pointerIndices : list nat)
    (nativeSymbol : NativeSymbol Memory) : NativeSymbol Memory :=
  fun args m =>
    '(convertedArgs, m') ← foldM convertArgument (args, m) pointerIndices;
    nativeSymbol convertedArgs m'.

(** The body of the loop over [Object.entries(nativeSymbols)]. *)
Definition wrapEntry (symbols : CompatSymbolDefinitions)
    (wrapped : gmap jsstring (NativeSymbol Memory))
    (entry : jsstring * NativeSymbol Memory)
  : gmap jsstring (NativeSymbol Memory) :=
  let '(name, nativeSymbol) := entry in
  match Map_get name symbols with
  | None => <[name := nativeSymbol]> wrapped
  | Some definition =>
      let pointerIndices := getPointerParameterIndices definition in
      if Nat.eqb (length pointerIndices) 0
      then <[name := nativeSymbol]> wrapped
      else <[name := wrapSymbol pointerIndices nativeSymbol]> wrapped
  end.

Definition wrapDenoSymbols
    (nativeSymbols : list (jsstring * NativeSymbol Memory))
    (symbols : CompatSymbolDefinitions)
  : gmap jsstring (NativeSymbol Memory) :=
  foldl (wrapEntry symbols) ∅ nativeSymbols.
End DenoWrappers.

(** ** runtime.ts: platform and architecture *)

(** [globalThis.process] and [Deno.build], as far as
    [getRuntimePlatformArch] looks at them. *)
Record ProcessGlobal := {
  proc_platform : option jsstring;
  proc_arch : option jsstring;
}.

Record DenoBuild := {
  build_os : option jsstring;
  build_arch : option jsstring;
}.

Definition normalizePlatform (platform : jsstring) : jsstring :=
  if bool_decide (platform = str "windows") then str "win32" else platform.

Definition normalizeArch (arch : jsstring) : jsstring :=
  if bool_decide (arch = str "x86_64") then str "x64"
  else if bool_decide (arch = str "aarch64") then str "arm64"
  else arch.

(** A string property that is there and not empty, as [&&] tests it. *)
Definition truthyString (s : option jsstring) : option jsstring :=
  match s with
  | Some (c :: r) => Some (c :: r)
  | _ => None
  end.

(** [getRuntimePlatformArch()], given [getProcessGlobal()] and
    [getDenoGlobal()?.build]; [None] is its one error, "Unable to
    determine runtime platform and architecture." *)
Definition getRuntimePlatformArch (proc : option ProcessGlobal)
    (build : option DenoBuild) : option (jsstring * jsstring) :=
  match proc ≫= (fun p => truthyString (proc_platform p)),
        proc ≫= (fun p => truthyString (proc_arch p)) with
  | Some platform, Some arch =>
      Some (normalizePlatform platform, normalizeArch arch)
  | _, _ =>
      match build ≫= (fun b => truthyString (build_os b)),
            build ≫= (fun b => truthyString (build_arch b)) with
      | Some os, Some arch => Some (normalizePlatform os, normalizeArch arch)
      | _, _ => None
      end
  end.

(** ** Data of further examples *)

(** A struct of scalars only, and a value for it. *)
(** A struct with a field named [__proto__], and one in which the
    [unpackTransform] of that field returns a function. *)
Definition protoNamed : list FieldDef :=
  [ (str "__proto__", FPrimitive u8, None);
    (str "n", FPrimitive u8, None) ].

Definition functionBehind : list FieldDef :=
  [ (str "__proto__", FPrimitive u8,
     Some {| opt_optional := None; opt_default := VUndefined;
             opt_lengthOf := None; opt_packTransform := None;
             opt_unpackTransform := Some (fun _ => VObj (-6)) |});
    (str "name", FPrimitive u8, None) ].

Definition pixel : list FieldDef :=
  [ (str "x", FPrimitive u16, None);
    (str "y", FPrimitive i16, None);
    (str "on", FPrimitive bool_u8, None);
    (str "colour", FEnum (defineEnum colours None), None) ].

Definition pixelValue : gmap jsstring JsValue :=
  <[str "x" := VNum (NInt 3)]>
    (<[str "y" := VNum (NInt (-2))]>
       (<[str "on" := VBool true]>
          (<[str "colour" := VStr (str "green")]> ∅))).

(** The same value with [x] and [colour] left out. *)
Definition pixelUnset : gmap jsstring JsValue :=
  <[str "y" := VNum (NInt (-2))]> (<[str "on" := VBool true]> ∅).

Definition pixelNoX : gmap jsstring JsValue :=
  <[str "y" := VNum (NInt (-2))]>
    (<[str "on" := VBool true]>
       (<[str "colour" := VStr (str "green")]> ∅)).

(** The layout entries of [pixel] on a 64-bit host. *)
Definition xEntry : LayoutEntry :=
  {| name := str "x"; kind := primitive; type := u16; offset := 0;
     size := 2; optional := false; defaultValue := VUndefined;
     lengthOf := None; packTransform := None; unpackTransform := None;
     enumDef := None |}.

Definition yEntry : LayoutEntry :=
  {| name := str "y"; kind := primitive; type := i16; offset := 2;
     size := 2; optional := false; defaultValue := VUndefined;
     lengthOf := None; packTransform := None; unpackTransform := None;
     enumDef := None |}.

Definition onEntry : LayoutEntry :=
  {| name := str "on"; kind := primitive; type := bool_u8; offset := 4;
     size := 1; optional := false; defaultValue := VUndefined;
     lengthOf := None; packTransform := None; unpackTransform := None;
     enumDef := None |}.

Definition colourEntry : LayoutEntry :=
  {| name := str "colour"; kind := enum_kind; type := u32; offset := 8;
     size := 4; optional := false; defaultValue := VUndefined;
     lengthOf := None; packTransform := None; unpackTransform := None;
     enumDef := Some (defineEnum colours None) |}.

(** A buffer for [pixel] whose colour slot holds the number 7. *)
Definition undeclaredColour : list byte :=
  replicate 8 Byte.x00 ++ [Byte.x07; Byte.x00; Byte.x00; Byte.x00] ++
  replicate 4 Byte.x00.

(** The layout entries of [scenario] on a 64-bit host. *)
Definition idEntry : LayoutEntry :=
  {| name := str "id"; kind := primitive; type := u32; offset := 0;
     size := 4; optional := false; defaultValue := VUndefined;
     lengthOf := None; packTransform := None; unpackTransform := None;
     enumDef := None |}.

Definition scenarioNameEntry : LayoutEntry :=
  {| name := str "name"; kind := char_ptr; type := pointer; offset := 8;
     size := 8; optional := false; defaultValue := VUndefined;
     lengthOf := None; packTransform := None; unpackTransform := None;
     enumDef := None |}.

Definition tagsEntry : LayoutEntry :=
  {| name := str "tags"; kind := array; type := u32; offset := 16;
     size := 8; optional := false; defaultValue := VUndefined;
     lengthOf := None; packTransform := None; unpackTransform := None;
     enumDef := None |}.

Definition tagCountEntry : LayoutEntry :=
  {| name := str "tagCount"; kind := primitive; type := u32; offset := 24;
     size := 4; optional := false; defaultValue := VUndefined;
     lengthOf := Some (str "tags"); packTransform := None;
     unpackTransform := None; enumDef := None |}.

(** The value [{ nameLen: 99 }] for [nameAndLength]: no name. *)
Definition lengthOnly : gmap jsstring JsValue :=
  <[str "nameLen" := VNum (NInt 99)]> ∅.

(** A native function that returns the number of its arguments, and
    the definition [{ args: ["ptr", "u32"] }]. *)
Definition countArguments : NativeSymbol Sample.Memory :=
  fun args m => Ok (VNum (NInt (Z.of_nat (length args))), m).

Definition pointerAndLength : CompatSymbolDefinition :=
  legacyShape (Some [T_ptr; T_u32]) None None.

(** ** Strings that name their length field *)

(** The text that [pack] encodes for a string field. *)
Definition textOf {Memory : Type} (H : Host Memory)
    (input : gmap jsstring JsValue) (e : LayoutEntry) : jsstring :=
  let fieldValue := fieldValueOf H input e in
  if nullish fieldValue then [] else ToString (engine H) fieldValue.

(** A string that names its length field, after and before that
    field, and a value that gives both. *)
Definition lengthAfter : list FieldDef :=
  [ (str "name", FCharPtr, lengthOfOption (str "nameLen"));
    (str "nameLen", FPrimitive u32, None) ].

Definition lengthBefore : list FieldDef :=
  [ (str "nameLen", FPrimitive u32, None);
    (str "name", FCharPtr, lengthOfOption (str "nameLen")) ].

Definition namedString : LayoutEntry :=
  {| name := str "name"; kind := char_ptr; type := pointer; offset := 0;
     size := 8; optional := false; defaultValue := VUndefined;
     lengthOf := Some (str "nameLen"); packTransform := None;
     unpackTransform := None; enumDef := None |}.

Definition plainLength (at_offset : Z) : LayoutEntry :=
  {| name := str "nameLen"; kind := primitive; type := u32;
     offset := at_offset; size := 4; optional := false;
     defaultValue := VUndefined; lengthOf := None; packTransform := None;
     unpackTransform := None; enumDef := None |}.

(** The value [{ name: "hello" }]. *)
Definition helloValue : gmap jsstring JsValue :=
  <[str "name" := VStr (str "hello")]> ∅.

(** ** runtime.ts: stripANSI *)

(** Regular expressions, as far as [ANSI_PATTERN] uses them: character
    classes, sequences, alternatives and greedy quantifiers. *)
Inductive RegExp :=
| Chars (member : Z -> bool)
| Then (first second : RegExp)
| Or (one other : RegExp)
| Times (atom : RegExp) (min : nat) (max : option nat).

(** The state of a match is the input that is left; a continuation
    finishes the match from there or fails. *)
Definition Continuation : Type := list Z -> option (list Z).

(** RepeatMatcher of the language specification, for a greedy
    quantifier: no further turn when [max] is 0; a turn that matched
    the empty string is rejected once [min] is 0; the atom is tried
    before the continuation.  [fuel] bounds the number of turns. *)
Fixpoint repeatMatcher (m : list Z -> Continuation -> option (list Z))
    (fuel min : nat) (max : option nat) (x : list Z) (c : Continuation)
  : option (list Z) :=
  match max with
  | Some O => c x
  | _ =>
      match fuel with
      | O => None
      | Datatypes.S fuel' =>
          let d : Continuation := fun y =>
            if Nat.eqb min 0 && Nat.eqb (length y) (length x) then None
            else repeatMatcher m fuel' (Nat.pred min) (Nat.pred <$> max) y c in
          if negb (Nat.eqb min 0) then m x d
          else
            match m x d with
            | Some z => Some z
            | None => c x
            end
      end
  end.

(** The backtracking matcher: the left alternative first.  A
    quantifier takes at most [min] turns that match the empty string
    and at most one turn for each character that is left. *)
Fixpoint matcher (r : RegExp) (x : list Z) (c : Continuation)
  : option (list Z) :=
  match r with
  | Chars member =>
      match x with
      | ch :: y => if member ch then c y else None
      | [] => None
      end
  | Then first second => matcher first x (fun y => matcher second y c)
  | Or one other =>
      match matcher one x c with
      | Some z => Some z
      | None => matcher other x c
      end
  | Times atom min max =>
      repeatMatcher (matcher atom) (min + length x + 1) min max x c
  end.

(** [value.replace] with the empty string as replacement, for a global pattern that matches no
    empty string: the leftmost match is cut out, and the search goes
    on behind it.  [fuel] bounds the number of steps. *)
Fixpoint removeMatches (pattern : RegExp) (fuel : nat) (value : list Z)
  : list Z :=
  match fuel with
  | O => value
  | Datatypes.S fuel' =>
      match value with
      | [] => []
      | ch :: rest =>
          match matcher pattern value Some with
          | Some behind => removeMatches pattern fuel' behind
          | None => ch :: removeMatches pattern fuel' rest
          end
      end
  end.

Definition oneOf (chars : list Z) (ch : Z) : bool :=
  existsb (Z.eqb ch) chars.

Definition between (lo hi ch : Z) : bool := (lo <=? ch) && (ch <=? hi).

(** The class "\d". *)
Definition digit : Z -> bool := between 0x30 0x39.

(** The class "[\u001B\u009B]". *)
Definition introducer : Z -> bool := oneOf [0x1B; 0x9B].

(** The class "[[\]()#;?]": an opening or closing bracket or
    parenthesis, a hash, a semicolon or a question mark. *)
Definition prefixChar : Z -> bool :=
  oneOf [0x5B; 0x5D; 0x28; 0x29; 0x23; 0x3B; 0x3F].

(** The class "[\dA-PR-TZcf-nq-uy=><~]". *)
Definition finalChar (ch : Z) : bool :=
  digit ch || between 0x41 0x50 ch || between 0x52 0x54 ch ||
  oneOf [0x5A; 0x63] ch || between 0x66 0x6E ch || between 0x71 0x75 ch ||
  oneOf [0x79; 0x3D; 0x3E; 0x3C; 0x7E] ch.

(** The optional parameters: one to four digits, then any number of
    groups of a semicolon and at most four digits. *)
Definition parameters : RegExp :=
  Times (Then (Times (Chars digit) 1 (Some 4%nat))
              (Times (Then (Chars (oneOf [0x3B]))
                           (Times (Chars digit) 0 (Some 4%nat)))
                     0 None))
        0 (Some 1%nat).

(** Any characters but U+0007, then U+0007 or U+001B and a backslash. *)
Definition untilTerminator : RegExp :=
  Then (Times (Chars (fun ch => negb (ch =? 0x07))) 0 None)
       (Or (Chars (oneOf [0x07]))
           (Then (Chars (oneOf [0x1B])) (Chars (oneOf [0x5C])))).

(** The pattern has no [u] flag and so runs over UTF-16 code units;
    every character it names lies in the Basic Multilingual Plane and
    no match can end inside a surrogate pair, so it is run over the
    code points here. *)
Definition ANSI_PATTERN : RegExp :=
  Then (Chars introducer)
       (Then (Times (Chars prefixChar) 0 None)
             (Or (Then parameters (Chars finalChar)) untilTerminator)).

(** [stripANSI(value)], given [getBunGlobal()?.stripANSI]. *)
Definition stripANSI (bunStripAnsi : option (jsstring -> jsstring))
    (value : jsstring) : jsstring :=
  match bunStripAnsi with
  | Some strip => strip value
  | None => removeMatches ANSI_PATTERN (length value) value
  end.

(** A matcher that hands its continuation only input that is left of
    its own. *)
Definition onSuffix (m : list Z -> Continuation -> option (list Z)) : Prop :=
  forall x c z, m x c = Some z -> exists y, y `suffix_of` x /\ c y = Some z.

(** The parameters of a control sequence as the pattern reads them:
    groups of at most four digits, each behind a semicolon. *)
Definition digitGroup (group : list Z) : Prop :=
  Forall (fun ch => digit ch = true) group /\ (length group <= 4)%nat.

Definition laterGroups (groups : list (list Z)) : list Z :=
  concat (List.map (cons 0x3B) groups).

(* ===================================================================== *)
(** * Part II: properties *)
(* ===================================================================== *)

(** ** Layout: alignment *)

Lemma ToInt32_small z : - 2 ^ 31 <= z < 2 ^ 31 -> ToInt32 z = z.
Proof.
  intros Hz. unfold ToInt32.
  destruct (Z.ltb_spec (z mod 2 ^ 32) (2 ^ 31)) as [Hlt | Hge].
  - destruct (Z.neg_nonneg_cases z) as [Hneg | Hpos].
    + rewrite <- (Z.mod_add z 1 (2 ^ 32)) in Hlt by lia.
      rewrite Z.mod_small in Hlt by lia. lia.
    + apply Z.mod_small. lia.
  - destruct (Z.neg_nonneg_cases z) as [Hneg | Hpos].
    + rewrite <- (Z.mod_add z 1 (2 ^ 32)) by lia.
      rewrite Z.mod_small by lia. lia.
    + rewrite Z.mod_small in Hge by lia. lia.
Qed.

(** Masking with [~(2^k - 1)] clears the low [k] bits. *)
Lemma alignOffset_pow2 offset k :
  0 <= k < 31 ->
  alignOffset offset (2 ^ k) = ToInt32 (offset + 2 ^ k - 1) / 2 ^ k * 2 ^ k.
Proof.
  intros Hk. unfold alignOffset.
  assert (H1 : 0 < 2 ^ k) by (apply Z.pow_pos_nonneg; lia).
  assert (H2 : 2 ^ k < 2 ^ 31) by (apply Z.pow_lt_mono_r; lia).
  rewrite (ToInt32_small (2 ^ k - 1)) by lia.
  replace (2 ^ k - 1) with (Z.ones k) by (rewrite Z.ones_equiv; lia).
  rewrite <- Z.ldiff_land.
  rewrite Z.ldiff_ones_r by lia.
  rewrite Z.shiftl_mul_pow2, Z.shiftr_div_pow2 by lia. reflexivity.
Qed.

Lemma alignOffset_rem offset k :
  0 <= k < 31 -> Z.rem (alignOffset offset (2 ^ k)) (2 ^ k) = 0.
Proof.
  intros Hk. rewrite alignOffset_pow2 by lia.
  apply Z.rem_mul. apply Z.pow_nonzero; lia.
Qed.

Section LayoutFacts.
Context {Memory : Type} (H : Host Memory).

Lemma pointerSize_cases : pointerSize H = 4 \/ pointerSize H = 8.
Proof.
  unfold pointerSize, getPointerSize.
  repeat match goal with |- context [if ?b then _ else _] => destruct b end; auto.
Qed.

Lemma primitiveSizes_cases t :
  primitiveSizes H t = 1 \/ primitiveSizes H t = 2 \/
  primitiveSizes H t = 4 \/ primitiveSizes H t = 8.
Proof. destruct t; cbn; auto; destruct pointerSize_cases as [-> | ->]; auto. Qed.

(** The alignment of a slot of size 1, 2, 4 or 8. *)
Lemma slot_align (sz : Z) :
  sz = 1 \/ sz = 2 \/ sz = 4 \/ sz = 8 ->
  exists k, 0 <= k < 31 /\
    Z.max 1 (Z.min sz (pointerSize H)) = 2 ^ k /\
    Z.min sz (pointerSize H) = 2 ^ k.
Proof.
  intros Hsz.
  destruct pointerSize_cases as [-> | ->];
    destruct Hsz as [-> | [-> | [-> | ->]]];
    first [ exists 0; split; [lia | split; reflexivity]
          | exists 1; split; [lia | split; reflexivity]
          | exists 2; split; [lia | split; reflexivity]
          | exists 3; split; [lia | split; reflexivity] ].
Qed.

Lemma layoutField_aligned acc field :
  Forall (aligned H) acc.2 -> Forall (aligned H) (layoutField H acc field).2.
Proof.
  destruct acc as [o lay]. destruct field as [[nm rawType] rawOptions].
  intros Hall. unfold layoutField.
  assert (Hslot : forall sz, sz = 1 \/ sz = 2 \/ sz = 4 \/ sz = 8 ->
            Z.rem (alignOffset o (Z.max 1 (Z.min sz (pointerSize H))))
                  (Z.min sz (pointerSize H)) = 0).
  { intros sz Hsz. destruct (slot_align sz Hsz) as (k & Hk & -> & ->).
    apply alignOffset_rem; lia. }
  assert (Hps : pointerSize H = 1 \/ pointerSize H = 2 \/
                pointerSize H = 4 \/ pointerSize H = 8)
    by (destruct pointerSize_cases; auto).
  destruct rawType; cbn; apply Forall_app; split; try assumption;
    apply Forall_singleton; unfold aligned; cbn;
    apply Hslot; auto using primitiveSizes_cases.
Qed.

Lemma layout_fold_aligned fields acc :
  Forall (aligned H) acc.2 -> Forall (aligned H) (foldl (layoutField H) acc fields).2.
Proof.
  revert acc. induction fields as [| f fields IH]; intros acc Hacc; cbn.
  - assumption.
  - apply IH, layoutField_aligned, Hacc.
Qed.

(** C2. For every field list, every layout entry of [defineStruct] has
    its offset a multiple of min(size, pointer width), and the size of
    the struct is a multiple of the pointer width ([%] is the
    remainder of JavaScript, [Z.rem]). *)
Theorem C2_alignment_invariant (fields : list FieldDef)
    (reduce : option (gmap jsstring JsValue -> gmap jsstring JsValue)) :
  Forall (fun e => Z.rem (offset e) (Z.min (size e) (pointerSize H)) = 0)
         (layout (defineStruct H fields reduce))
  /\ Z.rem (struct_size (defineStruct H fields reduce)) (pointerSize H) = 0.
Proof.
  unfold defineStruct.
  pose proof (layout_fold_aligned fields (0, []) (Forall_nil_2 _)) as Hall.
  destruct (foldl (layoutField H) (0, []) fields) as [o lay]. cbn in *.
  split; [exact Hall |].
  destruct pointerSize_cases as [-> | ->].
  - apply (alignOffset_rem o 2); lia.
  - apply (alignOffset_rem o 3); lia.
Qed.
End LayoutFacts.

(** ** Layout: slots do not overlap *)

Lemma alignOffset_bounds offset k :
  0 <= k < 31 -> 0 <= offset -> offset + 2 ^ k - 1 < 2 ^ 31 ->
  offset <= alignOffset offset (2 ^ k) < offset + 2 ^ k.
Proof.
  intros Hk Ho Hno. rewrite alignOffset_pow2 by lia.
  assert (H1 : 0 < 2 ^ k) by (apply Z.pow_pos_nonneg; lia).
  rewrite ToInt32_small by lia.
  pose proof (Z.div_mod (offset + 2 ^ k - 1) (2 ^ k) ltac:(lia)) as Hdm.
  pose proof (Z.mod_pos_bound (offset + 2 ^ k - 1) (2 ^ k) H1) as Hmod.
  lia.
Qed.

Section LayoutOrder.
Context {Memory : Type} (H : Host Memory).

Lemma pointerSize_pow2 :
  exists k, 0 <= k < 31 /\ pointerSize H = 2 ^ k /\ 2 ^ k <= 8.
Proof.
  destruct (pointerSize_cases H) as [-> | ->];
    [exists 2 | exists 3]; split; try split; cbn; lia.
Qed.

Lemma layoutField_inOrder o lay field :
  0 <= o -> o + 16 < 2 ^ 31 -> inOrder H lay o ->
  let acc := layoutField H (o, lay) field in
  o <= acc.1 <= o + 16 /\ inOrder H acc.2 acc.1.
Proof.
  intros Ho Hno [Hin Hord].
  destruct field as [[nm rawType] rawOptions].
  assert (Hgen : forall knd ty sz enumD,
    (sz = 1 \/ sz = 2 \/ sz = 4 \/ sz = 8) ->
    wellSized H {| name := nm; kind := knd; type := ty;
                   offset := alignOffset o (Z.max 1 (Z.min sz (pointerSize H)));
                   size := sz;
                   optional := default false (opt_optional (default noOptions rawOptions));
                   defaultValue := opt_default (default noOptions rawOptions);
                   lengthOf := opt_lengthOf (default noOptions rawOptions);
                   packTransform := opt_packTransform (default noOptions rawOptions);
                   unpackTransform := opt_unpackTransform (default noOptions rawOptions);
                   enumDef := enumD |} ->
    let off := alignOffset o (Z.max 1 (Z.min sz (pointerSize H))) in
    let e := {| name := nm; kind := knd; type := ty; offset := off; size := sz;
                optional := default false (opt_optional (default noOptions rawOptions));
                defaultValue := opt_default (default noOptions rawOptions);
                lengthOf := opt_lengthOf (default noOptions rawOptions);
                packTransform := opt_packTransform (default noOptions rawOptions);
                unpackTransform := opt_unpackTransform (default noOptions rawOptions);
                enumDef := enumD |} in
    o <= off + sz <= o + 16 /\ inOrder H (lay ++ [e]) (off + sz)).
  { intros knd ty sz enumD Hsz Hws off e.
    destruct (slot_align H sz Hsz) as (k & Hk & Hmax & Hmin).
    assert (Hoff : o <= off < o + 2 ^ k).
    { unfold off. rewrite Hmax. apply alignOffset_bounds; lia. }
    assert (H2k : 2 ^ k <= sz) by (rewrite <- Hmin; lia).
    assert (Hsz8 : 0 < sz <= 8) by (destruct Hsz as [-> | [-> | [-> | ->]]]; lia).
    split; [lia |]. split.
    - intros i e0 Hi. apply lookup_app_Some in Hi as [Hi | [Hlen Hi]].
      + destruct (Hin i e0 Hi) as (? & ? & ?). repeat split; try lia; assumption.
      + apply list_lookup_singleton_Some in Hi as [_ <-]. cbn.
        repeat split; try lia; exact Hws.
    - intros j i e' e0 Hji Hj Hi.
      apply lookup_app_Some in Hi as [Hi | [Hlen Hi]].
      + assert (Hj' : lay !! j = Some e').
        { apply lookup_app_Some in Hj as [Hj | [Hlenj _]]; [exact Hj |].
          apply lookup_lt_Some in Hi. lia. }
        exact (Hord j i e' e0 Hji Hj' Hi).
      + apply list_lookup_singleton_Some in Hi as [Hidx <-]. cbn.
        assert (Hj' : lay !! j = Some e').
        { apply lookup_app_Some in Hj as [Hj | [Hlenj _]]; [exact Hj | lia]. }
        destruct (Hin j e' Hj') as (? & ? & ?). lia. }
  assert (Hps : pointerSize H = 1 \/ pointerSize H = 2 \/
                pointerSize H = 4 \/ pointerSize H = 8)
    by (destruct (pointerSize_cases H); auto).
  destruct rawType as [t | | t | d]; cbn.
  - apply Hgen; [apply primitiveSizes_cases | reflexivity].
  - apply Hgen; [exact Hps | reflexivity].
  - apply Hgen; [exact Hps | reflexivity].
  - apply Hgen; [apply primitiveSizes_cases | reflexivity].
Qed.

Lemma layoutField_length o lay field :
  length (layoutField H (o, lay) field).2 = S (length lay).
Proof.
  destruct field as [[nm rawType] rawOptions].
  destruct rawType; cbn; rewrite length_app; cbn; lia.
Qed.

Lemma layout_fold_inOrder fields o lay :
  0 <= o <= 16 * Z.of_nat (length lay) ->
  Z.of_nat (length lay + length fields) < 2 ^ 26 ->
  inOrder H lay o ->
  let acc := foldl (layoutField H) (o, lay) fields in
  0 <= acc.1 /\ acc.1 + 16 < 2 ^ 31 /\ inOrder H acc.2 acc.1.
Proof.
  revert o lay. induction fields as [| f fields IH]; intros o lay Ho Hcount Hin.
  - cbn in *. split; [lia | split; [lia | exact Hin]].
  - cbn [foldl]. cbn [length] in Hcount.
    pose proof (layoutField_inOrder o lay f ltac:(lia) ltac:(lia) Hin) as [Hstep Hin'].
    pose proof (layoutField_length o lay f) as Hlen.
    destruct (layoutField H (o, lay) f) as [o' lay']. cbn [fst snd] in *.
    apply IH; [lia | lia | exact Hin'].
Qed.

Lemma inOrder_weaken lay limit limit' :
  limit <= limit' -> inOrder H lay limit -> inOrder H lay limit'.
Proof.
  intros Hle [Hin Hord]. split; [| exact Hord].
  intros k e Hk. destruct (Hin k e Hk) as (? & ? & ?). repeat split; try lia; assumption.
Qed.

(** With fewer than 2^26 fields no offset leaves the 32-bit range, and
    the slots of [defineStruct] follow one another inside the struct. *)
Lemma defineStruct_inOrder fields reduce :
  Z.of_nat (length fields) < 2 ^ 26 ->
  inOrder H (layout (defineStruct H fields reduce))
          (struct_size (defineStruct H fields reduce))
  /\ 0 <= struct_size (defineStruct H fields reduce).
Proof.
  intros Hcount. unfold defineStruct.
  assert (Hnil : inOrder H [] 0).
  { split; intros; rewrite lookup_nil in *; discriminate. }
  pose proof (layout_fold_inOrder fields 0 [] ltac:(cbn; lia) ltac:(cbn; lia) Hnil)
    as (Ho & Hno & Hin).
  destruct (foldl (layoutField H) (0, []) fields) as [o lay]. cbn in *.
  destruct pointerSize_pow2 as (k & Hk & Hps & Hk8).
  pose proof (alignOffset_bounds o k Hk Ho ltac:(lia)) as Hb.
  rewrite <- Hps in Hb.
  split; [| lia]. apply (inOrder_weaken lay o); [lia | exact Hin].
Qed.
End LayoutOrder.

(** ** Enumerations *)

Lemma Map_get_set {K V} `{EqDecision K} (k k' : K) (v : V) (m : list (K * V)) :
  Map_get k (Map_set k' v m) = if decide (k' = k) then Some v else Map_get k m.
Proof.
  induction m as [| [k0 v0] m IH]; cbn.
  - reflexivity.
  - destruct (decide (k0 = k')) as [-> | Hne]; cbn.
    + destruct (decide (k' = k)); reflexivity.
    + rewrite IH. destruct (decide (k0 = k)) as [-> | ?].
      * destruct (decide (k' = k)); congruence.
      * reflexivity.
Qed.

(** The lookup of a name in the entries of an object. *)
Lemma Map_get_entry {K V} `{EqDecision K} (k : K) (v : V) (m : list (K * V)) :
  NoDup (m.*1) -> (k, v) ∈ m -> Map_get k m = Some v.
Proof.
  induction m as [| [k0 v0] m IH]; cbn; intros Hnd Hin.
  - inversion Hin.
  - apply NoDup_cons in Hnd as [Hk0 Hnd].
    apply elem_of_cons in Hin as [Heq | Hin].
    + injection Heq as <- <-. rewrite decide_True by reflexivity. reflexivity.
    + destruct (decide (k0 = k)) as [-> | Hne].
      * exfalso. apply Hk0. apply list_elem_of_fmap. exists (k, v). auto.
      * apply IH; assumption.
Qed.

Lemma Map_get_absent {K V} `{EqDecision K} (k : K) (m : list (K * V)) :
  k ∉ (m.*1) -> Map_get k m = None.
Proof.
  induction m as [| [k0 v0] m IH]; cbn; intros Hk.
  - reflexivity.
  - apply not_elem_of_cons in Hk as [Hne Hk].
    rewrite decide_False by congruence. apply IH, Hk.
Qed.

(** The reverse Map after the loop of [defineEnum]: the last entry with
    a given value decides. *)
Lemma reverse_fold_absent (v : number) (mapping : list (jsstring * number)) r :
  v ∉ (mapping.*2) ->
  Map_get v (foldl (fun reverse '(name, value) => Map_set value name reverse)
                   r mapping) = Map_get v r.
Proof.
  revert r. induction mapping as [| [n0 v0] mapping IH]; cbn; intros r Hv.
  - reflexivity.
  - apply not_elem_of_cons in Hv as [Hne Hv].
    rewrite IH by assumption. rewrite Map_get_set.
    rewrite decide_False by congruence. reflexivity.
Qed.

Lemma reverse_fold_last (v : number) (nm : jsstring) l1 l2 r :
  v ∉ (l2.*2) ->
  Map_get v (foldl (fun reverse '(name, value) => Map_set value name reverse)
                   r (l1 ++ (nm, v) :: l2)) = Some nm.
Proof.
  intros Hv. rewrite foldl_app. cbn.
  rewrite reverse_fold_absent by assumption.
  rewrite Map_get_set. rewrite decide_True by reflexivity. reflexivity.
Qed.




(** ** The FFI shim *)

Section ShimFacts.
Context {Memory : Type} (H : Host Memory).

(** C6, as amended.  On Deno, [toArrayBuffer] offsets the pointer when
    [byteOffset > 0] and the host has [UnsafePointer.offset]; in every
    other case, an unsupported positive offset included, it reads at the
    pointer as given and raises nothing of its own.  On Bun the three
    arguments go to the host's [toArrayBuffer] unchanged. *)
Theorem C6_toArrayBuffer_offset (m : Memory) (pointer : JsValue)
    (byteOffset : number) (byteLength : option number) :
  (forall d, detectRuntime H = Ok deno -> getDenoFFI H = Ok d ->
     toArrayBuffer H m pointer byteOffset byteLength =
       deno_UnsafePointerView d m
         (match UnsafePointer_offset (deno_UnsafePointer d) with
          | Some offset =>
              if num_gt0 byteOffset then offset pointer byteOffset else pointer
          | None => pointer
          end)
         (default (NInt 0) byteLength))
  /\ (forall ffi, detectRuntime H = Ok bun -> getBunFFI H = Ok ffi ->
        toArrayBuffer H m pointer byteOffset byteLength =
          bun_toArrayBuffer ffi m pointer byteOffset byteLength).
Proof.
  split.
  - intros d Hrt Hd. unfold toArrayBuffer. rewrite Hrt. cbn. rewrite Hd. cbn.
    destruct (UnsafePointer_offset (deno_UnsafePointer d));
      destruct (num_gt0 byteOffset); reflexivity.
  - intros ffi Hrt Hffi. unfold toArrayBuffer. rewrite Hrt. cbn.
    rewrite Hffi. reflexivity.
Qed.

(** C10.  [pointerToBigInt] of [null] and of [undefined] is [0n]; it
    fails with "Unsupported pointer value" exactly on a pointer that is
    not nullish, not a number, not a bigint, and that the host's
    [UnsafePointer.value] is absent for or maps to neither a bigint nor a
    number. *)
Theorem C10_pointerToBigInt_null :
  pointerToBigInt H VNull = Ok 0
  /\ pointerToBigInt H VUndefined = Ok 0
  /\ forall p,
       pointerToBigInt H p = Err UnsupportedPointer <->
       (nullish p = false
        /\ (forall n, p <> VNum n) /\ (forall z, p <> VBig z)
        /\ match denoPointerValue H with
           | Some pointerValue =>
               (forall n, pointerValue p <> VNum n) /\
               (forall z, pointerValue p <> VBig z)
           | None => True
           end).
Proof.
  split; [reflexivity |]. split; [reflexivity |].
  assert (Hnum : forall n, ToBigInt (engine H) (VNum n) <> Err UnsupportedPointer).
  { intros n. destruct n; cbn; congruence. }
  intros p. split.
  - intros Hp.
    assert (Hacc : pointerFromAccessor H p = Err UnsupportedPointer ->
              match denoPointerValue H with
              | Some pointerValue =>
                  (forall n, pointerValue p <> VNum n) /\
                  (forall z, pointerValue p <> VBig z)
              | None => True
              end).
    { unfold pointerFromAccessor. destruct (denoPointerValue H) as [f |]; [| auto].
      destruct (f p) eqn:Hf; intros Hr; split; congruence. }
    unfold pointerToBigInt in Hp.
    destruct p; cbn in Hp; try discriminate Hp;
      try (repeat split; try congruence; apply Hacc, Hp).
    exfalso. exact (Hnum _ Hp).
  - intros (Hnull & Hn & Hz & Hacc).
    assert (Hfrom : pointerFromAccessor H p = Err UnsupportedPointer).
    { unfold pointerFromAccessor. destruct (denoPointerValue H) as [f |]; [| reflexivity].
      destruct Hacc as [Hfn Hfz].
      destruct (f p) eqn:Hf; try reflexivity.
      - exfalso. exact (Hfn _ eq_refl).
      - exfalso. exact (Hfz _ eq_refl). }
    unfold pointerToBigInt.
    destruct p; cbn in *; try discriminate Hnull; try exact Hfrom.
    + exfalso. exact (Hn _ eq_refl).
    + exfalso. exact (Hz _ eq_refl).
Qed.

Local Abbreviation E := (engine H).

(** C9.  On the fallback path (no [Bun.stringWidth]), given what the
    Unicode tables say about the four code points involved: the width
    of "e" followed by U+0301 is 1, of U+1F642 is 2, of "A" is 1. *)
Theorem C9_fallback_display_width :
  getBunGlobal H ≫= Bun_stringWidth = None ->
  is_Mark E 0x65 = false -> is_Extended_Pictographic E 0x65 = false ->
  is_Mark E 0x301 = true ->
  is_Mark E 0x1F642 = false -> is_Extended_Pictographic E 0x1F642 = true ->
  is_Mark E 0x41 = false -> is_Extended_Pictographic E 0x41 = false ->
  stringWidth H [0x65; 0x301] = 1
  /\ stringWidth H [0x1F642] = 2
  /\ stringWidth H [0x41] = 1.
Proof.
  intros Hbun He1 He2 Hacute Hs1 Hs2 Ha1 Ha2.
  unfold stringWidth. rewrite Hbun. cbn [foldl].
  unfold getCharWidth.
  rewrite He1, He2, Hacute, Hs1, Hs2, Ha1, Ha2. cbn. auto.
Qed.
End ShimFacts.

Lemma C9_fallback_display_width_witness :
  stringWidth Sample.sampleBare [0x65; 0x301] = 1
  /\ stringWidth Sample.sampleBare [0x1F642] = 2
  /\ stringWidth Sample.sampleBare [0x41] = 1.
Proof.
  apply (C9_fallback_display_width Sample.sampleBare); reflexivity.
Defined.

Lemma C6_toArrayBuffer_offset_witness :
  toArrayBuffer (Sample.sampleDeno true) fourBytes (VObj 4096) (NInt 2)
                (Some (NInt 2)) = Ok [Byte.x0c; Byte.x0d]
  /\ toArrayBuffer Sample.sampleBun fourBytes (VNum (NInt 4096)) (NInt 2)
                   (Some (NInt 2)) = Ok [Byte.x0c; Byte.x0d].
Proof.
  destruct (C6_toArrayBuffer_offset (Sample.sampleDeno true) fourBytes
              (VObj 4096) (NInt 2) (Some (NInt 2))) as [Hdeno _].
  destruct (C6_toArrayBuffer_offset Sample.sampleBun fourBytes
              (VNum (NInt 4096)) (NInt 2) (Some (NInt 2))) as [_ Hbun].
  split.
  - rewrite (Hdeno _ eq_refl eq_refl). reflexivity.
  - rewrite (Hbun _ eq_refl eq_refl). reflexivity.
Defined.

(** C6 as stated fails: on a Deno without [UnsafePointer.offset] a
    positive offset raises nothing; the call returns the bytes at the
    pointer itself. *)
Lemma C6_unsupported_offset_is_ignored :
  UnsafePointer_offset (Sample.denoUnsafePointer false) = None
  /\ toArrayBuffer (Sample.sampleDeno false) fourBytes (VObj 4096) (NInt 2)
                   (Some (NInt 2)) = Ok [Byte.x0a; Byte.x0b].
Proof. split; reflexivity. Qed.

(** ** Symbol tables *)

Lemma toDenoType_unalias t : toDenoType (unalias t) = toDenoType t.
Proof. destruct t; reflexivity. Qed.

Lemma toDenoType_not_ptr t : toDenoType t <> str "ptr".
Proof. destruct t; vm_compute; discriminate. Qed.

Section SymbolTables.
Context (E : Engine).

Lemma bunEntry_shapes table out :
  foldl (bunEntry E) out (asLegacy table)
  = foldl (bunEntry E) out (asCanonical table).
Proof.
  revert out. induction table as [| [nm [[a r] nb]] table IH]; intros out.
  - reflexivity.
  - cbn. apply IH.
Qed.

Lemma denoEntry_shapes table out :
  foldl (denoEntry E) out (asLegacy table)
  = foldl (denoEntry E) out (asCanonical table).
Proof.
  revert out. induction table as [| [nm [[a r] nb]] table IH]; intros out.
  - reflexivity.
  - cbn. apply IH.
Qed.

Lemma denoEntry_alias nm a r nb out :
  denoEntry E out (nm, legacyShape a r nb) =
  denoEntry E out (nm, canonicalShape (List.map unalias <$> a) (unalias <$> r) nb).
Proof.
  cbn. f_equal. f_equal.
  - destruct a as [a |]; cbn; [| reflexivity].
    rewrite List.map_map. apply List.map_ext. intros t.
    symmetry. apply toDenoType_unalias.
  - destruct r as [r |]; cbn; [| reflexivity]. symmetry. apply toDenoType_unalias.
Qed.

Lemma denoEntry_alias_fold table out :
  foldl (denoEntry E) out (asLegacy table) =
  foldl (denoEntry E) out (asCanonical (unaliasTable table)).
Proof.
  revert out. induction table as [| [nm [[a r] nb]] table IH]; intros out.
  - reflexivity.
  - cbn [unaliasTable asLegacy asCanonical List.map foldl unaliasSymbol].
    rewrite denoEntry_alias. apply IH.
Qed.

Lemma denoEntry_no_ptr (symbols : CompatSymbolDefinitions)
    (out : gmap jsstring DenoSymbol) (nm : jsstring) (s : DenoSymbol) :
  (forall nm' s', out !! nm' = Some s' ->
     (str "ptr" ∉ ds_parameters s') /\ ds_result s' <> str "ptr") ->
  foldl (denoEntry E) out symbols !! nm = Some s ->
  (str "ptr" ∉ ds_parameters s) /\ ds_result s <> str "ptr".
Proof.
  revert out. induction symbols as [| [nm0 d0] symbols IH]; intros out Hout; cbn.
  - apply Hout.
  - apply IH. intros nm' s'. unfold assignEntry.
    destruct (inheritedSetter E nm0); [apply Hout |].
    rewrite lookup_insert.
    destruct (decide (nm0 = nm')) as [-> | Hne]; [| apply Hout].
    intros [= <-]. cbn. split.
    + intros Hin. apply list_elem_of_In, List.in_map_iff in Hin as (t & Ht & _).
      exact (toDenoType_not_ptr t Ht).
    + apply toDenoType_not_ptr.
Qed.

(** C7, as amended.  A table written in the legacy shape and the same
    table written in the canonical shape normalise to the same result,
    for Bun and for Deno.  For Deno the result is moreover the same
    when the canonical table says [pointer] where the legacy one says
    [ptr], and no type of it is spelled "ptr".  (For Bun the type names
    are kept as written.) *)
Theorem C7_symbol_shapes_agree (table : list (jsstring * LogicalSymbol)) :
  (forall runtime,
     normalizeSymbolsForRuntime E (asLegacy table) runtime =
     normalizeSymbolsForRuntime E (asCanonical table) runtime)
  /\ normalizeSymbolsForRuntime E (asLegacy table) deno =
     normalizeSymbolsForRuntime E (asCanonical (unaliasTable table)) deno
  /\ (forall nm s, toDenoSymbols E (asLegacy table) !! nm = Some s ->
        (str "ptr" ∉ ds_parameters s) /\ ds_result s <> str "ptr").
Proof.
  split; [| split].
  - intros [|]; cbn; f_equal.
    + apply bunEntry_shapes.
    + apply denoEntry_shapes.
  - cbn. f_equal. apply denoEntry_alias_fold.
  - intros nm s. apply denoEntry_no_ptr.
    intros nm' s'. rewrite lookup_empty. discriminate.
Qed.
End SymbolTables.

(** C7 as stated fails on Bun: the legacy definition with [ptr] keeps
    that spelling, so its result differs from that of the canonical
    definition with [pointer]. *)
Lemma C7_bun_keeps_ptr_alias :
  toBunSymbols Sample.sampleEngine (asLegacy writeSymbol) !! str "write"
    = Some {| bs_args := [T_ptr; T_u32]; bs_returns := T_void;
              bs_nonblocking := None |}
  /\ normalizeSymbolsForRuntime Sample.sampleEngine (asLegacy writeSymbol) bun <>
     normalizeSymbolsForRuntime Sample.sampleEngine
       (asCanonical (unaliasTable writeSymbol)) bun.
Proof.
  split.
  - vm_compute. reflexivity.
  - intros Heq.
    apply (f_equal (fun n => match n with
                             | BunSymbols t => t !! str "write"
                             | DenoSymbols _ => None
                             end)) in Heq.
    vm_compute in Heq. discriminate Heq.
Qed.

(** ** Plain objects *)

Lemma getProperty_plain (E : Engine) (o : gmap jsstring JsValue) (k : jsstring) :
  getProperty E (plainObject o) k = Ok (prop E o k).
Proof.
  unfold getProperty, prop, plainObject. cbn.
  destruct (o !! k); reflexivity.
Qed.

Lemma setProperty_plain (E : Engine) (o : gmap jsstring JsValue)
    (k : jsstring) (v : JsValue) :
  inheritedSetter E k = false ->
  setProperty E (plainObject o) k v = Ok (plainObject (<[k := v]> o)).
Proof.
  intros Hk. unfold setProperty, plainObject. cbn. rewrite Hk.
  destruct (o !! k); reflexivity.
Qed.

(** ** Views *)

Lemma rbind_Ok {A B} (r : result A) (f : A -> result B) (b : B) :
  r ≫= f = Ok b -> exists a, r = Ok a /\ f a = Ok b.
Proof. destruct r as [a | e]; cbn; [eauto | discriminate]. Qed.

Lemma view_set_inv view o bs view' :
  view_set view o bs = Ok view' ->
  0 <= o /\ o + Z.of_nat (length bs) <= Z.of_nat (length view) /\
  view' = take (Z.to_nat o) view ++ bs ++ drop (Z.to_nat o + length bs) view.
Proof.
  unfold view_set.
  destruct (Z.leb_spec 0 o); cbn; [| discriminate].
  destruct (Z.leb_spec (o + Z.of_nat (length bs)) (Z.of_nat (length view)));
    [| discriminate].
  intros [= <-]. auto.
Qed.

Lemma view_set_Ok view o bs :
  0 <= o -> o + Z.of_nat (length bs) <= Z.of_nat (length view) ->
  view_set view o bs =
    Ok (take (Z.to_nat o) view ++ bs ++ drop (Z.to_nat o + length bs) view).
Proof.
  intros Ho Hlen. unfold view_set.
  destruct (Z.leb_spec 0 o); [| lia].
  destruct (Z.leb_spec (o + Z.of_nat (length bs)) (Z.of_nat (length view)));
    [reflexivity | lia].
Qed.

Lemma view_set_length view o bs view' :
  view_set view o bs = Ok view' -> length view' = length view.
Proof.
  intros Hset. apply view_set_inv in Hset as (Ho & Hlen & ->).
  rewrite !length_app, length_take, length_drop. lia.
Qed.

Lemma view_get_inv view o n bs :
  view_get view o n = Ok bs ->
  0 <= o /\ o + Z.of_nat n <= Z.of_nat (length view) /\
  bs = take n (drop (Z.to_nat o) view).
Proof.
  unfold view_get.
  destruct (Z.leb_spec 0 o); cbn; [| discriminate].
  destruct (Z.leb_spec (o + Z.of_nat n) (Z.of_nat (length view)));
    [| discriminate].
  intros [= <-]. auto.
Qed.

Lemma view_get_Ok view o n :
  0 <= o -> o + Z.of_nat n <= Z.of_nat (length view) ->
  view_get view o n = Ok (take n (drop (Z.to_nat o) view)).
Proof.
  intros Ho Hlen. unfold view_get.
  destruct (Z.leb_spec 0 o); [| lia].
  destruct (Z.leb_spec (o + Z.of_nat n) (Z.of_nat (length view)));
    [reflexivity | lia].
Qed.

(** Reading back the range that was just written. *)
Lemma view_get_set_same view o bs view' :
  view_set view o bs = Ok view' -> view_get view' o (length bs) = Ok bs.
Proof.
  intros Hset. pose proof (view_set_length _ _ _ _ Hset) as Hlen.
  apply view_set_inv in Hset as (Ho & Hin & ->).
  rewrite view_get_Ok by lia. f_equal.
  rewrite drop_app_length'; [| rewrite length_take; lia].
  rewrite take_app_length. reflexivity.
Qed.

(** A write leaves every disjoint range as it was. *)
Lemma view_get_set_other view o bs view' o' n :
  view_set view o bs = Ok view' ->
  o' + Z.of_nat n <= o \/ o + Z.of_nat (length bs) <= o' ->
  view_get view' o' n = view_get view o' n.
Proof.
  intros Hset Hdisj. pose proof (view_set_length _ _ _ _ Hset) as Hlen.
  apply view_set_inv in Hset as (Ho & Hin & ->).
  unfold view_get. rewrite Hlen.
  destruct (Z.leb_spec 0 o'); cbn; [| reflexivity].
  destruct (Z.leb_spec (o' + Z.of_nat n) (Z.of_nat (length view)));
    [| reflexivity].
  f_equal. apply list_eq. intros i.
  rewrite !lookup_take, !lookup_drop.
  destruct (decide (i < n)%nat) as [Hi | Hi]; [| reflexivity].
  destruct Hdisj as [Hbefore | Hafter].
  - rewrite lookup_app_l by (rewrite length_take; lia).
    rewrite lookup_take. rewrite decide_True by lia. reflexivity.
  - rewrite lookup_app_r by (rewrite length_take; lia).
    rewrite lookup_app_r by (rewrite length_take; lia).
    rewrite length_take, lookup_drop. f_equal. lia.
Qed.

Lemma view_set_lookup view o bs view' (k : nat) :
  view_set view o bs = Ok view' ->
  (k < length bs)%nat -> view' !! (Z.to_nat o + k)%nat = bs !! k.
Proof.
  intros Hset Hk. apply view_set_inv in Hset as (Ho & Hin & ->).
  rewrite lookup_app_r by (rewrite length_take; lia).
  rewrite length_take.
  replace (Z.to_nat o + k - Z.to_nat o `min` length view)%nat with k by lia.
  apply lookup_app_l. assumption.
Qed.

Section ScalarFacts.
Context {Memory : Type} (H : Host Memory).
Local Abbreviation E := (engine H).

(** [writePrimitive] stores the little-endian bytes of the image. *)
Lemma writePrimitive_image view t o v :
  writePrimitive H view t o v =
    (x ← scalarImage H t v; view_set view o (le_split (widthOf H t) x)).
Proof.
  unfold widthOf.
  destruct t; cbn; try reflexivity.
  destruct (pointerToBigInt H v) as [p |]; cbn; [| reflexivity].
  destruct (pointerSize_cases H) as [-> | ->]; reflexivity.
Qed.

(** [readPrimitive] reads the bytes of the slot as a little-endian
    integer. *)
Lemma readPrimitive_image view t o :
  readPrimitive H view t o =
    (bs ← view_get view o (widthOf H t); Ok (valueOfImage H t (le_combine bs))).
Proof.
  unfold widthOf, readPrimitive.
  destruct t; cbn;
    try (destruct (pointerSize_cases H) as [-> | ->]; cbn);
    unfold getUint8, getUint16, getInt16, getUint32, getInt32, getBigUint64,
           getFloat32, getFloat64;
    repeat match goal with
    | |- context [Z.to_nat (Zpos ?p)] =>
        let n := eval vm_compute in (Z.to_nat (Zpos p)) in
        change (Z.to_nat (Zpos p)) with n
    end;
    match goal with
    | |- context [view_get ?v ?o ?n] => destruct (view_get v o n)
    end; reflexivity.
Qed.

Lemma widthOf_pos t : (0 < widthOf H t)%nat.
Proof.
  unfold widthOf. destruct t; cbn; try lia.
  destruct (pointerSize_cases H) as [-> | ->]; lia.
Qed.

Lemma widthOf_size t : Z.of_nat (widthOf H t) = primitiveSizes H t.
Proof.
  unfold widthOf. destruct t; cbn; try lia.
  destruct (pointerSize_cases H) as [-> | ->]; lia.
Qed.

Lemma readPrimitive_outside view t o :
  Z.of_nat (length view) < o + primitiveSizes H t ->
  readPrimitive H view t o = Err JsRangeError.
Proof.
  intros Hlen. rewrite readPrimitive_image. unfold view_get.
  rewrite widthOf_size.
  destruct (Z.leb_spec (o + primitiveSizes H t) (Z.of_nat (length view)));
    [lia |].
  rewrite andb_false_r. reflexivity.
Qed.

Lemma readPrimitive_inside view t o :
  0 <= o -> o + primitiveSizes H t <= Z.of_nat (length view) ->
  exists v, readPrimitive H view t o = Ok v.
Proof.
  intros Ho Hlen. rewrite readPrimitive_image.
  rewrite view_get_Ok by (rewrite ?widthOf_size; lia). cbn. eauto.
Qed.
End ScalarFacts.

(** Byte [k] of the little-endian bytes of [x] is bits 8k..8k+7 of
    [x]. *)
Lemma le_split_lookup (n k : nat) (x : Z) :
  (k < n)%nat ->
  le_split n x !! k = Some (byte.of_Z (Z.shiftr x (8 * Z.of_nat k))).
Proof.
  intros Hk. rewrite <- (nth_error_le_split k n x Hk).
  generalize (le_split n x). intros l. revert k Hk.
  induction l as [| b l IH]; intros [| k] Hk; cbn; auto.
  apply IH. lia.
Qed.

(** The bytes that a read takes are the bytes of the range. *)
Lemma view_get_lookup view o n bs (k : nat) :
  view_get view o n = Ok bs ->
  (k < n)%nat -> bs !! k = view !! (Z.to_nat o + k)%nat.
Proof.
  intros Hget Hk. apply view_get_inv in Hget as (Ho & Hin & ->).
  rewrite lookup_take, decide_True by exact Hk. apply lookup_drop.
Qed.

(** ** [pack]: what each turn of the loop writes *)

Lemma foldM_app {A B} (f : A -> B -> result A)
    (a : A) (l1 l2 : list B) :
  foldM f a (l1 ++ l2) =
  (a' ← foldM f a l1; foldM f a' l2).
Proof.
  revert a. induction l1 as [| b l1 IH]; intros a; cbn.
  - reflexivity.
  - destruct (f a b) as [a1 |]; cbn; [apply IH | reflexivity].
Qed.

Section PackFacts.
Context {Memory : Type} (H : Host Memory).
Local Abbreviation E := (engine H).

Lemma writePrimitive_length view t o v view' :
  writePrimitive H view t o v = Ok view' -> length view' = length view.
Proof.
  rewrite writePrimitive_image. intros Hw.
  apply rbind_Ok in Hw as (x & _ & Hset). exact (view_set_length _ _ _ _ Hset).
Qed.

Lemma writePrimitive_frame view t o v view' o' n :
  writePrimitive H view t o v = Ok view' ->
  o' + Z.of_nat n <= o \/ o + primitiveSizes H t <= o' ->
  view_get view' o' n = view_get view o' n.
Proof.
  rewrite writePrimitive_image. intros Hw Hdisj.
  apply rbind_Ok in Hw as (x & _ & Hset).
  apply (view_get_set_other _ _ _ _ _ _ Hset).
  rewrite length_le_split, widthOf_size. exact Hdisj.
Qed.

(** The slot after the write: the image of the value. *)
Lemma writePrimitive_slot view t o v view' :
  writePrimitive H view t o v = Ok view' ->
  exists x, scalarImage H t v = Ok x /\
            view_get view' o (widthOf H t) = Ok (le_split (widthOf H t) x).
Proof.
  rewrite writePrimitive_image. intros Hw.
  apply rbind_Ok in Hw as (x & Hx & Hset). exists x. split; [exact Hx |].
  pose proof (view_get_set_same _ _ _ _ Hset) as Hget.
  rewrite length_le_split in Hget. exact Hget.
Qed.

Lemma writeLengthField_none S e view n :
  lengthOf_truthy e = None -> writeLengthField H S e view n = Ok view.
Proof. intros Hl. unfold writeLengthField. rewrite Hl. reflexivity. Qed.

(** What one turn of the loop does to the buffer, for a field whose slot
    is well sized and that writes no length field of its own: the
    length is kept, and so is every range outside the field's slot. *)
Lemma packField_frame S input st e st' :
  wellSized H e ->
  (kind e = char_ptr \/ kind e = array -> lengthOf_truthy e = None) ->
  packField H S input st e = Ok st' ->
  length (st_view st') = length (st_view st)
  /\ forall o' n, o' + Z.of_nat n <= offset e \/ offset e + size e <= o' ->
       view_get (st_view st') o' n = view_get (st_view st) o' n.
Proof.
  intros Hws Hlen Hp. unfold packField, wellSized in *.
  destruct (kind e) eqn:Hk.
  - apply rbind_Ok in Hp as (view & Hw & [= <-]). cbn. split.
    + exact (writePrimitive_length _ _ _ _ _ Hw).
    + intros o' n Hd. apply (writePrimitive_frame _ _ _ _ _ _ _ Hw). lia.
  - apply rbind_Ok in Hp as (st1 & Hfirst & Hp).
    rewrite writeLengthField_none in Hp by auto.
    cbn in Hp. injection Hp as <-. cbn.
    assert (Hw : exists p, writePrimitive H (st_view st) pointer (offset e) p
                           = Ok (st_view st1)).
    { destruct (Nat.eqb _ 0).
      - apply rbind_Ok in Hfirst as (view & Hw & [= <-]). eauto.
      - apply rbind_Ok in Hfirst as ([p m'] & _ & Hfirst).
        apply rbind_Ok in Hfirst as (view & Hw & [= <-]). eauto. }
    destruct Hw as [p Hw]. split.
    + exact (writePrimitive_length _ _ _ _ _ Hw).
    + intros o' n Hd. apply (writePrimitive_frame _ _ _ _ _ _ _ Hw). cbn. lia.
  - destruct (enumDef e) as [d |]; [| discriminate Hp].
    apply rbind_Ok in Hp as (n & _ & Hp).
    apply rbind_Ok in Hp as (view & Hw & [= <-]). cbn. split.
    + exact (writePrimitive_length _ _ _ _ _ Hw).
    + intros o' n' Hd. apply (writePrimitive_frame _ _ _ _ _ _ _ Hw). lia.
  - apply rbind_Ok in Hp as (arr0 & _ & Hp).
    apply rbind_Ok in Hp as (arr1 & _ & Hp).
    apply rbind_Ok in Hp as (st1 & Hfirst & Hp).
    rewrite writeLengthField_none in Hp by auto.
    cbn in Hp. injection Hp as <-. cbn.
    assert (Hw : exists p, writePrimitive H (st_view st) pointer (offset e) p
                           = Ok (st_view st1)).
    { destruct (Nat.eqb _ 0).
      - apply rbind_Ok in Hfirst as (view & Hw & [= <-]). eauto.
      - apply rbind_Ok in Hfirst as ([p m'] & _ & Hfirst).
        apply rbind_Ok in Hfirst as (view & Hw & [= <-]). eauto. }
    destruct Hw as [p Hw]. split.
    + exact (writePrimitive_length _ _ _ _ _ Hw).
    + intros o' n Hd. apply (writePrimitive_frame _ _ _ _ _ _ _ Hw). cbn. lia.
Qed.

(** The same over the rest of the loop. *)
Lemma packFields_frame S input l st st' o' n :
  (forall e, e ∈ l ->
     wellSized H e /\
     (kind e = char_ptr \/ kind e = array -> lengthOf_truthy e = None) /\
     (o' + Z.of_nat n <= offset e \/ offset e + size e <= o')) ->
  foldM (packField H S input) st l = Ok st' ->
  length (st_view st') = length (st_view st)
  /\ view_get (st_view st') o' n = view_get (st_view st) o' n.
Proof.
  revert st. induction l as [| e l IH]; intros st Hall Hf; cbn in Hf.
  - injection Hf as <-. auto.
  - apply rbind_Ok in Hf as (st1 & Hstep & Hf).
    destruct (Hall e ltac:(left)) as (Hws & Hlen & Hd).
    destruct (packField_frame S input st e st1 Hws Hlen Hstep) as [Hl1 Hfr1].
    destruct (IH st1) as [Hl2 Hfr2]; [| exact Hf |].
    + intros e' He'. apply Hall. right. exact He'.
    + split; [congruence |]. rewrite Hfr2. apply Hfr1. exact Hd.
Qed.
End PackFacts.

(** ** Scalars that fit their type *)

Lemma signed_mod (n : nat) (z : Z) :
  (0 < n)%nat ->
  - 2 ^ (8 * Z.of_nat n - 1) <= z < 2 ^ (8 * Z.of_nat n - 1) ->
  signed n (z mod 2 ^ (8 * Z.of_nat n)) = z.
Proof.
  intros Hn Hz. unfold signed.
  set (w := 8 * Z.of_nat n) in *.
  assert (Hw : 2 ^ w = 2 * 2 ^ (w - 1)).
  { rewrite <- Z.pow_succ_r by lia. f_equal. lia. }
  assert (Hpos : 0 < 2 ^ (w - 1)) by (apply Z.pow_pos_nonneg; lia).
  destruct (Z.neg_nonneg_cases z) as [Hneg | Hnn].
  - rewrite <- (Z.mod_add z 1 (2 ^ w)) by lia.
    rewrite Z.mod_small by lia.
    destruct (Z.ltb_spec (z + 1 * 2 ^ w) (2 ^ (w - 1))); lia.
  - rewrite Z.mod_small by lia.
    destruct (Z.ltb_spec z (2 ^ (w - 1))); lia.
Qed.

(** Evaluate the closed powers of two of the goal and of the hypotheses. *)
Ltac eval_pow2 :=
  repeat match goal with
  | |- context [2 ^ ?e] =>
      let v := eval vm_compute in (2 ^ e) in
      progress change (2 ^ e) with v
  | Hyp : context [2 ^ ?e] |- _ =>
      let v := eval vm_compute in (2 ^ e) in
      progress change (2 ^ e) with v in Hyp
  end.

Section FitFacts.
Context {Memory : Type} (H : Host Memory).
Local Abbreviation E := (engine H).

Lemma Number_of_bigint_small z : Z.abs z < 2 ^ 53 -> Number_of_bigint z = NInt z.
Proof.
  intros Hz. unfold Number_of_bigint.
  destruct (Z.ltb_spec (Z.abs z) (2 ^ 53)); [reflexivity | lia].
Qed.

(** A value that fits is stored as an image from which it is read back. *)
Lemma fits_image t v :
  fits H t v = true ->
  exists x, scalarImage H t v = Ok x /\
            valueOfImage H t (x mod 2 ^ (Z.of_nat (widthOf H t) * 8)) = v.
Proof.
  unfold widthOf.
  destruct t, v as [| | b | [z | | |] | z | | | |]; cbn; try discriminate;
    intros Hfit;
    try (apply andb_prop in Hfit as [Hlo Hhi];
         apply Z.leb_le in Hlo; apply Z.ltb_lt in Hhi).
  - exists z. split; [reflexivity |]. rewrite Z.mod_small by (eval_pow2; lia). reflexivity.
  - exists (if b then 1 else 0). split; [reflexivity |]. destruct b; reflexivity.
  - exists (if b then 1 else 0). split; [reflexivity |]. destruct b; reflexivity.
  - exists z. split; [reflexivity |]. rewrite Z.mod_small by (eval_pow2; lia). reflexivity.
  - exists z. split; [reflexivity |].
    change (Z.of_nat (Z.to_nat 2) * 8) with (8 * Z.of_nat 2).
    rewrite (signed_mod 2 z) by (eval_pow2; lia). reflexivity.
  - exists z. split; [reflexivity |]. rewrite Z.mod_small by (eval_pow2; lia). reflexivity.
  - exists z. split; [reflexivity |].
    change (Z.of_nat (Z.to_nat 4) * 8) with (8 * Z.of_nat 4).
    rewrite (signed_mod 4 z) by (eval_pow2; lia). reflexivity.
  - exists z. split; [reflexivity |]. rewrite Z.mod_small by (eval_pow2; lia). reflexivity.
  - apply bool_decide_eq_true in Hfit. eexists. split; [reflexivity |].
    cbn. f_equal. exact Hfit.
  - apply bool_decide_eq_true in Hfit. eexists. split; [reflexivity |].
    cbn. f_equal. exact Hfit.
  - apply bool_decide_eq_true in Hfit. eexists. split; [reflexivity |].
    cbn. f_equal. exact Hfit.
  - apply bool_decide_eq_true in Hfit. eexists. split; [reflexivity |].
    cbn. f_equal. exact Hfit.
  - apply bool_decide_eq_true in Hfit. eexists. split; [reflexivity |].
    cbn. f_equal. exact Hfit.
  - apply bool_decide_eq_true in Hfit. eexists. split; [reflexivity |].
    cbn. f_equal. exact Hfit.
  - apply bool_decide_eq_true in Hfit. eexists. split; [reflexivity |].
    cbn. f_equal. exact Hfit.
  - apply bool_decide_eq_true in Hfit. eexists. split; [reflexivity |].
    cbn. f_equal. exact Hfit.
  - destruct (pointerSize_cases H) as [Hps | Hps]; rewrite Hps in *; cbn in *.
    + exists z. split.
      * rewrite Number_of_bigint_small by (eval_pow2; lia). reflexivity.
      * rewrite Z.mod_small by (eval_pow2; lia). reflexivity.
    + exists z. split; [reflexivity |].
      rewrite Z.mod_small by (eval_pow2; lia). reflexivity.
Qed.

(** The slot that holds the image of a fitting value reads as the value. *)
Lemma readPrimitive_fits view t o v x :
  fits H t v = true -> scalarImage H t v = Ok x ->
  view_get view o (widthOf H t) = Ok (le_split (widthOf H t) x) ->
  readPrimitive H view t o = Ok v.
Proof.
  intros Hfit Hx Hget. destruct (fits_image t v Hfit) as (x' & Hx' & Hv).
  rewrite Hx in Hx'. injection Hx' as <-.
  rewrite readPrimitive_image, Hget. cbn. rewrite le_combine_split, Hv. reflexivity.
Qed.
End FitFacts.

(** ** [pack]: the slot of one field in the packed buffer *)

Section PackAt.
Context {Memory : Type} (H : Host Memory).
Local Abbreviation E := (engine H).

Lemma newArrayBuffer_length n buf :
  newArrayBuffer n = Ok buf -> Z.of_nat (length buf) = n.
Proof.
  unfold newArrayBuffer. destruct (Z.ltb_spec n 0); [discriminate |].
  intros [= <-]. rewrite length_replicate. lia.
Qed.

Lemma lengthOnScalarsOnly_spec S :
  lengthOnScalarsOnly S = true ->
  forall e, e ∈ layout S -> kind e = char_ptr \/ kind e = array ->
    lengthOf_truthy e = None.
Proof.
  unfold lengthOnScalarsOnly. rewrite forallb_forall.
  intros Hall e He Hk. apply list_elem_of_In in He. specialize (Hall e He).
  destruct Hk as [Hk | Hk]; rewrite Hk in Hall;
    destruct (lengthOf_truthy e); [discriminate | reflexivity | discriminate | reflexivity].
Qed.

(** The turn of the loop that packs the field at index [k], and the
    rest of the loop, which leaves its slot alone. *)
Lemma pack_at fields reduce m value st k e :
  Z.of_nat (length fields) < 2 ^ 26 ->
  lengthOnScalarsOnly (defineStruct H fields reduce) = true ->
  pack H (defineStruct H fields reduce) m value = Ok st ->
  layout (defineStruct H fields reduce) !! k = Some e ->
  exists st1 st2,
    packField H (defineStruct H fields reduce)
              (packInput (defineStruct H fields reduce) value) st1 e = Ok st2
    /\ foldM (packField H (defineStruct H fields reduce)
                (packInput (defineStruct H fields reduce) value))
             st2 (drop (Datatypes.S k) (layout (defineStruct H fields reduce)))
       = Ok st
    /\ Z.of_nat (length (st_view st1)) = struct_size (defineStruct H fields reduce)
    /\ length (st_view st) = length (st_view st1)
    /\ view_get (st_view st) (offset e) (Z.to_nat (size e))
       = view_get (st_view st2) (offset e) (Z.to_nat (size e)).
Proof.
  intros Hcount Hscal Hpack Hk.
  destruct (defineStruct_inOrder H fields reduce Hcount) as [[Hin Hord] Hsize].
  set (S := defineStruct H fields reduce) in *.
  unfold pack in Hpack.
  apply rbind_Ok in Hpack as (buffer & Hbuf & Hfold).
  apply newArrayBuffer_length in Hbuf.
  rewrite <- (take_drop_middle _ _ _ Hk) in Hfold.
  rewrite foldM_app in Hfold.
  apply rbind_Ok in Hfold as (st1 & Hbefore & Hfold).
  cbn [foldM] in Hfold.
  apply rbind_Ok in Hfold as (st2 & Hstep & Hafter).
  assert (Hwf : forall j e', layout S !! j = Some e' ->
            wellSized H e' /\
            (kind e' = char_ptr \/ kind e' = array -> lengthOf_truthy e' = None)).
  { intros j e' Hj. split; [apply (Hin j e' Hj) |].
    apply (lengthOnScalarsOnly_spec S Hscal). apply list_elem_of_lookup. eauto. }
  assert (Hpre : forall e', e' ∈ take k (layout S) ->
            wellSized H e' /\
            (kind e' = char_ptr \/ kind e' = array -> lengthOf_truthy e' = None) /\
            (0 + Z.of_nat 0 <= offset e' \/ offset e' + size e' <= 0)).
  { intros e' He'. apply list_elem_of_lookup in He' as [j Hj].
    apply lookup_take_Some in Hj as [Hj Hjk].
    destruct (Hwf j e' Hj) as [Hws Hl]. destruct (Hin j e' Hj) as (? & ? & ?).
    split; [exact Hws | split; [exact Hl | left; cbn; lia]]. }
  destruct (packFields_frame H S _ _ _ _ _ _ Hpre Hbefore) as [Hlen1 _].
  cbn [st_view] in Hlen1.
  destruct (Hwf k e Hk) as [Hws Hl].
  destruct (packField_frame H S _ st1 e st2 Hws Hl Hstep) as [Hlen2 _].
  assert (Hpost : forall e', e' ∈ drop (Datatypes.S k) (layout S) ->
            wellSized H e' /\
            (kind e' = char_ptr \/ kind e' = array -> lengthOf_truthy e' = None) /\
            (offset e + Z.of_nat (Z.to_nat (size e)) <= offset e' \/
             offset e' + size e' <= offset e)).
  { intros e' He'. apply list_elem_of_lookup in He' as [j Hj].
    rewrite lookup_drop in Hj.
    destruct (Hwf _ e' Hj) as [Hws' Hl'].
    split; [exact Hws' | split; [exact Hl' |]].
    left. destruct (Hin k e Hk) as (? & ? & ?).
    pose proof (Hord k (Datatypes.S k + j)%nat e e' ltac:(lia) Hk Hj).
    assert (0 <= size e).
    { unfold wellSized in *. destruct (kind e);
        first [ pose proof (primitiveSizes_cases H (type e)); lia
              | pose proof (pointerSize_cases H); lia ]. }
    lia. }
  pose proof (packFields_frame H S _ _ _ _ _ _ Hpost Hafter) as Hrest.
  destruct Hrest as [Hlen3 Hslot].
  exists st1, st2.
  split; [exact Hstep |]. split; [exact Hafter |].
  split; [rewrite Hlen1; exact Hbuf |].
  split; [congruence | exact Hslot].
Qed.
End PackAt.

Section DerivedLength.
Context {Memory : Type} (H : Host Memory).
Local Abbreviation E := (engine H).

Lemma fieldValueOf_derived input e source s :
  kind e = primitive \/ kind e = enum_kind ->
  lengthOf_truthy e = Some source ->
  prop E input source = VStr s ->
  fieldValueOf H input e = VNum (NInt (Z.of_nat (length (utf8_encode E s)))).
Proof.
  intros Hk Hl Hs. unfold fieldValueOf. rewrite Hl, Hs.
  destruct Hk as [-> | ->]; reflexivity.
Qed.

(** C3, as amended.  In a struct whose string and array fields carry no
    [lengthOf] of their own (and of fewer than 2^26 fields), a scalar or
    enum field declared [lengthOf] a field whose given value is a string
    of N UTF-8 bytes is packed from N, whatever value the caller gave
    for it: its slot holds the image of N in the type of the field
    (for an integer type of w bytes, N modulo 2^8w), and when N fits
    that type the field reads back as N. *)
Theorem C3_derived_length_written (fields : list FieldDef)
    (reduce : option (gmap jsstring JsValue -> gmap jsstring JsValue))
    (m : Memory) (value : gmap jsstring JsValue) (st : PackState)
    (k : nat) (L : LayoutEntry) (source s : jsstring) :
  Z.of_nat (length fields) < 2 ^ 26 ->
  lengthOnScalarsOnly (defineStruct H fields reduce) = true ->
  layout (defineStruct H fields reduce) !! k = Some L ->
  kind L = primitive \/ kind L = enum_kind ->
  lengthOf_truthy L = Some source ->
  prop E (packInput (defineStruct H fields reduce) value) source = VStr s ->
  pack H (defineStruct H fields reduce) m value = Ok st ->
  exists x,
    scalarImage H (type L) (VNum (NInt (Z.of_nat (length (utf8_encode E s)))))
      = Ok x
    /\ view_get (st_view st) (offset L) (widthOf H (type L))
       = Ok (le_split (widthOf H (type L)) x)
    /\ (fits H (type L) (VNum (NInt (Z.of_nat (length (utf8_encode E s))))) = true ->
        readPrimitive H (st_view st) (type L) (offset L)
          = Ok (VNum (NInt (Z.of_nat (length (utf8_encode E s)))))).
Proof.
  intros Hcount Hscal Hk Hkind Hl Hs Hpack.
  destruct (pack_at H fields reduce m value st k L Hcount Hscal Hpack Hk)
    as (st1 & st2 & Hstep & _ & _ & _ & Hslot).
  destruct (defineStruct_inOrder H fields reduce Hcount) as [[Hin _] _].
  destruct (Hin k L Hk) as (_ & _ & Hws).
  set (S := defineStruct H fields reduce) in *.
  set (N := Z.of_nat (length (utf8_encode E s))) in *.
  assert (Hw : writePrimitive H (st_view st1) (type L) (offset L) (VNum (NInt N))
               = Ok (st_view st2)).
  { unfold packField in Hstep.
    rewrite (fieldValueOf_derived _ L source s Hkind Hl Hs) in Hstep.
    fold N in Hstep.
    destruct Hkind as [Hkd | Hkd]; rewrite Hkd in Hstep.
    - apply rbind_Ok in Hstep as (view & Hw & [= <-]). exact Hw.
    - destruct (enumDef L) as [d |]; [| discriminate Hstep].
      cbn in Hstep. apply rbind_Ok in Hstep as (view & Hw & [= <-]). exact Hw. }
  assert (Hwidth : Z.to_nat (size L) = widthOf H (type L)).
  { unfold wellSized in Hws.
    destruct Hkind as [Hkd | Hkd]; rewrite Hkd in Hws; rewrite Hws; reflexivity. }
  rewrite Hwidth in Hslot.
  destruct (writePrimitive_slot H _ _ _ _ _ Hw) as (x & Hx & Hget).
  exists x. split; [exact Hx |]. rewrite Hslot.
  split; [exact Hget |].
  intros Hfit. apply (readPrimitive_fits H _ _ _ _ x Hfit Hx).
  rewrite Hslot. exact Hget.
Qed.
End DerivedLength.

Lemma C3_derived_length_written_witness :
  exists st,
    pack Sample.sampleBun (defineStruct Sample.sampleBun nameAndLength None)
         [] abcValue = Ok st
    /\ readPrimitive Sample.sampleBun (st_view st) u32 8 = Ok (VNum (NInt 3)).
Proof.
  destruct (pack Sample.sampleBun
              (defineStruct Sample.sampleBun nameAndLength None) [] abcValue)
    as [st |] eqn:Hpack; [| vm_compute in Hpack; discriminate Hpack].
  exists st. split; [reflexivity |].
  destruct (C3_derived_length_written Sample.sampleBun nameAndLength None []
              abcValue st 1 nameLenEntry (str "name") (str "abc"))
    as (x & _ & _ & Hread).
  - vm_compute. reflexivity.
  - vm_compute. reflexivity.
  - reflexivity.
  - left. reflexivity.
  - reflexivity.
  - vm_compute. reflexivity.
  - exact Hpack.
  - apply Hread. vm_compute. reflexivity.
Defined.

(** C3 as stated fails: the string has 256 bytes, its length field is a
    u8, and the field is packed as 0. *)
Lemma C3_length_wraps_in_narrow_field :
  length (utf8_encode Sample.sampleEngine (replicate 256 97)) = 256%nat
  /\ (st ← pack Sample.sampleBun (defineStruct Sample.sampleBun shortText None)
               [] longValue;
      readPrimitive Sample.sampleBun (st_view st) u8 8) = Ok (VNum (NInt 0)).
Proof. split; vm_compute; reflexivity. Qed.

(** ** [pack]: pointers and the host memory *)

Section PackMemory.
Context {Memory : Type} (H : Host Memory).
Local Abbreviation E := (engine H).

Lemma readPrimitive_same_slot view1 view2 t o :
  view_get view1 o (widthOf H t) = view_get view2 o (widthOf H t) ->
  readPrimitive H view1 t o = readPrimitive H view2 t o.
Proof. intros Heq. rewrite !readPrimitive_image, Heq. reflexivity. Qed.

Lemma widthOf_pointer : Z.of_nat (widthOf H pointer) = pointerSize H.
Proof. exact (widthOf_size H pointer). Qed.

(** The pointer slot after the address [a] was written to it. *)
Lemma pointer_slot_reads view o p a view' :
  pointerToBigInt H p = Ok a -> 0 <= a < 2 ^ (8 * pointerSize H) ->
  writePrimitive H view pointer o p = Ok view' ->
  readPrimitive H view' pointer o = Ok (VBig a).
Proof.
  intros Hp Ha Hw.
  destruct (writePrimitive_slot H _ _ _ _ _ Hw) as (x & Hx & Hget).
  assert (Hxa : x = a).
  { cbn in Hx. rewrite Hp in Hx. cbn in Hx. injection Hx as <-.
    destruct (pointerSize_cases H) as [Hps | Hps]; rewrite Hps in *; cbn.
    - rewrite Number_of_bigint_small by (eval_pow2; lia). reflexivity.
    - reflexivity. }
  subst x. rewrite readPrimitive_image, Hget. cbn.
  rewrite le_combine_split, widthOf_pointer.
  rewrite Z.mod_small; [reflexivity |].
  replace (pointerSize H * 8) with (8 * pointerSize H) by lia. exact Ha.
Qed.

Lemma pointerToBigInt_zero : pointerToBigInt H (VNum (NInt 0)) = Ok 0.
Proof. reflexivity. Qed.

Lemma pow2_pointer_pos : 1 < 2 ^ (8 * pointerSize H).
Proof.
  destruct (pointerSize_cases H) as [-> | ->]; eval_pow2; lia.
Qed.

Context (Hhost : pinsFaithfully H).

(** Pinning the payload of a field leaves what was readable readable. *)
Lemma packField_memory S input st e st' a bs :
  packField H S input st e = Ok st' ->
  Readable H (st_memory st) a bs -> Readable H (st_memory st') a bs.
Proof.
  intros Hp Hr. unfold packField in Hp.
  destruct (kind e).
  - apply rbind_Ok in Hp as (view & _ & [= <-]). exact Hr.
  - apply rbind_Ok in Hp as (st1 & Hfirst & Hp).
    apply rbind_Ok in Hp as (view & _ & [= <-]). cbn.
    destruct (Nat.eqb _ 0).
    + apply rbind_Ok in Hfirst as (view1 & _ & [= <-]). exact Hr.
    + apply rbind_Ok in Hfirst as ([p m'] & Hptr & Hfirst).
      apply rbind_Ok in Hfirst as (view1 & _ & [= <-]). cbn.
      destruct (Hhost _ _ _ _ Hptr) as [_ Hmono]. apply Hmono, Hr.
  - destruct (enumDef e); [| discriminate Hp].
    apply rbind_Ok in Hp as (n & _ & Hp).
    apply rbind_Ok in Hp as (view & _ & [= <-]). exact Hr.
  - apply rbind_Ok in Hp as (arr0 & _ & Hp).
    apply rbind_Ok in Hp as (arr1 & _ & Hp).
    apply rbind_Ok in Hp as (st1 & Hfirst & Hp).
    apply rbind_Ok in Hp as (view & _ & [= <-]). cbn.
    destruct (Nat.eqb _ 0).
    + apply rbind_Ok in Hfirst as (view1 & _ & [= <-]). exact Hr.
    + apply rbind_Ok in Hfirst as ([p m'] & Hptr & Hfirst).
      apply rbind_Ok in Hfirst as (view1 & _ & [= <-]). cbn.
      destruct (Hhost _ _ _ _ Hptr) as [_ Hmono]. apply Hmono, Hr.
Qed.

Lemma packFields_memory S input l st st' a bs :
  foldM (packField H S input) st l = Ok st' ->
  Readable H (st_memory st) a bs -> Readable H (st_memory st') a bs.
Proof.
  revert st. induction l as [| e l IH]; intros st Hf Hr; cbn in Hf.
  - injection Hf as <-. exact Hr.
  - apply rbind_Ok in Hf as (st1 & Hstep & Hf).
    apply (IH st1 Hf). exact (packField_memory S input st e st1 a bs Hstep Hr).
Qed.

(** What the pointer turn of a string or array field leaves behind:
    the null pointer for an empty payload, else a non-null address at
    which the payload can be read. *)
Lemma pointer_turn view o (m : Memory) allocated payload st1 :
  (if Nat.eqb (length payload) 0 then
     view' ← writePrimitive H view pointer o (VNum (NInt 0));
     Ok {| st_view := view'; st_allocated := allocated; st_memory := m |}
   else
     '(p, m') ← ptr H m payload;
     view' ← writePrimitive H view pointer o p;
     Ok {| st_view := view'; st_allocated := allocated ++ [payload];
           st_memory := m' |}) = Ok st1 ->
  (length payload = 0%nat /\
   readPrimitive H (st_view st1) pointer o = Ok (VBig 0))
  \/ (length payload <> 0%nat /\
      exists a, a <> 0 /\
        readPrimitive H (st_view st1) pointer o = Ok (VBig a) /\
        Readable H (st_memory st1) a payload).
Proof.
  destruct (Nat.eqb_spec (length payload) 0) as [Hz | Hnz]; intros Hturn.
  - left. split; [exact Hz |].
    apply rbind_Ok in Hturn as (view' & Hw & [= <-]). cbn.
    apply (pointer_slot_reads view o (VNum (NInt 0)) 0 view' pointerToBigInt_zero);
      [| exact Hw].
    pose proof pow2_pointer_pos. lia.
  - right. split; [exact Hnz |].
    apply rbind_Ok in Hturn as ([p m'] & Hptr & Hturn).
    apply rbind_Ok in Hturn as (view' & Hw & [= <-]). cbn.
    destruct (Hhost _ _ _ _ Hptr) as [(a & Hpa & Ha & Hread) _].
    exists a. split; [lia |]. split; [| exact Hread].
    apply (pointer_slot_reads view o p a view' Hpa); [lia | exact Hw].
Qed.
End PackMemory.

(** ** Arrays: the payload buffer *)

Section ArrayPayload.
Context {Memory : Type} (H : Host Memory).
Local Abbreviation E := (engine H).

Lemma primitiveSizes_pos t : 0 < primitiveSizes H t.
Proof. pose proof (primitiveSizes_cases H t). lia. Qed.

(** Writing fitting items from index [i] on keeps what lies before and
    lets the items be read back from index [i]. *)
Lemma writeItems_readItems t items buf i buf' :
  0 <= i -> forallb (fits H t) items = true ->
  writeItems H buf t (primitiveSizes H t) i items = Ok buf' ->
  length buf' = length buf
  /\ (forall o n, o + Z.of_nat n <= i * primitiveSizes H t ->
        view_get buf' o n = view_get buf o n)
  /\ readItems H buf' t (primitiveSizes H t) i (length items) = Ok items.
Proof.
  revert buf i. induction items as [| v items IH]; intros buf i Hi Hfit Hw.
  - cbn in Hw. injection Hw as <-. cbn. auto.
  - cbn in Hw, Hfit. apply andb_prop in Hfit as [Hv Hfit].
    apply rbind_Ok in Hw as (b1 & Hw1 & Hw).
    destruct (IH b1 (i + 1) ltac:(lia) Hfit Hw) as (Hlen & Hframe & Hread).
    pose proof (primitiveSizes_pos t) as Hpos.
    split; [rewrite Hlen; exact (writePrimitive_length H _ _ _ _ _ Hw1) |].
    split.
    + intros o n Hon. rewrite Hframe by lia.
      apply (writePrimitive_frame H _ _ _ _ _ _ _ Hw1). lia.
    + cbn [readItems length].
      assert (Hitem : readPrimitive H buf' t (i * primitiveSizes H t) = Ok v).
      { destruct (writePrimitive_slot H _ _ _ _ _ Hw1) as (x & Hx & Hget).
        apply (readPrimitive_fits H _ _ _ _ x Hv Hx).
        rewrite Hframe; [exact Hget |]. rewrite widthOf_size. lia. }
      rewrite Hitem. cbn. rewrite Hread. reflexivity.
Qed.
End ArrayPayload.

(** ** Conforming values *)

Section Conforming.
Context {Memory : Type} (H : Host Memory).
Local Abbreviation E := (engine H).

Lemma fits_defined t v : fits H t v = true -> is_undefined v = false.
Proof. destruct t, v; cbn; congruence. Qed.

Lemma isNone_true {A} (o : option A) : isNone o = true -> o = None.
Proof. destruct o; [discriminate | reflexivity]. Qed.

Lemma lengthOf_truthy_None e : lengthOf e = None -> lengthOf_truthy e = None.
Proof. unfold lengthOf_truthy. intros ->. reflexivity. Qed.

Lemma conformsField_hooks S input e :
  conformsField H S input e = true ->
  packTransform e = None /\ unpackTransform e = None.
Proof.
  unfold conformsField. intros Hc.
  apply andb_prop in Hc as [Hc _]. apply andb_prop in Hc as [Hp Hu].
  apply andb_prop in Hp as [_ Hp].
  split; apply isNone_true; assumption.
Qed.

Lemma conformsField_name S input e :
  conformsField H S input e = true ->
  inherited E (name e) = VUndefined /\ inheritedSetter E (name e) = false.
Proof.
  unfold conformsField, ordinaryName. intros Hc.
  apply andb_prop in Hc as [Hc _]. apply andb_prop in Hc as [Hc _].
  apply andb_prop in Hc as [Hc _]. apply andb_prop in Hc as [Hi Hs].
  split.
  - destruct (inherited E (name e)); try discriminate Hi. reflexivity.
  - destruct (inheritedSetter E (name e)); [discriminate Hs | reflexivity].
Qed.

(** A conforming scalar is packed from its logical value, which fits. *)
Lemma conforming_scalar S input e :
  kind e = primitive -> conformsField H S input e = true ->
  fieldValueOf H input e = logicalValue H input e
  /\ fits H (type e) (logicalValue H input e) = true.
Proof.
  intros Hk Hc. destruct (conformsField_hooks S input e Hc) as [Hp _].
  unfold conformsField in Hc. rewrite Hk in Hc.
  apply andb_prop in Hc as [_ Hc].
  unfold fieldValueOf, logicalValue, lengthOf_truthy. rewrite Hk, Hp.
  fold (effective H input e).
  destruct (lengthOf e) as [[| c source] |].
  - discriminate Hc.
  - unfold derivedLength in *.
    destruct (prop E input (c :: source)); try discriminate Hc; auto.
  - rewrite (fits_defined _ _ Hc). auto.
Qed.

Lemma conforming_enum S input e :
  kind e = enum_kind -> conformsField H S input e = true ->
  exists d nm z,
    enumDef e = Some d /\ fieldValueOf H input e = VStr nm /\
    logicalValue H input e = VStr nm /\
    Map_get nm (enum d) = Some (NInt z) /\
    fits H (type e) (VNum (NInt z)) = true /\
    Map_get (NInt z) (reverse d) = Some nm.
Proof.
  intros Hk Hc. destruct (conformsField_hooks S input e Hc) as [Hp _].
  unfold conformsField in Hc. rewrite Hk in Hc.
  apply andb_prop in Hc as [_ Hc]. apply andb_prop in Hc as [Hl Hc].
  apply isNone_true in Hl.
  unfold fieldValueOf, logicalValue, lengthOf_truthy. rewrite Hk, Hp, Hl.
  fold (effective H input e).
  destruct (enumDef e) as [d |]; [| discriminate Hc].
  destruct (effective H input e) as [| | | | | nm | | |]; try discriminate Hc.
  destruct (Map_get nm (enum d)) as [[z | | |] |] eqn:Hto; try discriminate Hc.
  apply andb_prop in Hc as [Hfit Hfrom]. apply bool_decide_eq_true in Hfrom.
  exists d, nm, z. cbn. auto 10.
Qed.

Lemma conforming_string S input e :
  kind e = char_ptr -> conformsField H S input e = true ->
  exists s L,
    prop E input (name e) = VStr s /\ fieldValueOf H input e = VStr s /\
    logicalValue H input e = VStr s /\ lengthOf e = None /\
    utf8_decode E (utf8_encode E s) = s /\
    (length (utf8_encode E s) = 0%nat -> s = []) /\
    lengthEntryOf S e = Some L /\ carriesLengthOf L e = true.
Proof.
  intros Hk Hc. destruct (conformsField_hooks S input e Hc) as [Hp _].
  unfold conformsField in Hc. rewrite Hk in Hc.
  apply andb_prop in Hc as [_ Hc]. apply andb_prop in Hc as [Hl Hc].
  apply isNone_true in Hl.
  unfold fieldValueOf, logicalValue, lengthOf_truthy, effective.
  rewrite Hk, Hp, Hl.
  destruct (prop E input (name e)) as [| | | | | s | | |]; try discriminate Hc.
  destruct (lengthEntryOf S e) as [L |]; [| discriminate Hc].
  apply andb_prop in Hc as [Hc Hcarry]. apply andb_prop in Hc as [Hdec Hempty].
  apply bool_decide_eq_true in Hdec.
  exists s, L. cbn. repeat split; auto.
  intros Hlen. rewrite Hlen in Hempty. cbn in Hempty.
  apply bool_decide_eq_true in Hempty. exact Hempty.
Qed.

Lemma conforming_array S input e :
  kind e = array -> conformsField H S input e = true ->
  exists items L,
    prop E input (name e) = VArr items /\ fieldValueOf H input e = VArr items /\
    logicalValue H input e = VArr items /\ lengthOf e = None /\
    forallb (fits H (type e)) items = true /\
    lengthEntryOf S e = Some L /\ carriesLengthOf L e = true.
Proof.
  intros Hk Hc. destruct (conformsField_hooks S input e Hc) as [Hp _].
  unfold conformsField in Hc. rewrite Hk in Hc.
  apply andb_prop in Hc as [_ Hc]. apply andb_prop in Hc as [Hl Hc].
  apply isNone_true in Hl.
  unfold fieldValueOf, logicalValue, lengthOf_truthy, effective.
  rewrite Hk, Hp, Hl.
  destruct (prop E input (name e)) as [| | | | | | items | |]; try discriminate Hc.
  destruct (lengthEntryOf S e) as [L |]; [| discriminate Hc].
  apply andb_prop in Hc as [Hfit Hcarry].
  exists items, L. cbn. repeat split; auto.
Qed.

Lemma conforming_fields S input :
  conforming H S input = true ->
  NoDup (name <$> layout S)
  /\ forall e, e ∈ layout S -> conformsField H S input e = true.
Proof.
  unfold conforming. intros Hc. apply andb_prop in Hc as [Hnd Hall].
  apply bool_decide_eq_true in Hnd. split; [exact Hnd |].
  intros e He. rewrite forallb_forall in Hall. apply Hall.
  apply list_elem_of_In. exact He.
Qed.

Lemma conforming_lengthOnScalarsOnly S input :
  conforming H S input = true -> lengthOnScalarsOnly S = true.
Proof.
  intros Hc. destruct (conforming_fields S input Hc) as [_ Hall].
  unfold lengthOnScalarsOnly. apply forallb_forall. intros e He.
  apply list_elem_of_In in He. specialize (Hall e He).
  destruct (kind e) eqn:Hk; try reflexivity.
  - destruct (conforming_string S input e Hk Hall) as (s & L & _ & _ & _ & Hl & _).
    rewrite (lengthOf_truthy_None e Hl). reflexivity.
  - destruct (conforming_array S input e Hk Hall) as (s & L & _ & _ & _ & Hl & _).
    rewrite (lengthOf_truthy_None e Hl). reflexivity.
Qed.
End Conforming.

(** ** [pack]: what the packed buffer holds for a conforming value *)

Section Packed.
Context {Memory : Type} (H : Host Memory).
Local Abbreviation E := (engine H).

Context (fields : list FieldDef)
        (reduce : option (gmap jsstring JsValue -> gmap jsstring JsValue))
        (m : Memory) (value : gmap jsstring JsValue)
        (st : @PackState Memory).

Local Abbreviation S := (defineStruct H fields reduce).
Local Abbreviation input := (packInput (defineStruct H fields reduce) value).

Context (Hcount : Z.of_nat (length fields) < 2 ^ 26)
        (Hhost : pinsFaithfully H)
        (Hconf : conforming H S input = true)
        (Hpack : pack H S m value = Ok st).

Lemma packed_turn k e :
  layout S !! k = Some e ->
  conformsField H S input e = true /\ wellSized H e /\
  exists st1 st2,
    packField H S input st1 e = Ok st2
    /\ (forall t, Z.of_nat (widthOf H t) = size e ->
          readPrimitive H (st_view st) t (offset e)
          = readPrimitive H (st_view st2) t (offset e))
    /\ (forall a bs, Readable H (st_memory st2) a bs ->
          Readable H (st_memory st) a bs).
Proof.
  intros Hk.
  destruct (conforming_fields H S input Hconf) as [_ Hall].
  assert (He : e ∈ layout S) by (apply list_elem_of_lookup; eauto).
  destruct (defineStruct_inOrder H fields reduce Hcount) as [[Hin _] _].
  destruct (Hin k e Hk) as (_ & _ & Hws).
  destruct (pack_at H fields reduce m value st k e Hcount
              (conforming_lengthOnScalarsOnly H S input Hconf) Hpack Hk)
    as (st1 & st2 & Hstep & Hafter & _ & _ & Hslot).
  split; [exact (Hall e He) |]. split; [exact Hws |].
  exists st1, st2. split; [exact Hstep |]. split.
  - intros t Ht. apply readPrimitive_same_slot.
    rewrite <- Ht, Nat2Z.id in Hslot. exact Hslot.
  - intros a bs. apply (packFields_memory H Hhost _ _ _ _ _ _ _ Hafter).
Qed.

(** A scalar field reads back as its logical value. *)
Lemma packed_scalar k e :
  layout S !! k = Some e -> kind e = primitive ->
  readPrimitive H (st_view st) (type e) (offset e)
    = Ok (logicalValue H input e).
Proof.
  intros Hk Hkind.
  destruct (packed_turn k e Hk) as (Hc & Hws & st1 & st2 & Hstep & Hsame & _).
  destruct (conforming_scalar H S input e Hkind Hc) as [Hfv Hfit].
  unfold wellSized in Hws. rewrite Hkind in Hws.
  rewrite Hsame by (rewrite widthOf_size; auto).
  unfold packField in Hstep. rewrite Hkind, Hfv in Hstep.
  apply rbind_Ok in Hstep as (view & Hw & [= <-]). cbn.
  destruct (writePrimitive_slot H _ _ _ _ _ Hw) as (x & Hx & Hget).
  exact (readPrimitive_fits H _ _ _ _ x Hfit Hx Hget).
Qed.

(** An enum field reads back as the number of its name. *)
Lemma packed_enum k e :
  layout S !! k = Some e -> kind e = enum_kind ->
  exists d nm z,
    enumDef e = Some d /\ logicalValue H input e = VStr nm /\
    readPrimitive H (st_view st) (type e) (offset e) = Ok (VNum (NInt z)) /\
    Map_get (NInt z) (reverse d) = Some nm.
Proof.
  intros Hk Hkind.
  destruct (packed_turn k e Hk) as (Hc & Hws & st1 & st2 & Hstep & Hsame & _).
  destruct (conforming_enum H S input e Hkind Hc)
    as (d & nm & z & Hd & Hfv & Hlv & Hto & Hfit & Hfrom).
  exists d, nm, z. split; [exact Hd |]. split; [exact Hlv |].
  split; [| exact Hfrom].
  unfold wellSized in Hws. rewrite Hkind in Hws.
  rewrite Hsame by (rewrite widthOf_size; auto).
  unfold packField in Hstep. rewrite Hkind, Hd, Hfv in Hstep.
  unfold EnumDef_to in Hstep. cbn [ToString] in Hstep. rewrite Hto in Hstep.
  cbn in Hstep. apply rbind_Ok in Hstep as (view & Hw & [= <-]). cbn.
  destruct (writePrimitive_slot H _ _ _ _ _ Hw) as (x & Hx & Hget).
  exact (readPrimitive_fits H _ _ _ _ x Hfit Hx Hget).
Qed.

(** A string field holds the null pointer when its encoding is empty,
    else a non-null address at which the encoding can be read. *)
Lemma packed_string k e s :
  layout S !! k = Some e -> kind e = char_ptr ->
  prop E input (name e) = VStr s ->
  (length (utf8_encode E s) = 0%nat /\
   readPrimitive H (st_view st) pointer (offset e) = Ok (VBig 0))
  \/ (length (utf8_encode E s) <> 0%nat /\
      exists a, a <> 0 /\
        readPrimitive H (st_view st) pointer (offset e) = Ok (VBig a) /\
        Readable H (st_memory st) a (utf8_encode E s)).
Proof.
  intros Hk Hkind Hs.
  destruct (packed_turn k e Hk) as (Hc & Hws & st1 & st2 & Hstep & Hsame & Hmem).
  destruct (conforming_string H S input e Hkind Hc)
    as (s' & L & Hs' & Hfv & _ & Hl & _).
  rewrite Hs in Hs'. injection Hs' as <-.
  unfold wellSized in Hws. rewrite Hkind in Hws.
  rewrite Hsame by (rewrite widthOf_pointer; auto).
  unfold packField in Hstep. rewrite Hkind, Hfv in Hstep. cbn [nullish ToString] in Hstep.
  apply rbind_Ok in Hstep as (st' & Hturn & Hstep).
  rewrite writeLengthField_none in Hstep by (apply lengthOf_truthy_None, Hl).
  cbn in Hstep. injection Hstep as <-. cbn [st_view st_memory] in *.
  destruct (pointer_turn H Hhost _ _ _ _ _ _ Hturn)
    as [[Hz Hread] | (Hnz & a & Ha & Hread & Hr)].
  - left. auto.
  - right. split; [exact Hnz |]. exists a. auto.
Qed.

(** An array field holds the null pointer when it is empty, else a
    non-null address of a buffer from which the items can be read. *)
Lemma packed_array k e items :
  layout S !! k = Some e -> kind e = array ->
  prop E input (name e) = VArr items ->
  (items = [] /\
   readPrimitive H (st_view st) pointer (offset e) = Ok (VBig 0))
  \/ (items <> [] /\
      exists a arrBuf, a <> 0 /\
        readPrimitive H (st_view st) pointer (offset e) = Ok (VBig a) /\
        Readable H (st_memory st) a arrBuf /\
        Z.of_nat (length arrBuf)
          = Z.of_nat (length items) * primitiveSizes H (type e) /\
        readItems H arrBuf (type e) (primitiveSizes H (type e)) 0
                  (length items) = Ok items).
Proof.
  intros Hk Hkind Hs.
  destruct (packed_turn k e Hk) as (Hc & Hws & st1 & st2 & Hstep & Hsame & Hmem).
  destruct (conforming_array H S input e Hkind Hc)
    as (items' & L & Hs' & Hfv & _ & Hl & Hfit & _).
  rewrite Hs in Hs'. injection Hs' as <-.
  unfold wellSized in Hws. rewrite Hkind in Hws.
  rewrite Hsame by (rewrite widthOf_pointer; auto).
  unfold packField in Hstep. rewrite Hkind, Hfv in Hstep.
  apply rbind_Ok in Hstep as (arr0 & Hnew & Hstep).
  apply rbind_Ok in Hstep as (arrBuf & Hitems & Hstep).
  apply rbind_Ok in Hstep as (st' & Hturn & Hstep).
  rewrite writeLengthField_none in Hstep by (apply lengthOf_truthy_None, Hl).
  cbn in Hstep. injection Hstep as <-. cbn [st_view st_memory] in *.
  destruct (writeItems_readItems H (type e) items arr0 0 arrBuf
              ltac:(lia) Hfit Hitems) as (Hlen & _ & Hread).
  apply newArrayBuffer_length in Hnew.
  destruct (Nat.eqb_spec (length items) 0) as [Hz | Hnz].
  - left. split; [destruct items; [reflexivity | discriminate Hz] |].
    apply rbind_Ok in Hturn as (view' & Hw & [= <-]). cbn [st_view st_memory] in *.
    apply (pointer_slot_reads H (st_view st1) (offset e) (VNum (NInt 0)) 0 view'
             (pointerToBigInt_zero H)); [| exact Hw].
    pose proof (pow2_pointer_pos H). lia.
  - right. split; [intros ->; apply Hnz; reflexivity |].
    apply rbind_Ok in Hturn as ([p m'] & Hptr & Hturn).
    apply rbind_Ok in Hturn as (view' & Hw & [= <-]). cbn [st_view st_memory] in *.
    destruct (Hhost _ _ _ _ Hptr) as [(a & Hpa & Ha & Hr) _].
    exists a, arrBuf. split; [lia |].
    split; [apply (pointer_slot_reads H (st_view st1) (offset e) p a view' Hpa);
            [lia | exact Hw] |].
    split; [apply Hmem; exact Hr |].
    split; [rewrite Hlen; exact Hnew | exact Hread].
Qed.
End Packed.

(** ** [unpack] of a packed conforming value *)

Lemma NoDup_fmap_eq {A B} (f : A -> B) (l : list A) (x y : A) :
  NoDup (f <$> l) -> x ∈ l -> y ∈ l -> f x = f y -> x = y.
Proof.
  induction l as [| z l IH]; cbn; intros Hnd Hx Hy Hf.
  - inversion Hx.
  - apply NoDup_cons in Hnd as [Hz Hnd].
    apply elem_of_cons in Hx as [-> | Hx]; apply elem_of_cons in Hy as [-> | Hy].
    + reflexivity.
    + exfalso. apply Hz. rewrite Hf. apply list_elem_of_fmap. eauto.
    + exfalso. apply Hz. rewrite <- Hf. apply list_elem_of_fmap. eauto.
    + apply IH; assumption.
Qed.

Lemma byName_fold (l : list LayoutEntry) (acc : gmap jsstring LayoutEntry) nm L :
  foldl (fun m entry => <[name entry := entry]> m) acc l !! nm = Some L ->
  (L ∈ l /\ name L = nm) \/ acc !! nm = Some L.
Proof.
  revert acc. induction l as [| e l IH]; intros acc Hl; cbn in Hl.
  - right. exact Hl.
  - destruct (IH _ Hl) as [[Hin Hnm] | Hacc].
    + left. split; [right; exact Hin | exact Hnm].
    + rewrite lookup_insert in Hacc.
      destruct (decide (name e = nm)) as [Heq | Hne].
      * injection Hacc as <-. left. split; [left | exact Heq].
      * right. exact Hacc.
Qed.

Section Unpacked.
Context {Memory : Type} (H : Host Memory).
Local Abbreviation E := (engine H).

Lemma defineStruct_byName fields reduce nm L :
  byName (defineStruct H fields reduce) !! nm = Some L ->
  L ∈ layout (defineStruct H fields reduce) /\ name L = nm.
Proof.
  unfold defineStruct.
  destruct (foldl (layoutField H) (0, []) fields) as [o lay]. cbn.
  intros Hl. destruct (byName_fold lay ∅ nm L Hl) as [Hin | Hempty].
  - exact Hin.
  - rewrite lookup_empty in Hempty. discriminate Hempty.
Qed.

Context (fields : list FieldDef)
        (reduce : option (gmap jsstring JsValue -> gmap jsstring JsValue))
        (m : Memory) (value : gmap jsstring JsValue)
        (st : @PackState Memory).

Local Abbreviation S := (defineStruct H fields reduce).
Local Abbreviation input := (packInput (defineStruct H fields reduce) value).

Context (Hcount : Z.of_nat (length fields) < 2 ^ 26)
        (Hhost : pinsFaithfully H)
        (Hconf : conforming H S input = true)
        (Hpack : pack H S m value = Ok st).

(** The length that [unpack] finds for a string or array field [e]
    whose length is carried by [L]. *)
Lemma unpacked_length out e L n :
  decodedSoFar H S input out -> e ∈ layout S ->
  lengthOf e = None -> lengthEntryOf S e = Some L ->
  carriesLengthOf L e = true ->
  derivedLength H input (name e) = Some n ->
  getLengthFieldValue H S (st_view st) (plainObject out) (lengthFieldOf S e)
  = Ok (NInt n).
Proof.
  intros Hout He Hl HL Hcarry Hn.
  destruct (conforming_fields H S input Hconf) as [Hnd Hall].
  unfold lengthEntryOf in HL. unfold lengthFieldOf. rewrite Hl.
  destruct (inferredLengthFieldFor S !! name e) as [ln |]; [| discriminate HL].
  destruct (defineStruct_byName _ _ _ _ HL) as [HLin HLname].
  unfold carriesLengthOf in Hcarry.
  apply andb_prop in Hcarry as [Hcarry Hnonempty].
  apply andb_prop in Hcarry as [Hprim Hsrc].
  apply bool_decide_eq_true in Hsrc.
  assert (HkL : kind L = primitive) by (destruct (kind L); try discriminate; reflexivity).
  assert (HvL : logicalValue H input L = VNum (NInt n)).
  { pose proof (Hall L HLin) as HcL.
    unfold conformsField in HcL. rewrite HkL, Hsrc in HcL.
    unfold logicalValue, lengthOf_truthy. rewrite HkL, Hsrc.
    destruct (name e) as [| c nm]; [rewrite !andb_false_r in HcL; discriminate |].
    rewrite Hn. reflexivity. }
  assert (HreadL : readPrimitive H (st_view st) (type L) (offset L)
                   = Ok (VNum (NInt n))).
  { apply list_elem_of_lookup in HLin as [k Hk].
    rewrite <- HvL.
    exact (packed_scalar H fields reduce m value st Hcount Hhost Hconf Hpack
             k L Hk HkL). }
  unfold getLengthFieldValue.
  destruct ln as [| c ln']; [rewrite HLname in Hnonempty; discriminate |].
  rewrite getProperty_plain. cbn.
  unfold prop. destruct (out !! (c :: ln')) as [v |] eqn:Hv; cbn.
  - destruct (Hout _ _ Hv) as (e' & He' & Hname' & ->).
    assert (e' = L).
    { apply (NoDup_fmap_eq name (layout S)); try assumption. congruence. }
    subst e'. rewrite HvL. reflexivity.
  - destruct (conformsField_name H S input L (Hall L HLin)) as [Hinh _].
    rewrite HLname in Hinh. rewrite Hinh. cbn.
    rewrite HL. rewrite HreadL. reflexivity.
Qed.

(** The value that [unpack] decodes for the field at index [k]. *)
Lemma unpacked_value out k e :
  decodedSoFar H S input out -> layout S !! k = Some e ->
  unpackValue H S (st_memory st) (st_view st) (plainObject out) e
    = Ok (logicalValue H input e).
Proof.
  intros Hout Hk.
  assert (He : e ∈ layout S) by (apply list_elem_of_lookup; eauto).
  destruct (conforming_fields H S input Hconf) as [Hnd Hall].
  pose proof (Hall e He) as Hc.
  unfold unpackValue. destruct (kind e) eqn:Hkind.
  - exact (packed_scalar H fields reduce m value st Hcount Hhost Hconf Hpack
             k e Hk Hkind).
  - destruct (conforming_string H S input e Hkind Hc)
      as (s & L & Hs & _ & Hlv & Hl & Hdec & Hempty & HL & Hcarry).
    assert (Hn : derivedLength H input (name e)
                 = Some (Z.of_nat (length (utf8_encode E s)))).
    { unfold derivedLength. rewrite Hs. reflexivity. }
    rewrite (unpacked_length out e L _ Hout He Hl HL Hcarry Hn).
    rewrite Hlv.
    destruct (packed_string H fields reduce m value st Hcount Hhost Hconf Hpack
                k e s Hk Hkind Hs)
      as [[Hz Hread] | (Hnz & a & Ha & Hread & Hr)]; rewrite Hread; cbn.
    + rewrite (Hempty Hz). reflexivity.
    + destruct (Z.eqb_spec a 0) as [| _]; [contradiction |]. cbn.
      destruct (Z.leb_spec (Z.of_nat (length (utf8_encode E s))) 0) as [| Hpos];
        [lia |]. cbn.
      rewrite (Hr (Z.of_nat (length (utf8_encode E s))) ltac:(lia)). cbn.
      rewrite Nat2Z.id, firstn_all, Hdec. reflexivity.
  - destruct (packed_enum H fields reduce m value st Hcount Hhost Hconf Hpack
                k e Hk Hkind) as (d & nm & z & Hd & Hlv & Hread & Hfrom).
    rewrite Hread, Hd. cbn. unfold EnumDef_from. rewrite Hfrom. cbn.
    rewrite Hlv. reflexivity.
  - destruct (conforming_array H S input e Hkind Hc)
      as (items & L & Hs & _ & Hlv & Hl & Hfit & HL & Hcarry).
    assert (Hn : derivedLength H input (name e)
                 = Some (Z.of_nat (length items))).
    { unfold derivedLength. rewrite Hs. reflexivity. }
    rewrite (unpacked_length out e L _ Hout He Hl HL Hcarry Hn).
    rewrite Hlv.
    destruct (packed_array H fields reduce m value st Hcount Hhost Hconf Hpack
                k e items Hk Hkind Hs)
      as [[Hz Hread] | (Hnz & a & arrBuf & Ha & Hread & Hr & Hlen & Hitems)];
      rewrite Hread; cbn.
    + rewrite Hz. reflexivity.
    + destruct (Z.eqb_spec a 0) as [| _]; [contradiction |]. cbn.
      assert (Hpos : 0 < Z.of_nat (length items))
        by (destruct items; [contradiction | cbn; lia]).
      destruct (Z.leb_spec (Z.of_nat (length items)) 0) as [| _]; [lia |]. cbn.
      pose proof (primitiveSizes_pos H (type e)) as Hes.
      rewrite (Hr (Z.of_nat (length items) * primitiveSizes H (type e))
                  ltac:(nia)). cbn.
      rewrite <- Hlen, Nat2Z.id, firstn_all, Nat2Z.id, Hitems. reflexivity.
Qed.

Lemma decodedSoFar_insert out e :
  decodedSoFar H S input out -> e ∈ layout S ->
  decodedSoFar H S input (<[name e := logicalValue H input e]> out).
Proof.
  intros Hout He nm v. rewrite lookup_insert.
  destruct (decide (name e = nm)) as [Heq | Hne].
  - intros [= <-]. exists e. auto.
  - apply Hout.
Qed.

Lemma unpacked_field out e :
  decodedSoFar H S input out -> e ∈ layout S ->
  unpackField H S (st_memory st) (st_view st) (plainObject out) e
    = Ok (plainObject (<[name e := logicalValue H input e]> out)).
Proof.
  intros Hout He.
  destruct (conforming_fields H S input Hconf) as [_ Hall].
  destruct (conformsField_hooks H S input e (Hall e He)) as [_ Hu].
  destruct (conformsField_name H S input e (Hall e He)) as [_ Hset].
  pose proof He as Hidx. apply list_elem_of_lookup in Hidx as [k Hk].
  unfold unpackField. rewrite (unpacked_value out k e Hout Hk). cbn.
  rewrite Hu. apply setProperty_plain. exact Hset.
Qed.

(** The loop of [unpack] over a part of the layout. *)
Lemma unpacked_fields l out :
  (forall e, e ∈ l -> e ∈ layout S) -> decodedSoFar H S input out ->
  foldM (unpackField H S (st_memory st) (st_view st)) (plainObject out) l
    = Ok (plainObject
            (foldl (fun out e => <[name e := logicalValue H input e]> out) out l)).
Proof.
  revert out. induction l as [| e l IH]; intros out Hl Hout; cbn [foldM foldl].
  - reflexivity.
  - assert (He : e ∈ layout S) by (apply Hl; left).
    rewrite (unpacked_field out e Hout He). cbn. apply IH.
    + intros e' He'. apply Hl. right. exact He'.
    + apply decodedSoFar_insert; assumption.
Qed.

Lemma expectedOut_other (l : list LayoutEntry)
    (out : gmap jsstring JsValue) (nm : jsstring) :
  nm ∉ (name <$> l) ->
  foldl (fun out e => <[name e := logicalValue H input e]> out) out l !! nm
    = out !! nm.
Proof.
  revert out. induction l as [| e l IH]; intros out Hnm; cbn.
  - reflexivity.
  - cbn in Hnm. apply not_elem_of_cons in Hnm as [Hne Hnm].
    rewrite IH by exact Hnm. apply lookup_insert_ne. congruence.
Qed.

Lemma expectedOut_lookup (l : list LayoutEntry)
    (out : gmap jsstring JsValue) (e : LayoutEntry) :
  NoDup (name <$> l) -> e ∈ l ->
  foldl (fun out e => <[name e := logicalValue H input e]> out) out l !! name e
    = Some (logicalValue H input e).
Proof.
  revert out. induction l as [| e0 l IH]; intros out Hnd He; cbn.
  - inversion He.
  - cbn in Hnd. apply NoDup_cons in Hnd as [Hfresh Hnd].
    apply elem_of_cons in He as [-> | He].
    + rewrite expectedOut_other by exact Hfresh. apply lookup_insert_eq.
    + apply IH; assumption.
Qed.
End Unpacked.

(** ** [pack] of a conforming value fails only when the host cannot pin *)

Section PackTotal.
Context {Memory : Type} (H : Host Memory).
Local Abbreviation E := (engine H).

Lemma writePrimitive_Ok view t o v x :
  scalarImage H t v = Ok x ->
  0 <= o -> o + primitiveSizes H t <= Z.of_nat (length view) ->
  exists view', writePrimitive H view t o v = Ok view'.
Proof.
  intros Hx Ho Hin. rewrite writePrimitive_image, Hx. cbn.
  eexists. apply view_set_Ok; [exact Ho |].
  rewrite length_le_split, widthOf_size. exact Hin.
Qed.

Lemma writeItems_Ok t items buf i :
  0 <= i -> forallb (fits H t) items = true ->
  (i + Z.of_nat (length items)) * primitiveSizes H t <= Z.of_nat (length buf) ->
  exists buf', writeItems H buf t (primitiveSizes H t) i items = Ok buf'.
Proof.
  revert buf i. induction items as [| v items IH]; intros buf i Hi Hfit Hroom.
  - cbn. eauto.
  - cbn in Hfit. apply andb_prop in Hfit as [Hv Hfit].
    pose proof (primitiveSizes_pos H t) as Hpos.
    cbn [length] in Hroom.
    destruct (fits_image H t v Hv) as (x & Hx & _).
    destruct (writePrimitive_Ok buf t (i * primitiveSizes H t) v x Hx)
      as [b1 Hw1]; [nia | nia |].
    cbn. rewrite Hw1. cbn. apply IH; [lia | exact Hfit |].
    rewrite (writePrimitive_length H _ _ _ _ _ Hw1). nia.
Qed.

Context (Hhost : pinsFaithfully H).

(** The pointer turn of a string or array field succeeds unless [ptr]
    fails. *)
Lemma pointer_turn_total view o (m : Memory) allocated payload :
  0 <= o -> o + pointerSize H <= Z.of_nat (length view) ->
  match
    (if Nat.eqb (length payload) 0 then
       view' ← writePrimitive H view pointer o (VNum (NInt 0));
       Ok {| st_view := view'; st_allocated := allocated; st_memory := m |}
     else
       '(p, m') ← ptr H m payload;
       view' ← writePrimitive H view pointer o p;
       Ok {| st_view := view'; st_allocated := allocated ++ [payload];
             st_memory := m' |})
  with
  | Ok _ => True
  | Err err => pinFailure H err
  end.
Proof.
  intros Ho Hin. destruct (Nat.eqb (length payload) 0).
  - assert (Hx : exists x, scalarImage H pointer (VNum (NInt 0)) = Ok x)
      by (cbn; eauto).
    destruct Hx as [x Hx].
    destruct (writePrimitive_Ok view pointer o (VNum (NInt 0)) x Hx Ho Hin)
      as [view' Hw].
    rewrite Hw. exact I.
  - destruct (ptr H m payload) as [[p m'] | err] eqn:Hptr; cbn -[writePrimitive].
    + destruct (Hhost _ _ _ _ Hptr) as [(a & Hpa & _ & _) _].
      assert (Hx : exists x, scalarImage H pointer p = Ok x).
      { cbn. rewrite Hpa. cbn. eauto. }
      destruct Hx as [x Hx].
      destruct (writePrimitive_Ok view pointer o p x Hx Ho Hin) as [view' Hw].
      rewrite Hw. exact I.
    + exists m, payload. exact Hptr.
Qed.

(** One turn of the loop on a conforming field whose slot lies inside
    the buffer. *)
Lemma packField_total S input st e :
  conformsField H S input e = true -> wellSized H e ->
  0 <= offset e -> offset e + size e <= Z.of_nat (length (st_view st)) ->
  match packField H S input st e with
  | Ok _ => True
  | Err err => pinFailure H err
  end.
Proof.
  intros Hc Hws Ho Hin. unfold packField, wellSized in *.
  destruct (kind e) eqn:Hkind.
  - destruct (conforming_scalar H S input e Hkind Hc) as [Hfv Hfit].
    rewrite Hfv. destruct (fits_image H _ _ Hfit) as (x & Hx & _).
    destruct (writePrimitive_Ok (st_view st) (type e) (offset e) _ x Hx Ho
                ltac:(lia)) as [view' Hw].
    rewrite Hw. exact I.
  - destruct (conforming_string H S input e Hkind Hc)
      as (s & L & _ & Hfv & _ & Hl & _).
    rewrite Hfv. cbn [nullish ToString].
    pose proof (pointer_turn_total (st_view st) (offset e) (st_memory st)
                  (st_allocated st) (utf8_encode E s) Ho ltac:(lia)) as Hturn.
    match type of Hturn with
    | match ?turn with _ => _ end => destruct turn as [st' | err]
    end; [| exact Hturn].
    cbn -[writePrimitive ptr writeItems]. rewrite writeLengthField_none by (apply lengthOf_truthy_None, Hl).
    exact I.
  - destruct (conforming_enum H S input e Hkind Hc)
      as (d & nm & z & Hd & Hfv & _ & Hto & Hfit & _).
    rewrite Hd, Hfv. unfold EnumDef_to. cbn [ToString]. rewrite Hto. cbn -[writePrimitive ptr writeItems].
    destruct (fits_image H _ _ Hfit) as (x & Hx & _).
    destruct (writePrimitive_Ok (st_view st) (type e) (offset e) _ x Hx Ho
                ltac:(lia)) as [view' Hw].
    rewrite Hw. exact I.
  - destruct (conforming_array H S input e Hkind Hc)
      as (items & L & _ & Hfv & _ & Hl & Hfit & _).
    rewrite Hfv.
    pose proof (primitiveSizes_pos H (type e)) as Hpos.
    unfold newArrayBuffer.
    destruct (Z.ltb_spec (Z.of_nat (length items) * primitiveSizes H (type e)) 0);
      [nia |].
    cbn -[writePrimitive ptr writeItems].
    destruct (writeItems_Ok (type e) items
                (replicate (Z.to_nat (Z.of_nat (length items) *
                                      primitiveSizes H (type e))) Byte.x00)
                0 ltac:(lia) Hfit) as [arrBuf Hitems].
    { rewrite length_replicate. lia. }
    rewrite Hitems. cbn -[writePrimitive ptr writeItems].
    pose proof (pointer_turn_total (st_view st) (offset e) (st_memory st)
                  (st_allocated st) arrBuf Ho ltac:(lia)) as Hturn.
    assert (Hsame : length arrBuf
                    = length (replicate (Z.to_nat (Z.of_nat (length items) *
                                primitiveSizes H (type e))) Byte.x00)).
    { destruct (writeItems_readItems H (type e) items _ 0 arrBuf ltac:(lia)
                  Hfit Hitems) as [Hlen _]. exact Hlen. }
    rewrite length_replicate in Hsame.
    assert (Hempty : Nat.eqb (length arrBuf) 0 = Nat.eqb (length items) 0).
    { destruct items; cbn in *.
      - rewrite Hsame. reflexivity.
      - destruct (Nat.eqb_spec (length arrBuf) 0); [nia | reflexivity]. }
    rewrite Hempty in Hturn.
    match type of Hturn with
    | match ?turn with _ => _ end => destruct turn as [st' | err]
    end; [| exact Hturn].
    cbn -[writePrimitive ptr writeItems]. rewrite writeLengthField_none by (apply lengthOf_truthy_None, Hl).
    exact I.
Qed.

(** The loop of [pack] over a part of the layout. *)
Lemma packFields_total S input l st :
  (forall e, e ∈ l ->
     conformsField H S input e = true /\ wellSized H e /\
     0 <= offset e /\ offset e + size e <= Z.of_nat (length (st_view st))) ->
  match foldM (packField H S input) st l with
  | Ok _ => True
  | Err err => pinFailure H err
  end.
Proof.
  revert st. induction l as [| e l IH]; intros st Hall; cbn.
  - exact I.
  - destruct (Hall e ltac:(left)) as (Hc & Hws & Ho & Hin).
    pose proof (packField_total S input st e Hc Hws Ho Hin) as Hstep.
    destruct (packField H S input st e) as [st1 | err] eqn:Hp; [| exact Hstep].
    cbn. apply IH. intros e' He'.
    destruct (Hall e' ltac:(right; exact He')) as (Hc' & Hws' & Ho' & Hin').
    assert (Hlen : length (st_view st1) = length (st_view st)).
    { apply (packField_frame H S input st e st1 Hws); [| exact Hp].
      intros Hk. destruct Hk as [Hk | Hk].
      - destruct (conforming_string H S input e Hk Hc) as (? & ? & _ & _ & _ & Hl & _).
        apply lengthOf_truthy_None, Hl.
      - destruct (conforming_array H S input e Hk Hc) as (? & ? & _ & _ & _ & Hl & _).
        apply lengthOf_truthy_None, Hl. }
    rewrite Hlen. auto.
Qed.

Lemma pack_total fields reduce m value :
  Z.of_nat (length fields) < 2 ^ 26 ->
  conforming H (defineStruct H fields reduce)
             (packInput (defineStruct H fields reduce) value) = true ->
  match pack H (defineStruct H fields reduce) m value with
  | Ok _ => True
  | Err err => pinFailure H err
  end.
Proof.
  intros Hcount Hconf.
  destruct (defineStruct_inOrder H fields reduce Hcount) as [[Hin _] Hsize].
  destruct (conforming_fields H _ _ Hconf) as [_ Hall].
  unfold pack, newArrayBuffer.
  destruct (Z.ltb_spec (struct_size (defineStruct H fields reduce)) 0); [lia |].
  cbn. apply packFields_total. intros e He. cbn.
  rewrite length_replicate, Z2Nat.id by lia.
  pose proof He as Hidx. apply list_elem_of_lookup in Hidx as [k Hk].
  destruct (Hin k e Hk) as (? & ? & ?). auto.
Qed.
End PackTotal.

(** ** The round trip *)

Section RoundTrip.
Context {Memory : Type} (H : Host Memory).

End RoundTrip.

(** ** The sample Bun pins faithfully *)

Lemma next_address_top (m : Sample.Memory) (t : Z) :
  t <= foldl (fun t '(a, bs) => Z.max t (a + Z.of_nat (length bs))) t m
  /\ forall a bs, (a, bs) ∈ m ->
       a + Z.of_nat (length bs)
       <= foldl (fun t '(a, bs) => Z.max t (a + Z.of_nat (length bs))) t m.
Proof.
  revert t. induction m as [| [a0 bs0] m IH]; intros t; cbn.
  - split; [lia |]. intros a bs Hin. inversion Hin.
  - destruct (IH (Z.max t (a0 + Z.of_nat (length bs0)))) as [Hle Hall].
    split; [lia |]. intros a bs Hin.
    apply elem_of_cons in Hin as [[= -> ->] | Hin]; [lia | exact (Hall a bs Hin)].
Qed.

Lemma next_address_beyond (m : Sample.Memory) :
  4096 <= Sample.next_address m
  /\ forall a bs, (a, bs) ∈ m ->
       a + Z.of_nat (length bs) <= Sample.next_address m.
Proof.
  unfold Sample.next_address.
  destruct (next_address_top m 4096) as [Hle Hall].
  set (top := foldl _ 4096 m) in *.
  assert (Hup : top <= (top + 15) / 16 * 16).
  { pose proof (Z.div_mod (top + 15) 16 ltac:(lia)).
    pose proof (Z.mod_pos_bound (top + 15) 16 ltac:(lia)). lia. }
  split; [lia |]. intros a bs Hin. specialize (Hall a bs Hin). lia.
Qed.

Lemma load_keeps (m : Sample.Memory) x address n r :
  Sample.load m address n = Ok r -> Sample.load (m ++ [x]) address n = Ok r.
Proof.
  induction m as [| [a bs] m IH]; cbn; intros Hl.
  - discriminate Hl.
  - destruct ((a <=? address) && (address + n <=? a + Z.of_nat (length bs)));
      [exact Hl | exact (IH Hl)].
Qed.

Lemma load_last (m : Sample.Memory) a bs n :
  (forall a' bs', (a', bs') ∈ m -> a' + Z.of_nat (length bs') <= a) ->
  0 < n <= Z.of_nat (length bs) ->
  Sample.load (m ++ [(a, bs)]) a n = Ok (take (Z.to_nat n) bs).
Proof.
  intros Hbelow Hn. induction m as [| [a0 bs0] m IH]; cbn.
  - destruct (Z.leb_spec a a); [| lia].
    destruct (Z.leb_spec (a + n) (a + Z.of_nat (length bs))); [| lia].
    cbn. rewrite Z.sub_diag. reflexivity.
  - pose proof (Hbelow a0 bs0 ltac:(left)) as H0.
    destruct (Z.leb_spec (a + n) (a0 + Z.of_nat (length bs0))); [lia |].
    rewrite andb_false_r. apply IH.
    intros a' bs' Hin. apply Hbelow. right. exact Hin.
Qed.

Lemma sampleBun_pinsFaithfully : pinsFaithfully Sample.sampleBun.
Proof.
  intros m bs p m' Hptr.
  unfold ptr in Hptr. cbn in Hptr. unfold Sample.pin in Hptr.
  destruct (Z.ltb_spec (Sample.next_address m + Z.of_nat (length bs)) (2 ^ 32))
    as [Hroom |]; [| discriminate Hptr].
  cbn in Hptr. injection Hptr as <- <-.
  destruct (next_address_beyond m) as [Hlow Hbelow].
  set (a := Sample.next_address m) in *.
  split.
  - exists a. split; [reflexivity |]. split.
    + change (pointerSize Sample.sampleBun) with 8. eval_pow2. lia.
    + intros n Hn. unfold toArrayBuffer. cbn. unfold Sample.read. cbn.
      destruct (Z.eqb_spec a 0); [lia |].
      destruct (Z.ltb_spec n 0); [lia |]. cbn.
      rewrite Z.add_0_r. apply load_last; assumption.
  - intros a' bs' Hr n Hn. specialize (Hr n Hn).
    unfold toArrayBuffer in *. cbn in *. unfold Sample.read in *. cbn in *.
    destruct ((a' =? 0) || (n <? 0)); [discriminate Hr |].
    apply load_keeps. exact Hr.
Qed.



Section LayoutTight.
Context {Memory : Type} (H : Host Memory).

(** One turn of the layout loop appends one entry, placed by
    [alignOffset] after the running offset. *)
Lemma layoutField_entry o lay (field : FieldDef) :
  exists e,
    layoutField H (o, lay) field = (offset e + size e, lay ++ [e])
    /\ name e = field.1.1
    /\ (size e = 1 \/ size e = 2 \/ size e = 4 \/ size e = 8)
    /\ offset e = alignOffset o (Z.max 1 (Z.min (size e) (pointerSize H))).
Proof.
  destruct field as [[nm rawType] rawOptions].
  assert (Hps : pointerSize H = 1 \/ pointerSize H = 2 \/
                pointerSize H = 4 \/ pointerSize H = 8)
    by (destruct (pointerSize_cases H); auto).
  destruct rawType as [t | | t | d]; cbn;
    match goal with |- context [lay ++ [?x]] => exists x end;
    (split; [reflexivity |]); cbn;
    (split; [reflexivity |]); (split; [| reflexivity]);
    auto using primitiveSizes_cases.
Qed.

Lemma layout_fold_names fields o lay :
  name <$> (foldl (layoutField H) (o, lay) fields).2
  = (name <$> lay) ++ ((fun f : FieldDef => f.1.1) <$> fields).
Proof.
  revert o lay. induction fields as [| f fields IH]; intros o lay; cbn [foldl].
  - cbn. rewrite app_nil_r. reflexivity.
  - destruct (layoutField_entry o lay f) as (e & -> & Hn & _).
    rewrite IH, fmap_app, <- app_assoc. cbn. rewrite Hn. reflexivity.
Qed.

Lemma endBefore_app lay e k :
  (k <= length lay)%nat -> endBefore (lay ++ [e]) k = endBefore lay k.
Proof.
  intros Hk. destruct k as [| j]; [reflexivity |]. cbn.
  rewrite lookup_app_l by lia. reflexivity.
Qed.

Lemma layout_fold_tight fields o lay :
  0 <= o <= 16 * Z.of_nat (length lay) ->
  Z.of_nat (length lay + length fields) < 2 ^ 26 ->
  o = endBefore lay (length lay) -> tight H lay ->
  let acc := foldl (layoutField H) (o, lay) fields in
  0 <= acc.1 /\ acc.1 + 16 < 2 ^ 31 /\
  acc.1 = endBefore acc.2 (length acc.2) /\ tight H acc.2.
Proof.
  revert o lay. induction fields as [| f fields IH]; intros o lay Ho Hcount Hend Ht.
  - cbn in *. rewrite Nat.add_0_r in Hcount.
    split; [lia |]. split; [lia |]. split; assumption.
  - cbn [foldl]. cbn [length] in Hcount.
    destruct (layoutField_entry o lay f) as (e & -> & _ & Hsz & Hoff).
    destruct (slot_align H (size e) Hsz) as (k & Hk & Hmax & Hmin).
    assert (Hb : o <= offset e < o + 2 ^ k).
    { rewrite Hoff, Hmax. apply alignOffset_bounds; lia. }
    assert (H2k : 2 ^ k <= size e) by (rewrite <- Hmin; lia).
    apply IH.
    + rewrite length_app. cbn. lia.
    + rewrite length_app. cbn. lia.
    + rewrite length_app. cbn. rewrite Nat.add_1_r. cbn.
      rewrite lookup_app_r by lia. rewrite Nat.sub_diag. reflexivity.
    + intros i e0 Hi. apply lookup_app_Some in Hi as [Hi | [Hlen Hi]].
      * rewrite endBefore_app by (apply lookup_lt_Some in Hi; lia). apply Ht, Hi.
      * apply list_lookup_singleton_Some in Hi as [Hidx <-].
        assert (i = length lay) by lia. subst i.
        rewrite endBefore_app by lia. rewrite <- Hend, Hmin. exact Hb.
Qed.
End LayoutTight.

Section LayoutTheorems.
Context {Memory : Type} (H : Host Memory).

(** X1.  [defineStruct] keeps the fields in their order and gives each
    a slot of its own: every slot has a positive size and lies inside
    the struct, and the slot of an earlier field ends before the slot
    of a later one begins (fewer than 2^26 fields, so that no offset
    leaves the 32-bit range of [alignOffset]). *)
Theorem X1_layout_slots_disjoint (fields : list FieldDef)
    (reduce : option (gmap jsstring JsValue -> gmap jsstring JsValue)) :
  Z.of_nat (length fields) < 2 ^ 26 ->
  name <$> layout (defineStruct H fields reduce)
    = (fun f : FieldDef => f.1.1) <$> fields
  /\ (forall e, e ∈ layout (defineStruct H fields reduce) ->
        0 <= offset e /\ 0 < size e /\
        offset e + size e <= struct_size (defineStruct H fields reduce))
  /\ (forall j k e' e, (j < k)%nat ->
        layout (defineStruct H fields reduce) !! j = Some e' ->
        layout (defineStruct H fields reduce) !! k = Some e ->
        offset e' + size e' <= offset e).
Proof.
  intros Hcount.
  destruct (defineStruct_inOrder H fields reduce Hcount) as [[Hin Hord] _].
  split; [| split].
  - unfold defineStruct.
    pose proof (layout_fold_names H fields 0 []) as Hn.
    destruct (foldl (layoutField H) (0, []) fields) as [o lay]. exact Hn.
  - intros e He. apply list_elem_of_lookup in He as [k Hk].
    destruct (Hin k e Hk) as (Ho & Hend & Hws).
    split; [exact Ho |]. split; [| exact Hend].
    unfold wellSized in Hws. destruct (kind e); rewrite Hws;
      first [ pose proof (primitiveSizes_cases H (type e)); lia
            | pose proof (pointerSize_cases H); lia ].
  - exact Hord.
Qed.

(** X2.  The layout wastes no space beyond alignment: every field
    starts at the first offset that is at or after the end of the field
    before it (0 for the first) and a multiple of its alignment
    min(size, pointer width); the size of the struct is the first
    multiple of the pointer width at or after the end of the last
    field. *)
Theorem X2_layout_is_tight (fields : list FieldDef)
    (reduce : option (gmap jsstring JsValue -> gmap jsstring JsValue)) :
  Z.of_nat (length fields) < 2 ^ 26 ->
  (forall k e, layout (defineStruct H fields reduce) !! k = Some e ->
     Z.rem (offset e) (Z.min (size e) (pointerSize H)) = 0
     /\ endBefore (layout (defineStruct H fields reduce)) k <= offset e
        < endBefore (layout (defineStruct H fields reduce)) k
          + Z.min (size e) (pointerSize H))
  /\ Z.rem (struct_size (defineStruct H fields reduce)) (pointerSize H) = 0
  /\ endBefore (layout (defineStruct H fields reduce))
               (length (layout (defineStruct H fields reduce)))
     <= struct_size (defineStruct H fields reduce)
     < endBefore (layout (defineStruct H fields reduce))
                 (length (layout (defineStruct H fields reduce)))
       + pointerSize H.
Proof.
  intros Hcount. unfold defineStruct.
  assert (Hnil : tight H []).
  { intros k e Hk. rewrite lookup_nil in Hk. discriminate Hk. }
  pose proof (layout_fold_tight H fields 0 [] ltac:(cbn; lia) ltac:(cbn; lia)
                eq_refl Hnil) as (Ho & Hno & Hend & Ht).
  pose proof (layout_fold_aligned H fields (0, []) (Forall_nil_2 _)) as Hal.
  destruct (foldl (layoutField H) (0, []) fields) as [o lay]. cbn in *.
  destruct (pointerSize_pow2 H) as (k & Hk & Hps & Hk8).
  pose proof (alignOffset_bounds o k Hk Ho ltac:(lia)) as Hb.
  rewrite <- Hps in Hb.
  split; [| split].
  - intros i e Hi. split; [| apply Ht, Hi].
    rewrite Forall_forall in Hal. apply Hal. apply list_elem_of_lookup. eauto.
  - rewrite Hps. apply alignOffset_rem. lia.
  - rewrite <- Hend. exact Hb.
Qed.
End LayoutTheorems.

Lemma X1_layout_slots_disjoint_witness :
  name <$> layout (defineStruct Sample.sampleBun scenario None)
    = [str "id"; str "name"; str "tags"; str "tagCount"]
  /\ struct_size (defineStruct Sample.sampleBun scenario None) = 32.
Proof.
  destruct (X1_layout_slots_disjoint Sample.sampleBun scenario None)
    as (Hnames & _ & _).
  - vm_compute. reflexivity.
  - split; [exact Hnames | reflexivity].
Defined.

Lemma X2_layout_is_tight_witness :
  28 <= struct_size (defineStruct Sample.sampleBun scenario None) < 28 + 8.
Proof.
  destruct (X2_layout_is_tight Sample.sampleBun scenario None)
    as (_ & _ & Hsize).
  - vm_compute. reflexivity.
  - exact Hsize.
Defined.

(** ** Loops that can throw *)

Lemma foldM_invariant {A B} (P : A -> Prop) (f : A -> B -> result A)
    (l : list B) (a a' : A) :
  P a ->
  (forall a0 b a1, b ∈ l -> P a0 -> f a0 b = Ok a1 -> P a1) ->
  foldM f a l = Ok a' -> P a'.
Proof.
  revert a. induction l as [| b l IH]; intros a Ha Hstep Hf; cbn in Hf.
  - injection Hf as <-. exact Ha.
  - apply rbind_Ok in Hf as (a1 & Hb & Hf).
    apply (IH a1); [| | exact Hf].
    + apply (Hstep a b a1); [left | exact Ha | exact Hb].
    + intros a0 b0 a2 Hb0. apply Hstep. right. exact Hb0.
Qed.

(** A loop whose body throws at some turn throws. *)
Lemma foldM_Err_at {A B} (f : A -> B -> result A) (l1 l2 : list B) (b : B) (a : A) :
  (forall a0, is_Ok (f a0 b) = false) ->
  is_Ok (foldM f a (l1 ++ b :: l2)) = false.
Proof.
  intros Hb. rewrite foldM_app.
  destruct (foldM f a l1) as [a1 |]; cbn; [| reflexivity].
  specialize (Hb a1). destruct (f a1 b); [discriminate Hb | reflexivity].
Qed.

Section PackShape.
Context {Memory : Type} (H : Host Memory).
Local Abbreviation E := (engine H).

Lemma writeLengthField_length S e view n view' :
  writeLengthField H S e view n = Ok view' -> length view' = length view.
Proof.
  unfold writeLengthField.
  destruct (lengthOf_truthy e) as [target |]; [| intros [= <-]; reflexivity].
  destruct (byName S !! target) as [lenField |]; [| intros [= <-]; reflexivity].
  apply writePrimitive_length.
Qed.

Lemma writeItems_length t es items buf i buf' :
  writeItems H buf t es i items = Ok buf' -> length buf' = length buf.
Proof.
  revert buf i. induction items as [| v items IH]; intros buf i Hw; cbn in Hw.
  - injection Hw as <-. reflexivity.
  - apply rbind_Ok in Hw as (b1 & Hw1 & Hw).
    rewrite (IH _ _ Hw). exact (writePrimitive_length H _ _ _ _ _ Hw1).
Qed.

(** One turn of the loop of [pack], whatever the struct: the buffer
    keeps its length, the retained payloads stay non-empty. *)
Lemma packField_shape S input st e st' :
  packField H S input st e = Ok st' ->
  length (st_view st') = length (st_view st)
  /\ (Forall (fun payload : list byte => payload <> []) (st_allocated st) ->
      Forall (fun payload : list byte => payload <> []) (st_allocated st'))
  /\ (kind e = primitive \/ kind e = enum_kind ->
      st_memory st' = st_memory st /\ st_allocated st' = st_allocated st).
Proof.
  intros Hp. unfold packField in Hp.
  assert (Hturn : forall payload st1,
    (if Nat.eqb (length payload) 0 then
       view ← writePrimitive H (st_view st) pointer (offset e) (VNum (NInt 0));
       Ok {| st_view := view; st_allocated := st_allocated st;
             st_memory := st_memory st |}
     else
       '(p, m') ← ptr H (st_memory st) payload;
       view ← writePrimitive H (st_view st) pointer (offset e) p;
       Ok {| st_view := view; st_allocated := st_allocated st ++ [payload];
             st_memory := m' |}) = Ok st1 ->
    length (st_view st1) = length (st_view st)
    /\ (Forall (fun payload : list byte => payload <> []) (st_allocated st) ->
        Forall (fun payload : list byte => payload <> []) (st_allocated st1))).
  { intros payload st1.
    destruct (Nat.eqb_spec (length payload) 0) as [Hz | Hnz]; intros Ht.
    - apply rbind_Ok in Ht as (view & Hw & [= <-]). cbn.
      split; [exact (writePrimitive_length H _ _ _ _ _ Hw) | auto].
    - apply rbind_Ok in Ht as ([p m'] & _ & Ht).
      apply rbind_Ok in Ht as (view & Hw & [= <-]). cbn.
      split; [exact (writePrimitive_length H _ _ _ _ _ Hw) |].
      intros Hall. apply Forall_app. split; [exact Hall |].
      apply Forall_singleton. intros ->. apply Hnz. reflexivity. }
  destruct (kind e) eqn:Hk.
  - apply rbind_Ok in Hp as (view & Hw & [= <-]). cbn.
    split; [exact (writePrimitive_length H _ _ _ _ _ Hw) |]. split; auto.
  - apply rbind_Ok in Hp as (st1 & Hfirst & Hp).
    apply rbind_Ok in Hp as (view & Hw & [= <-]). cbn.
    destruct (Hturn _ _ Hfirst) as [Hlen Hall].
    split; [rewrite (writeLengthField_length _ _ _ _ _ Hw); exact Hlen |].
    split; [exact Hall |]. intros [? | ?]; discriminate.
  - destruct (enumDef e) as [d |]; [| discriminate Hp].
    apply rbind_Ok in Hp as (n & _ & Hp).
    apply rbind_Ok in Hp as (view & Hw & [= <-]). cbn.
    split; [exact (writePrimitive_length H _ _ _ _ _ Hw) |]. split; auto.
  - apply rbind_Ok in Hp as (arr0 & Hnew & Hp).
    apply rbind_Ok in Hp as (arrBuf & Hitems & Hp).
    apply rbind_Ok in Hp as (st1 & Hfirst & Hp).
    apply rbind_Ok in Hp as (view & Hw & [= <-]). cbn.
    assert (Hempty : Nat.eqb (length arrBuf) 0 = true ->
              Nat.eqb (length match fieldValueOf H input e with
                              | VArr items => items
                              | _ => []
                              end) 0 = true).
    { intros Hz. apply Nat.eqb_eq in Hz. apply Nat.eqb_eq.
      rewrite (writeItems_length _ _ _ _ _ _ Hitems) in Hz.
      apply newArrayBuffer_length in Hnew.
      pose proof (primitiveSizes_pos H (type e)). nia. }
    destruct (Nat.eqb (length match fieldValueOf H input e with
                               | VArr items => items
                               | _ => []
                               end) 0) eqn:Hvals.
    + apply rbind_Ok in Hfirst as (view1 & Hw1 & [= <-]).
      cbn [st_view st_allocated st_memory] in *.
      split; [rewrite (writeLengthField_length _ _ _ _ _ Hw);
              exact (writePrimitive_length H _ _ _ _ _ Hw1) |].
      split; [auto |]. intros [? | ?]; discriminate.
    + apply rbind_Ok in Hfirst as ([p m'] & _ & Hfirst).
      apply rbind_Ok in Hfirst as (view1 & Hw1 & [= <-]).
      cbn [st_view st_allocated st_memory] in *.
      split; [rewrite (writeLengthField_length _ _ _ _ _ Hw);
              exact (writePrimitive_length H _ _ _ _ _ Hw1) |].
      split; [| intros [? | ?]; discriminate].
      intros Hall. apply Forall_app. split; [exact Hall |].
      apply Forall_singleton. intros ->.
      specialize (Hempty eq_refl). discriminate Hempty.
Qed.

(** The buffer keeps the size it was created with, and no retained
    payload is empty. *)
Lemma pack_shape S m value st :
  pack H S m value = Ok st ->
  Z.of_nat (length (st_view st)) = struct_size S
  /\ Forall (fun payload : list byte => payload <> []) (st_allocated st).
Proof.
  intros Hpack. unfold pack in Hpack.
  apply rbind_Ok in Hpack as (buffer & Hbuf & Hfold).
  apply newArrayBuffer_length in Hbuf.
  refine (foldM_invariant
            (fun st => Z.of_nat (length (st_view st)) = struct_size S /\
                       Forall (fun payload : list byte => payload <> [])
                              (st_allocated st))
            _ _ _ _ _ _ Hfold).
  - cbn. split; [exact Hbuf | constructor].
  - intros st0 e st1 _ [Hlen Hall] Hstep.
    destruct (packField_shape S _ st0 e st1 Hstep) as (Hl & Ha & _).
    split; [rewrite Hl; exact Hlen | exact (Ha Hall)].
Qed.

(** X3.  Whatever the struct and the value, the buffer that [pack]
    returns has exactly [size] bytes, and every payload it retains in
    [_refs] is non-empty: nothing is retained for an empty string or
    array. *)
Theorem X3_pack_buffer_size (S : BuiltStruct) (m : Memory)
    (value : gmap jsstring JsValue) (st : PackState) :
  pack H S m value = Ok st ->
  Z.of_nat (length (st_view st)) = struct_size S
  /\ Forall (fun payload : list byte => payload <> []) (st_allocated st).
Proof. apply pack_shape. Qed.

Lemma scalarsOnly_spec S :
  scalarsOnly S = true ->
  forall e, e ∈ layout S -> kind e = primitive \/ kind e = enum_kind.
Proof.
  unfold scalarsOnly. rewrite forallb_forall. intros Hall e He.
  apply list_elem_of_In in He. specialize (Hall e He).
  destruct (kind e); auto; discriminate.
Qed.

Lemma unpackField_scalar S m1 m2 view out e :
  kind e = primitive \/ kind e = enum_kind ->
  unpackField H S m1 view out e = unpackField H S m2 view out e.
Proof.
  intros Hk. unfold unpackField, unpackValue.
  destruct Hk as [-> | ->]; reflexivity.
Qed.

Lemma foldM_ext {A B} (f g : A -> B -> result A) (l : list B) (a : A) :
  (forall a0 b, b ∈ l -> f a0 b = g a0 b) -> foldM f a l = foldM g a l.
Proof.
  revert a. induction l as [| b l IH]; intros a Hfg; cbn.
  - reflexivity.
  - rewrite (Hfg a b) by left. destruct (g a b) as [a1 |]; cbn; [| reflexivity].
    apply IH. intros a0 b0 Hb0. apply Hfg. right. exact Hb0.
Qed.

(** X4.  A struct without string or array fields never involves the
    host memory: [pack] pins nothing and retains nothing, and [unpack]
    returns the same whatever the memory holds. *)
Theorem X4_scalar_struct_leaves_memory (S : BuiltStruct) :
  scalarsOnly S = true ->
  (forall m value st, pack H S m value = Ok st ->
     st_memory st = m /\ st_allocated st = [])
  /\ (forall m1 m2 buffer, unpack H S m1 buffer = unpack H S m2 buffer).
Proof.
  intros Hs. pose proof (scalarsOnly_spec S Hs) as Hkinds. split.
  - intros m value st Hpack. unfold pack in Hpack.
    apply rbind_Ok in Hpack as (buffer & _ & Hfold).
    refine (foldM_invariant
              (fun st => st_memory st = m /\ st_allocated st = [])
              _ _ _ _ _ _ Hfold).
    + cbn. auto.
    + intros st0 e st1 He [Hm Ha] Hstep.
      destruct (packField_shape S _ st0 e st1 Hstep) as (_ & _ & Hsame).
      destruct (Hsame (Hkinds e He)) as [-> ->]. auto.
  - intros m1 m2 buffer. unfold unpack. apply foldM_ext.
    intros out e He. apply unpackField_scalar, Hkinds, He.
Qed.
End PackShape.

(** ** What [unpack] returns *)

Section UnpackShape.
Context {Memory : Type} (H : Host Memory).
Local Abbreviation E := (engine H).

Lemma storesEveryField_spec S :
  storesEveryField H S = true ->
  forall e, e ∈ layout S -> inheritedSetter E (name e) = false.
Proof.
  unfold storesEveryField. rewrite forallb_forall. intros Hall e He.
  apply list_elem_of_In in He. specialize (Hall e He).
  destruct (inheritedSetter E (name e)); [discriminate Hall | reflexivity].
Qed.

(** One turn of the loop of [unpack] on a plain object, for a field
    whose name is not that of the inherited accessor. *)
Lemma unpackField_plain S m view out e :
  inheritedSetter E (name e) = false ->
  unpackField H S m view (plainObject out) e
  = (v ← unpackValue H S m view (plainObject out) e;
     Ok (plainObject (<[name e := match unpackTransform e with
                                  | Some f => f v
                                  | None => v
                                  end]> out))).
Proof.
  intros Hset. unfold unpackField.
  destruct (unpackValue H S m view (plainObject out) e) as [v |]; cbn;
    [| reflexivity].
  apply setProperty_plain. exact Hset.
Qed.

Lemma unpack_fold_dom S m view l out0 out :
  (forall e, e ∈ l -> inheritedSetter E (name e) = false) ->
  foldM (unpackField H S m view) (plainObject out0) l = Ok out ->
  exists o, out = plainObject o
            /\ dom o = dom out0 ∪ list_to_set (name <$> l).
Proof.
  revert out0. induction l as [| e l IH]; intros out0 Hl Hf; cbn in Hf.
  - injection Hf as <-. exists out0. split; [reflexivity |].
    cbn. rewrite union_empty_r_L. reflexivity.
  - rewrite unpackField_plain in Hf by (apply Hl; left).
    apply rbind_Ok in Hf as (out1 & Hstep & Hf).
    apply rbind_Ok in Hstep as (v & _ & [= <-]).
    destruct (IH _ ltac:(intros e' He'; apply Hl; right; exact He') Hf)
      as (o & -> & Hdom).
    exists o. split; [reflexivity |].
    rewrite Hdom, dom_insert_L. cbn.
    rewrite (comm_L (∪) {[name e]}), <- (assoc_L (∪)). reflexivity.
Qed.

(** The loop of [unpack] leaves a property alone once no later field
    has its name. *)
Lemma unpack_fold_other S m view l out0 o nm :
  (forall e, e ∈ l -> inheritedSetter E (name e) = false) ->
  nm ∉ (name <$> l) ->
  foldM (unpackField H S m view) (plainObject out0) l = Ok (plainObject o) ->
  o !! nm = out0 !! nm.
Proof.
  revert out0. induction l as [| e l IH]; intros out0 Hl Hnm Hf; cbn in Hf.
  - injection Hf as <-. reflexivity.
  - cbn in Hnm. apply not_elem_of_cons in Hnm as [Hne Hnm].
    rewrite unpackField_plain in Hf by (apply Hl; left).
    apply rbind_Ok in Hf as (out1 & Hstep & Hf).
    apply rbind_Ok in Hstep as (v & _ & [= <-]).
    rewrite (IH _ ltac:(intros e' He'; apply Hl; right; exact He') Hnm Hf).
    apply lookup_insert_ne. congruence.
Qed.

(** The turn of the loop that decodes the field [e]. *)
Lemma unpack_at S m view l1 e l2 out :
  storesEveryField H S = true ->
  layout S = l1 ++ e :: l2 -> name e ∉ (name <$> l2) ->
  unpack H S m view = Ok out ->
  exists out1 v o,
    out = plainObject o
    /\ foldM (unpackField H S m view) newObject l1 = Ok (plainObject out1)
    /\ unpackValue H S m view (plainObject out1) e = Ok v
    /\ o !! name e
       = Some (match unpackTransform e with
               | Some f => f v
               | None => v
               end).
Proof.
  intros Hstore Hl Hlast Hu.
  pose proof (storesEveryField_spec S Hstore) as Hnames. rewrite Hl in Hnames.
  unfold unpack in Hu. rewrite Hl, foldM_app in Hu.
  apply rbind_Ok in Hu as (out1 & Hbefore & Hu). cbn [foldM] in Hu.
  destruct (unpack_fold_dom S m view l1 ∅ out1) as (o1 & -> & _);
    [intros e' He'; apply Hnames, elem_of_app; left; exact He'
    | exact Hbefore |].
  rewrite unpackField_plain in Hu
    by (apply Hnames, elem_of_app; right; left).
  apply rbind_Ok in Hu as (out2 & Hstep & Hafter).
  apply rbind_Ok in Hstep as (v & Hv & [= <-]).
  assert (Hrest : forall e', e' ∈ l2 -> inheritedSetter E (name e') = false).
  { intros e' He'. apply Hnames, elem_of_app. right. right. exact He'. }
  destruct (unpack_fold_dom S m view l2 _ out Hrest Hafter) as (o & -> & _).
  exists o1, v, o. split; [reflexivity |]. split; [exact Hbefore |].
  split; [exact Hv |].
  rewrite (unpack_fold_other _ _ _ _ _ _ _ Hrest Hlast Hafter).
  apply lookup_insert_eq.
Qed.

(** X5.  When no field of the struct has the name of the inherited
    accessor [__proto__], the object that [unpack] returns has one
    property of its own for each field name and no other, and
    Object.prototype is still behind it. *)
Theorem X5_unpack_keys_are_field_names (S : BuiltStruct) (m : Memory)
    (buffer : list byte) (out : JsObject) :
  storesEveryField H S = true ->
  unpack H S m buffer = Ok out ->
  dom (own out) = list_to_set (name <$> layout S)
  /\ proto out = ObjectPrototype.
Proof.
  intros Hstore Hu. unfold unpack in Hu.
  destruct (unpack_fold_dom S m buffer (layout S) ∅ out
              (storesEveryField_spec S Hstore) Hu) as (o & -> & Hdom).
  cbn. rewrite Hdom, dom_empty_L. split; [apply union_empty_l_L | reflexivity].
Qed.

(** X6.  When no field has the name of the inherited accessor
    [__proto__]: a scalar field unpacks to what [readPrimitive] reads
    at its offset, and an enum field to the name that the number read
    there stands for, each passed through the field's [unpackTransform]
    when it has one; of several fields of one name the last one
    decides. *)
Theorem X6_unpack_reads_each_slot (S : BuiltStruct) (m : Memory)
    (buffer : list byte) (out : JsObject)
    (l1 l2 : list LayoutEntry) (e : LayoutEntry) :
  storesEveryField H S = true ->
  layout S = l1 ++ e :: l2 -> name e ∉ (name <$> l2) ->
  unpack H S m buffer = Ok out ->
  match kind e with
  | primitive =>
      exists v, readPrimitive H buffer (type e) (offset e) = Ok v
        /\ own out !! name e = Some (match unpackTransform e with
                                     | Some f => f v
                                     | None => v
                                     end)
  | enum_kind =>
      exists v d nm, readPrimitive H buffer (type e) (offset e) = Ok v
        /\ enumDef e = Some d
        /\ EnumDef_from d (ToNumber E v) = Ok nm
        /\ own out !! name e = Some (match unpackTransform e with
                                     | Some f => f (VStr nm)
                                     | None => VStr nm
                                     end)
  | char_ptr | array => True
  end.
Proof.
  intros Hstore Hl Hlast Hu.
  destruct (unpack_at S m buffer l1 e l2 out Hstore Hl Hlast Hu)
    as (out1 & v & o & -> & _ & Hv & Hout).
  unfold unpackValue in Hv. destruct (kind e); try exact I.
  - exists v. auto.
  - apply rbind_Ok in Hv as (raw & Hraw & Hv).
    destruct (enumDef e) as [d |]; [| discriminate Hv].
    apply rbind_Ok in Hv as (nm & Hnm & [= <-]).
    exists raw, d, nm. auto.
Qed.
End UnpackShape.

(** ** Null pointers in [unpack] *)

Section NullPointer.
Context {Memory : Type} (H : Host Memory).
Local Abbreviation E := (engine H).

(** With a null pointer in its slot a string or array field decodes as
    empty as soon as its length was looked up. *)
Lemma unpackValue_null S m view out e :
  kind e = char_ptr \/ kind e = array ->
  readPrimitive H view pointer (offset e) = Ok (VBig 0) ->
  unpackValue H S m view out e
  = (len ← getLengthFieldValue H S view out (lengthFieldOf S e);
     Ok (match kind e with
         | char_ptr => VStr []
         | _ => VArr []
         end)).
Proof.
  intros Hkind Hptr. unfold unpackValue.
  destruct Hkind as [-> | ->]; rewrite Hptr; cbn;
    destruct (getLengthFieldValue H S view out (lengthFieldOf S e));
    reflexivity.
Qed.

(** The lookup of a length returns, on a plain object and a buffer that
    holds the whole struct, when the length field is a scalar or an
    enum. *)
Lemma getLengthFieldValue_returns fields reduce view out fieldName :
  Z.of_nat (length fields) < 2 ^ 26 ->
  struct_size (defineStruct H fields reduce) <= Z.of_nat (length view) ->
  (forall ln L, fieldName = Some ln ->
     byName (defineStruct H fields reduce) !! ln = Some L ->
     kind L = primitive \/ kind L = enum_kind) ->
  exists len,
    getLengthFieldValue H (defineStruct H fields reduce) view (plainObject out)
                        fieldName = Ok len.
Proof.
  intros Hcount Hsize Hscalar.
  destruct (defineStruct_inOrder H fields reduce Hcount) as [[Hin _] _].
  unfold getLengthFieldValue. destruct fieldName as [[| c s] |]; eauto.
  rewrite getProperty_plain. cbn.
  destruct (negb (is_undefined (prop E out (c :: s)))); eauto.
  destruct (byName (defineStruct H fields reduce) !! (c :: s)) as [L |] eqn:HL;
    eauto.
  destruct (defineStruct_byName H _ _ _ _ HL) as [HLin _].
  apply list_elem_of_lookup in HLin as [j Hj].
  destruct (Hin j L Hj) as (Ho & Hend & Hws).
  assert (Hw : size L = primitiveSizes H (type L)).
  { unfold wellSized in Hws.
    destruct (Hscalar _ L eq_refl HL) as [Hk | Hk]; rewrite Hk in Hws; exact Hws. }
  destruct (readPrimitive_inside H view (type L) (offset L) Ho ltac:(lia))
    as [v ->].
  cbn. eauto.
Qed.

(** C5, as amended.  In a struct of fewer than 2^26 fields none of which
    has the name of the inherited accessor [__proto__], unpacked from a
    buffer that holds the whole struct: a string or array field whose
    pointer slot holds the null pointer, and whose length field (if it
    has one) is a scalar or an enum, unpacks to the empty string, or the
    empty array, passed through its [unpackTransform] when it has one,
    whatever its length field holds.  Its turn of the loop raises no
    error and does not look at the host memory; and when [unpack]
    returns, the object holds that value for the field, unless a later
    field has the same name. *)
Theorem C5_null_pointer_unpacks_empty (fields : list FieldDef)
    (reduce : option (gmap jsstring JsValue -> gmap jsstring JsValue))
    (m : Memory) (buffer : list byte) (k : nat) (e : LayoutEntry) :
  Z.of_nat (length fields) < 2 ^ 26 ->
  storesEveryField H (defineStruct H fields reduce) = true ->
  layout (defineStruct H fields reduce) !! k = Some e ->
  kind e = char_ptr \/ kind e = array ->
  struct_size (defineStruct H fields reduce) <= Z.of_nat (length buffer) ->
  (forall ln L,
     lengthFieldOf (defineStruct H fields reduce) e = Some ln ->
     byName (defineStruct H fields reduce) !! ln = Some L ->
     kind L = primitive \/ kind L = enum_kind) ->
  readPrimitive H buffer pointer (offset e) = Ok (VBig 0) ->
  let empty := match kind e with
               | char_ptr => VStr []
               | _ => VArr []
               end in
  let decoded := match unpackTransform e with
                 | Some f => f empty
                 | None => empty
                 end in
  (forall out,
     unpackField H (defineStruct H fields reduce) m buffer (plainObject out) e
     = Ok (plainObject (<[name e := decoded]> out)))
  /\ (forall out,
        unpack H (defineStruct H fields reduce) m buffer = Ok out ->
        name e ∉ (name <$> drop (Datatypes.S k)
                                (layout (defineStruct H fields reduce))) ->
        own out !! name e = Some decoded).
Proof.
  intros Hcount Hstore Hk Hkind Hsize Hscalar Hptr empty decoded.
  set (S := defineStruct H fields reduce) in *.
  assert (He : e ∈ layout S) by (apply list_elem_of_lookup; eauto).
  pose proof (storesEveryField_spec H S Hstore e He) as Hset.
  split.
  - intros out. rewrite unpackField_plain by exact Hset.
    rewrite (unpackValue_null S m buffer _ e Hkind Hptr).
    destruct (getLengthFieldValue_returns fields reduce buffer out
                (lengthFieldOf S e) Hcount Hsize Hscalar) as [len Hlen].
    fold S in Hlen. rewrite Hlen. reflexivity.
  - intros out Hu Hlast.
    destruct (unpack_at H S m buffer _ e _ out Hstore
                (eq_sym (take_drop_middle _ _ _ Hk)) Hlast Hu)
      as (out1 & v & o & -> & _ & Hv & Hout).
    rewrite (unpackValue_null S m buffer _ e Hkind Hptr) in Hv.
    apply rbind_Ok in Hv as (len & _ & [= <-]).
    exact Hout.
Qed.
End NullPointer.

Lemma C5_null_pointer_unpacks_empty_witness :
  unpackField Sample.sampleBun
    (defineStruct Sample.sampleBun nameAndLength None) [] nullWithLength
    (plainObject ∅) nameEntry
  = Ok (plainObject (<[str "name" := VStr []]> ∅))
  /\ forall out,
       unpack Sample.sampleBun (defineStruct Sample.sampleBun nameAndLength None)
              [] nullWithLength = Ok out ->
       own out !! str "name" = Some (VStr []).
Proof.
  destruct (C5_null_pointer_unpacks_empty Sample.sampleBun nameAndLength None
              [] nullWithLength 0 nameEntry) as [Hturn Hwhole].
  - cbn. lia.
  - vm_compute. reflexivity.
  - vm_compute. reflexivity.
  - left. reflexivity.
  - vm_compute. discriminate.
  - intros ln L Hln HL. vm_compute in Hln. injection Hln as <-.
    vm_compute in HL. injection HL as <-. left. reflexivity.
  - reflexivity.
  - split; [exact (Hturn ∅) |].
    intros out Hu. apply (Hwhole out Hu).
    apply (bool_decide_unpack _). vm_compute. exact I.
Defined.

(** C5 as stated fails: the buffer holds a null pointer and the length
    5, and [unpack] returns a value, with the empty string for the
    field. *)
Lemma C5_null_pointer_raises_nothing :
  readPrimitive Sample.sampleBun nullWithLength pointer 0 = Ok (VBig 0)
  /\ readPrimitive Sample.sampleBun nullWithLength u32 8 = Ok (VNum (NInt 5))
  /\ unpack Sample.sampleBun (defineStruct Sample.sampleBun nameAndLength None)
            [] nullWithLength
     = Ok (plainObject
             (<[str "nameLen" := VNum (NInt 5)]> (<[str "name" := VStr []]> ∅))).
Proof.
  split; [| split]; vm_compute; reflexivity.
Qed.

(** ** Where [pack] and [unpack] throw *)

Section Throws.
Context {Memory : Type} (H : Host Memory).
Local Abbreviation E := (engine H).

(** X7.  [pack] throws when the value of an enum field (after its
    default, transform and [optional] were applied) is not a number and
    its string is neither a declared name nor the name of a member of
    Object.prototype; so it throws for an enum field that is left unset
    and has no default, optional or not, unless the mapping declares
    the name "undefined" (or "null"). *)
Theorem X7_pack_rejects_undeclared_enum (S : BuiltStruct) (m : Memory)
    (value : gmap jsstring JsValue) (l1 l2 : list LayoutEntry)
    (e : LayoutEntry) (d : EnumDef) :
  layout S = l1 ++ e :: l2 ->
  kind e = enum_kind -> enumDef e = Some d ->
  (forall n, fieldValueOf H (packInput S value) e <> VNum n) ->
  ToString E (fieldValueOf H (packInput S value) e) ∉ (enum d).*1 ->
  inherited E (ToString E (fieldValueOf H (packInput S value) e)) = VUndefined ->
  is_Ok (pack H S m value) = false
  /\ EnumDef_to E d (fieldValueOf H (packInput S value) e)
     = Err (InvalidEnumValue (ToString E (fieldValueOf H (packInput S value) e))).
Proof.
  intros Hl Hk Hd Hnum Hname Hinh.
  assert (Hto : EnumDef_to E d (fieldValueOf H (packInput S value) e)
                = Err (InvalidEnumValue
                         (ToString E (fieldValueOf H (packInput S value) e)))).
  { unfold EnumDef_to. rewrite Map_get_absent by exact Hname. rewrite Hinh.
    destruct (fieldValueOf H (packInput S value) e); try reflexivity.
    exfalso. exact (Hnum _ eq_refl). }
  split; [| exact Hto].
  unfold pack. destruct (newArrayBuffer (struct_size S)); [| reflexivity]. cbn.
  rewrite Hl. apply foldM_Err_at. intros st.
  unfold packField. rewrite Hk, Hd, Hto. reflexivity.
Qed.

(** X8.  [unpack] throws when the slot of an enum field holds a number
    that the mapping does not declare: there is no default name. *)
Theorem X8_unpack_rejects_undeclared_enum (S : BuiltStruct) (m : Memory)
    (buffer : list byte) (l1 l2 : list LayoutEntry) (e : LayoutEntry)
    (mapping : list (jsstring * number)) (base : option PrimitiveType)
    (v : JsValue) :
  layout S = l1 ++ e :: l2 ->
  kind e = enum_kind -> enumDef e = Some (defineEnum mapping base) ->
  readPrimitive H buffer (type e) (offset e) = Ok v ->
  ToNumber E v ∉ (mapping.*2) ->
  is_Ok (unpack H S m buffer) = false
  /\ EnumDef_from (defineEnum mapping base) (ToNumber E v)
     = Err (InvalidEnumNumeric (ToNumber E v)).
Proof.
  intros Hl Hk Hd Hv Hnum.
  assert (Hfrom : EnumDef_from (defineEnum mapping base) (ToNumber E v)
                  = Err (InvalidEnumNumeric (ToNumber E v))).
  { unfold EnumDef_from, defineEnum. cbn.
    rewrite reverse_fold_absent by exact Hnum. reflexivity. }
  split; [| exact Hfrom].
  unfold unpack. rewrite Hl. apply foldM_Err_at. intros out.
  unfold unpackField, unpackValue. rewrite Hk, Hv. cbn. rewrite Hd, Hfrom.
  reflexivity.
Qed.

(** What [readPrimitive] returns is a number, a bigint or a boolean. *)
Lemma readPrimitive_scalar view t o v :
  readPrimitive H view t o = Ok v -> isObject v = false /\ v <> VNull.
Proof.
  rewrite readPrimitive_image. intros Hr.
  apply rbind_Ok in Hr as (bs & _ & [= <-]).
  destruct t; cbn; split; congruence.
Qed.

(** Assigning a number, a bigint or a boolean to a property of a plain
    object never throws and leaves Object.prototype behind it. *)
Lemma setProperty_scalar (o : JsObject) k v :
  proto o = ObjectPrototype -> isObject v = false -> v <> VNull ->
  exists o', setProperty E o k v = Ok o' /\ proto o' = ObjectPrototype.
Proof.
  intros Hp Hobj Hnull. destruct o as [props p]. cbn in Hp. subst p.
  unfold setProperty. cbn.
  destruct (props !! k); [eexists; split; reflexivity |].
  destruct (inheritedSetter E k); eexists; (split; [reflexivity |]); cbn;
    [| reflexivity].
  rewrite Hobj. destruct v; try reflexivity.
  exfalso. apply Hnull. reflexivity.
Qed.

(** Assigning to a name other than the inherited accessor never throws
    on a plain object and leaves Object.prototype behind it. *)
Lemma setProperty_ordinary (o : JsObject) k v :
  proto o = ObjectPrototype -> inheritedSetter E k = false ->
  exists o', setProperty E o k v = Ok o' /\ proto o' = ObjectPrototype.
Proof.
  intros Hp Hk. destruct o as [props p]. cbn in Hp. subst p.
  unfold setProperty. cbn. rewrite Hk.
  destruct (props !! k); eexists; split; reflexivity.
Qed.

(** X9.  [unpack] reads the slot of every field: it throws on a buffer
    that ends before the end of the slot of some field; and a struct of
    fewer than 2^26 scalar fields (no enum) unpacks from every buffer of
    at least [size] bytes, unless a field that has the name of the
    inherited accessor [__proto__] carries an [unpackTransform]. *)
Theorem X9_unpack_needs_every_slot (fields : list FieldDef)
    (reduce : option (gmap jsstring JsValue -> gmap jsstring JsValue))
    (m : Memory) (buffer : list byte) :
  Z.of_nat (length fields) < 2 ^ 26 ->
  (forall e, e ∈ layout (defineStruct H fields reduce) ->
     Z.of_nat (length buffer) < offset e + size e ->
     is_Ok (unpack H (defineStruct H fields reduce) m buffer) = false)
  /\ ((forall e, e ∈ layout (defineStruct H fields reduce) ->
         kind e = primitive
         /\ (unpackTransform e = None \/ inheritedSetter E (name e) = false)) ->
      struct_size (defineStruct H fields reduce) <= Z.of_nat (length buffer) ->
      is_Ok (unpack H (defineStruct H fields reduce) m buffer) = true).
Proof.
  intros Hcount.
  destruct (defineStruct_inOrder H fields reduce Hcount) as [[Hin _] _].
  set (S := defineStruct H fields reduce) in *.
  split.
  - intros e He Hshort.
    pose proof He as Hidx. apply list_elem_of_lookup in Hidx as [k Hk].
    destruct (Hin k e Hk) as (_ & _ & Hws).
    apply list_elem_of_split in He as (l1 & l2 & Hl).
    unfold unpack. rewrite Hl. apply foldM_Err_at. intros out.
    unfold unpackField, unpackValue, wellSized in *.
    destruct (kind e); rewrite Hws in Hshort;
      rewrite readPrimitive_outside by (cbn; lia); reflexivity.
  - intros Hprim Hlen. unfold unpack.
    assert (Hall : forall e, e ∈ layout S ->
              (kind e = primitive
               /\ (unpackTransform e = None \/ inheritedSetter E (name e) = false))
              /\ 0 <= offset e /\
              offset e + primitiveSizes H (type e) <= Z.of_nat (length buffer)).
    { intros e He. pose proof (Hprim e He) as [Hk Ht].
      apply list_elem_of_lookup in He as [k Hidx].
      destruct (Hin k e Hidx) as (Ho & Hend & Hws).
      unfold wellSized in Hws. rewrite Hk in Hws. rewrite <- Hws.
      split; [split; [exact Hk | exact Ht] |]. lia. }
    clear Hprim Hin.
    assert (Hstart : proto newObject = ObjectPrototype) by reflexivity.
    revert Hstart. generalize newObject.
    induction (layout S) as [| e l IH]; intros out Hout; cbn.
    + reflexivity.
    + destruct (Hall e ltac:(left)) as ([Hk Ht] & Ho & Hend).
      unfold unpackField, unpackValue. rewrite Hk.
      destruct (readPrimitive_inside H buffer (type e) (offset e) Ho Hend)
        as [v Hv]. rewrite Hv. cbn.
      assert (Hstep : exists out',
                setProperty E out (name e)
                  match unpackTransform e with
                  | Some f => f v
                  | None => v
                  end = Ok out' /\ proto out' = ObjectPrototype).
      { destruct Ht as [Ht | Ht].
        - rewrite Ht.
          destruct (readPrimitive_scalar _ _ _ _ Hv) as [Hobj Hnull].
          exact (setProperty_scalar out (name e) v Hout Hobj Hnull).
        - exact (setProperty_ordinary out (name e) _ Hout Ht). }
      destruct Hstep as (out' & -> & Hout'). cbn.
      apply IH; [| exact Hout'].
      intros e' He'. apply Hall. right. exact He'.
Qed.

Lemma inferred_fold (l : list LayoutEntry) (acc : gmap jsstring jsstring)
    (nm ln : jsstring) :
  foldl (fun m entry =>
           match lengthOf_truthy entry with
           | None => m
           | Some target =>
               match kind entry with
               | primitive | enum_kind => <[target := name entry]> m
               | _ => m
               end
           end) acc l !! nm = Some ln ->
  (exists L, L ∈ l /\ (kind L = primitive \/ kind L = enum_kind) /\
             lengthOf_truthy L = Some nm /\ name L = ln)
  \/ acc !! nm = Some ln.
Proof.
  revert acc. induction l as [| e l IH]; intros acc Hl; cbn in Hl.
  - right. exact Hl.
  - destruct (IH _ Hl) as [(L & HL & Hrest) | Hacc].
    + left. exists L. split; [right; exact HL | exact Hrest].
    + destruct (lengthOf_truthy e) as [target |] eqn:Ht; [| right; exact Hacc].
      destruct (kind e) eqn:Hk; try (right; exact Hacc).
      * rewrite lookup_insert in Hacc.
        destruct (decide (target = nm)) as [-> | Hne]; [| right; exact Hacc].
        injection Hacc as <-. left. exists e.
        split; [left |]. auto.
      * rewrite lookup_insert in Hacc.
        destruct (decide (target = nm)) as [-> | Hne]; [| right; exact Hacc].
        injection Hacc as <-. left. exists e.
        split; [left |]. auto.
Qed.

(** X10.  When no field has the name of the inherited accessor
    [__proto__]: a string or array field that declares no [lengthOf],
    that no scalar or enum field of the struct is declared [lengthOf],
    and whose name no later field repeats, unpacks as the empty string,
    or the empty array (passed through its [unpackTransform] when it has
    one), whatever the buffer and the host memory hold: [unpack] never
    guesses a length. *)
Theorem X10_no_length_field_unpacks_empty (fields : list FieldDef)
    (reduce : option (gmap jsstring JsValue -> gmap jsstring JsValue))
    (m : Memory) (buffer : list byte) (out : JsObject)
    (l1 l2 : list LayoutEntry) (e : LayoutEntry) :
  storesEveryField H (defineStruct H fields reduce) = true ->
  layout (defineStruct H fields reduce) = l1 ++ e :: l2 ->
  name e ∉ (name <$> l2) ->
  kind e = char_ptr \/ kind e = array ->
  lengthOf e = None ->
  (forall L, L ∈ layout (defineStruct H fields reduce) ->
     kind L = primitive \/ kind L = enum_kind ->
     lengthOf_truthy L <> Some (name e)) ->
  unpack H (defineStruct H fields reduce) m buffer = Ok out ->
  own out !! name e
  = Some (let empty := match kind e with
                       | char_ptr => VStr []
                       | _ => VArr []
                       end in
          match unpackTransform e with
          | Some f => f empty
          | None => empty
          end).
Proof.
  intros Hstore Hl Hlast Hk Hlen Hnone Hu.
  destruct (unpack_at H _ m buffer l1 e l2 out Hstore Hl Hlast Hu)
    as (out1 & v & o & -> & _ & Hv & Hout).
  assert (Hfield : lengthFieldOf (defineStruct H fields reduce) e = None).
  { unfold lengthFieldOf. rewrite Hlen.
    destruct (inferredLengthFieldFor (defineStruct H fields reduce) !! name e)
      as [ln |] eqn:Hinf; [| reflexivity].
    exfalso. revert Hinf Hnone. unfold defineStruct.
    destruct (foldl (layoutField H) (0, []) fields) as [o' lay]. cbn.
    intros Hinf Hnone.
    destruct (inferred_fold lay ∅ _ _ Hinf) as [(L & HL & HkL & HlL & _) | Hempty].
    - exact (Hnone L HL HkL HlL).
    - rewrite lookup_empty in Hempty. discriminate Hempty. }
  change (own (plainObject o)) with o. rewrite Hout. f_equal.
  unfold unpackValue in Hv. rewrite Hfield in Hv.
  destruct Hk as [Hk | Hk]; rewrite Hk in *;
    apply rbind_Ok in Hv as (p & _ & Hv); cbn in Hv;
    rewrite orb_true_r in Hv; injection Hv as <-; reflexivity.
Qed.
End Throws.

(** ** The slot of one scalar field after [pack] *)

Section PackedSlot.
Context {Memory : Type} (H : Host Memory).
Local Abbreviation E := (engine H).

(** The slot of a scalar field holds the image of the value that the
    first half of its turn computed. *)
Lemma packed_slot fields reduce m value st k e :
  Z.of_nat (length fields) < 2 ^ 26 ->
  lengthOnScalarsOnly (defineStruct H fields reduce) = true ->
  pack H (defineStruct H fields reduce) m value = Ok st ->
  layout (defineStruct H fields reduce) !! k = Some e ->
  kind e = primitive ->
  exists x,
    scalarImage H (type e)
      (fieldValueOf H (packInput (defineStruct H fields reduce) value) e) = Ok x
    /\ view_get (st_view st) (offset e) (widthOf H (type e))
       = Ok (le_split (widthOf H (type e)) x).
Proof.
  intros Hcount Hscal Hpack Hk Hkind.
  destruct (pack_at H fields reduce m value st k e Hcount Hscal Hpack Hk)
    as (st1 & st2 & Hstep & _ & _ & _ & Hslot).
  destruct (defineStruct_inOrder H fields reduce Hcount) as [[Hin _] _].
  destruct (Hin k e Hk) as (_ & _ & Hws).
  unfold wellSized in Hws. rewrite Hkind in Hws.
  unfold packField in Hstep. rewrite Hkind in Hstep.
  apply rbind_Ok in Hstep as (view & Hw & [= <-]). cbn in Hslot.
  destruct (writePrimitive_slot H _ _ _ _ _ Hw) as (x & Hx & Hget).
  exists x. split; [exact Hx |].
  rewrite Hws in Hslot. fold (widthOf H (type e)) in Hslot.
  rewrite Hslot. exact Hget.
Qed.

(** X11.  A scalar field declared [lengthOf] an array field is packed
    from the number of elements of the array, and one declared
    [lengthOf] an ArrayBuffer or a typed array from its byte length,
    whatever the caller gave for the field itself. *)
Theorem X11_derived_length_of_arrays (fields : list FieldDef)
    (reduce : option (gmap jsstring JsValue -> gmap jsstring JsValue))
    (m : Memory) (value : gmap jsstring JsValue) (st : PackState)
    (k : nat) (L : LayoutEntry) (source : jsstring) (n : Z) :
  Z.of_nat (length fields) < 2 ^ 26 ->
  lengthOnScalarsOnly (defineStruct H fields reduce) = true ->
  layout (defineStruct H fields reduce) !! k = Some L ->
  kind L = primitive ->
  lengthOf_truthy L = Some source ->
  match prop E (packInput (defineStruct H fields reduce) value) source with
  | VArr items => n = Z.of_nat (length items)
  | VBuf bytes => n = Z.of_nat (length bytes)
  | _ => False
  end ->
  pack H (defineStruct H fields reduce) m value = Ok st ->
  exists x,
    scalarImage H (type L) (VNum (NInt n)) = Ok x
    /\ view_get (st_view st) (offset L) (widthOf H (type L))
       = Ok (le_split (widthOf H (type L)) x)
    /\ (fits H (type L) (VNum (NInt n)) = true ->
        readPrimitive H (st_view st) (type L) (offset L) = Ok (VNum (NInt n))).
Proof.
  intros Hcount Hscal Hk Hkind Hl Hsrc Hpack.
  destruct (packed_slot fields reduce m value st k L Hcount Hscal Hpack Hk Hkind)
    as (x & Hx & Hget).
  assert (Hfv : fieldValueOf H (packInput (defineStruct H fields reduce) value) L
                = VNum (NInt n)).
  { unfold fieldValueOf. rewrite Hkind, Hl.
    destruct (prop E (packInput (defineStruct H fields reduce) value) source);
      try contradiction; subst n; reflexivity. }
  rewrite Hfv in Hx. exists x. split; [exact Hx |]. split; [exact Hget |].
  intros Hfit. exact (readPrimitive_fits H _ _ _ _ x Hfit Hx Hget).
Qed.

(** X12.  In a struct of fewer than 2^26 fields whose string and array
    fields carry no [lengthOf] of their own, the derived length replaces
    the value of a [lengthOf] field only when reading the source from
    the value gives a string, an array or a buffer: when it gives
    anything else, a [lengthOf] field without [packTransform] is packed
    from what reading its own name gives, or from its default when that
    is undefined. *)
Theorem X12_length_without_source (fields : list FieldDef)
    (reduce : option (gmap jsstring JsValue -> gmap jsstring JsValue))
    (m : Memory) (value : gmap jsstring JsValue) (st : PackState)
    (k : nat) (L : LayoutEntry) (source : jsstring) :
  Z.of_nat (length fields) < 2 ^ 26 ->
  lengthOnScalarsOnly (defineStruct H fields reduce) = true ->
  layout (defineStruct H fields reduce) !! k = Some L ->
  kind L = primitive ->
  lengthOf_truthy L = Some source ->
  packTransform L = None ->
  derivedLength H (packInput (defineStruct H fields reduce) value) source = None ->
  pack H (defineStruct H fields reduce) m value = Ok st ->
  let given := effective H (packInput (defineStruct H fields reduce) value) L in
  exists x,
    scalarImage H (type L) given = Ok x
    /\ view_get (st_view st) (offset L) (widthOf H (type L))
       = Ok (le_split (widthOf H (type L)) x)
    /\ (fits H (type L) given = true ->
        readPrimitive H (st_view st) (type L) (offset L) = Ok given).
Proof.
  intros Hcount Hscal Hk Hkind Hl Ht Hsrc Hpack given.
  destruct (packed_slot fields reduce m value st k L Hcount Hscal Hpack Hk Hkind)
    as (x & Hx & Hget).
  set (input := packInput (defineStruct H fields reduce) value) in *.
  assert (Himg : scalarImage H (type L) (fieldValueOf H input L)
                 = scalarImage H (type L) given).
  { unfold fieldValueOf, given, effective. rewrite Hkind, Hl, Ht.
    unfold derivedLength in Hsrc.
    set (v := if is_undefined (prop E input (name L)) &&
                 negb (is_undefined (defaultValue L))
              then defaultValue L else prop E input (name L)).
    assert (Hv : match prop E input source with
                 | VStr _ | VArr _ | VBuf _ => False
                 | _ => True
                 end) by (destruct (prop E input source); try discriminate; exact I).
    replace (match prop E input source with
             | VStr sourceValue =>
                 VNum (NInt (Z.of_nat (length (utf8_encode E sourceValue))))
             | VArr sourceValue => VNum (NInt (Z.of_nat (length sourceValue)))
             | VBuf sourceValue => VNum (NInt (Z.of_nat (length sourceValue)))
             | _ => v
             end) with v
      by (destruct (prop E input source); try contradiction; reflexivity).
    destruct (is_undefined v && optional L) eqn:Hopt; [| reflexivity].
    apply andb_prop in Hopt as [Hu _].
    destruct v; try discriminate Hu.
    destruct (type L); reflexivity. }
  rewrite Himg in Hx. exists x. split; [exact Hx |]. split; [exact Hget |].
  intros Hfit. exact (readPrimitive_fits H _ _ _ _ x Hfit Hx Hget).
Qed.

Lemma scalarImage_nullish t v :
  nullish v = true -> scalarImage H t v = scalarImage H t (VNum (NInt 0)).
Proof. destruct v; try discriminate; intros _; destruct t; reflexivity. Qed.

Lemma le_split_zero n : le_split n 0 = replicate n Byte.x00.
Proof.
  induction n as [| n IH]; [reflexivity |].
  change (le_split (Datatypes.S n) 0) with (byte.of_Z 0 :: le_split n 0).
  rewrite IH. reflexivity.
Qed.

(** X13.  In a struct of fewer than 2^26 fields whose string and array
    fields carry no [lengthOf] of their own, a scalar field for which
    reading the value gives undefined or null and that has neither a
    default, a [packTransform] nor a [lengthOf] is packed as the number
    0 would be, optional or not: for every type but the two
    floating-point ones (whose image of 0 is the engine's) its slot is
    all zero bytes. *)
Theorem X13_unset_scalar_packs_zero (fields : list FieldDef)
    (reduce : option (gmap jsstring JsValue -> gmap jsstring JsValue))
    (m : Memory) (value : gmap jsstring JsValue) (st : PackState)
    (k : nat) (e : LayoutEntry) :
  Z.of_nat (length fields) < 2 ^ 26 ->
  lengthOnScalarsOnly (defineStruct H fields reduce) = true ->
  layout (defineStruct H fields reduce) !! k = Some e ->
  kind e = primitive ->
  lengthOf_truthy e = None -> packTransform e = None ->
  defaultValue e = VUndefined ->
  nullish (prop E (packInput (defineStruct H fields reduce) value) (name e)) = true ->
  pack H (defineStruct H fields reduce) m value = Ok st ->
  exists x,
    scalarImage H (type e) (VNum (NInt 0)) = Ok x
    /\ view_get (st_view st) (offset e) (widthOf H (type e))
       = Ok (le_split (widthOf H (type e)) x)
    /\ (type e <> f32 -> type e <> f64 ->
        view_get (st_view st) (offset e) (widthOf H (type e))
        = Ok (replicate (widthOf H (type e)) Byte.x00)).
Proof.
  intros Hcount Hscal Hk Hkind Hl Ht Hd Hnull Hpack.
  destruct (packed_slot fields reduce m value st k e Hcount Hscal Hpack Hk Hkind)
    as (x & Hx & Hget).
  set (input := packInput (defineStruct H fields reduce) value) in *.
  assert (Hfv : nullish (fieldValueOf H input e) = true).
  { unfold fieldValueOf. rewrite Hkind, Hl, Ht, Hd. cbn.
    rewrite andb_false_r.
    destruct (prop E input (name e)); try discriminate Hnull;
      cbn; destruct (optional e); reflexivity. }
  rewrite (scalarImage_nullish _ _ Hfv) in Hx.
  exists x. split; [exact Hx |]. split; [exact Hget |].
  intros Hf32 Hf64. rewrite Hget. f_equal.
  assert (x = 0); [| subst x; apply le_split_zero].
  destruct (type e); cbn in Hx; try congruence.
  destruct (pointerSize H =? 8); injection Hx as <-; reflexivity.
Qed.
End PackedSlot.

(** ** Single fields and single scalars *)

Section FieldRoundTrip.
Context {Memory : Type} (H : Host Memory).
Local Abbreviation E := (engine H).

(** X14.  In a struct of fewer than 2^26 fields whose string and array
    fields carry no [lengthOf] of their own and none of whose fields has
    the name of the inherited accessor [__proto__], a scalar field whose
    name no later field repeats makes the round trip on its own,
    whatever the other fields hold: when the value that [pack] computes
    for it (what reading its name gives, or the default, passed through
    [packTransform], or the derived length) fits its type, [unpack] of
    the packed buffer returns that value for it, passed through
    [unpackTransform]. *)
Theorem X14_scalar_field_round_trip (fields : list FieldDef)
    (reduce : option (gmap jsstring JsValue -> gmap jsstring JsValue))
    (m m' : Memory) (value : gmap jsstring JsValue) (st : PackState)
    (out : JsObject) (k : nat) (e : LayoutEntry) :
  Z.of_nat (length fields) < 2 ^ 26 ->
  lengthOnScalarsOnly (defineStruct H fields reduce) = true ->
  storesEveryField H (defineStruct H fields reduce) = true ->
  layout (defineStruct H fields reduce) !! k = Some e ->
  name e ∉ (name <$> drop (Datatypes.S k) (layout (defineStruct H fields reduce))) ->
  kind e = primitive ->
  fits H (type e)
       (fieldValueOf H (packInput (defineStruct H fields reduce) value) e) = true ->
  pack H (defineStruct H fields reduce) m value = Ok st ->
  unpack H (defineStruct H fields reduce) m' (st_view st) = Ok out ->
  own out !! name e
  = Some (let v := fieldValueOf H (packInput (defineStruct H fields reduce) value) e in
          match unpackTransform e with
          | Some f => f v
          | None => v
          end).
Proof.
  intros Hcount Hscal Hstore Hk Hlast Hkind Hfit Hpack Hunpack.
  destruct (packed_slot H fields reduce m value st k e Hcount Hscal Hpack Hk Hkind)
    as (x & Hx & Hget).
  pose proof (readPrimitive_fits H _ _ _ _ x Hfit Hx Hget) as Hread.
  destruct (unpack_at H _ m' (st_view st) _ e _ out Hstore
              (eq_sym (take_drop_middle _ _ _ Hk)) Hlast Hunpack)
    as (out1 & v & o & -> & _ & Hv & Hout).
  unfold unpackValue in Hv. rewrite Hkind, Hread in Hv. injection Hv as <-.
  exact Hout.
Qed.

(** X15.  Writing a value that fits its type changes the bytes of its
    own slot and nothing else, and the value is read back from there:
    the buffer keeps its length and every range that does not meet the
    slot reads as before. *)
Theorem X15_scalar_write_then_read (view : list byte) (t : PrimitiveType)
    (o : Z) (v : JsValue) :
  fits H t v = true ->
  0 <= o -> o + primitiveSizes H t <= Z.of_nat (length view) ->
  exists view',
    writePrimitive H view t o v = Ok view'
    /\ readPrimitive H view' t o = Ok v
    /\ length view' = length view
    /\ (forall o' n, o' + Z.of_nat n <= o \/ o + primitiveSizes H t <= o' ->
          view_get view' o' n = view_get view o' n).
Proof.
  intros Hfit Ho Hin.
  destruct (fits_image H t v Hfit) as (x & Hx & _).
  destruct (writePrimitive_Ok H view t o v x Hx Ho Hin) as [view' Hw].
  exists view'. split; [exact Hw |].
  destruct (writePrimitive_slot H _ _ _ _ _ Hw) as (x' & Hx' & Hget).
  split; [exact (readPrimitive_fits H _ _ _ _ x' Hfit Hx' Hget) |].
  split; [exact (writePrimitive_length H _ _ _ _ _ Hw) |].
  intros o' n. exact (writePrimitive_frame H _ _ _ _ _ _ _ Hw).
Qed.

Lemma signed_range (n : nat) (u : Z) :
  (0 < n)%nat -> 0 <= u < 2 ^ (8 * Z.of_nat n) ->
  - 2 ^ (8 * Z.of_nat n - 1) <= signed n u < 2 ^ (8 * Z.of_nat n - 1)
  /\ (signed n u - u) mod 2 ^ (8 * Z.of_nat n) = 0.
Proof.
  intros Hn Hu. unfold signed.
  set (w := 8 * Z.of_nat n) in *.
  assert (Hw : 2 ^ w = 2 * 2 ^ (w - 1)).
  { rewrite <- Z.pow_succ_r by lia. f_equal. lia. }
  assert (Hpos : 0 < 2 ^ (w - 1)) by (apply Z.pow_pos_nonneg; lia).
  destruct (Z.ltb_spec u (2 ^ (w - 1))).
  - split; [lia |]. rewrite Z.sub_diag. apply Z.mod_0_l. lia.
  - split; [lia |].
    replace (u - 2 ^ w - u) with (- 1 * 2 ^ w) by lia.
    apply Z.mod_mul. lia.
Qed.

(** X16.  Integer slots never throw on a number that is out of range:
    the number is truncated toward zero (NaN and the infinities count
    as 0) and wraps, so that what is read back is the one integer of
    the type's range that is congruent to it modulo 2^(8 * width).  A
    boolean slot stores the truthiness of the value. *)
Theorem X16_integer_slots_wrap (view view' : list byte) (t : PrimitiveType)
    (o : Z) (v : JsValue) :
  writePrimitive H view t o v = Ok view' ->
  match t with
  | u8 | u16 | u32 =>
      forall n, v = VNum n ->
      exists r, readPrimitive H view' t o = Ok (VNum (NInt r))
        /\ 0 <= r < 2 ^ (8 * primitiveSizes H t)
        /\ (r - integral n) mod 2 ^ (8 * primitiveSizes H t) = 0
  | i16 | i32 =>
      forall n, v = VNum n ->
      exists r, readPrimitive H view' t o = Ok (VNum (NInt r))
        /\ - 2 ^ (8 * primitiveSizes H t - 1) <= r
           < 2 ^ (8 * primitiveSizes H t - 1)
        /\ (r - integral n) mod 2 ^ (8 * primitiveSizes H t) = 0
  | bool_u8 | bool_u32 => readPrimitive H view' t o = Ok (VBool (truthy v))
  | _ => True
  end.
Proof.
  intros Hw.
  destruct (writePrimitive_slot H _ _ _ _ _ Hw) as (x & Hx & Hget).
  assert (Hread : readPrimitive H view' t o
                  = Ok (valueOfImage H t (x mod 2 ^ (Z.of_nat (widthOf H t) * 8)))).
  { rewrite readPrimitive_image, Hget. cbn. rewrite le_combine_split. reflexivity. }
  assert (Hmod : forall a w, 0 < w -> (a mod w - a) mod w = 0).
  { intros a w Hpos. rewrite Zminus_mod, Z.mod_mod, Z.sub_diag by lia.
    apply Z.mod_0_l. lia. }
  assert (Hsig : forall (n : nat) a, (0 < n)%nat ->
            (signed n (a mod 2 ^ (8 * Z.of_nat n)) - a) mod 2 ^ (8 * Z.of_nat n) = 0).
  { intros n a Hn.
    assert (Hpos : 0 < 2 ^ (8 * Z.of_nat n)) by (apply Z.pow_pos_nonneg; lia).
    pose proof (Z.mod_pos_bound a _ Hpos) as Hb.
    destruct (signed_range n _ Hn Hb) as [_ Hc].
    replace (signed n (a mod 2 ^ (8 * Z.of_nat n)) - a)
      with ((signed n (a mod 2 ^ (8 * Z.of_nat n)) - a mod 2 ^ (8 * Z.of_nat n))
            + (a mod 2 ^ (8 * Z.of_nat n) - a)) by lia.
    rewrite Zplus_mod, Hc, (Hmod a) by lia. reflexivity. }
  destruct t; try exact I; cbn in Hx, Hread |- *.
  - intros n ->. cbn in Hx. injection Hx as <-. eexists. split; [exact Hread |].
    split; [apply Z.mod_pos_bound; lia | apply Hmod; lia].
  - injection Hx as <-. rewrite Hread. destruct (truthy v); reflexivity.
  - injection Hx as <-. rewrite Hread. destruct (truthy v); reflexivity.
  - intros n ->. cbn in Hx. injection Hx as <-. eexists. split; [exact Hread |].
    split; [apply Z.mod_pos_bound; lia | apply Hmod; lia].
  - intros n ->. cbn in Hx. injection Hx as <-. eexists. split; [exact Hread |].
    split.
    + apply (signed_range 2); [lia |]. apply Z.mod_pos_bound. lia.
    + apply (Hsig 2%nat). lia.
  - intros n ->. cbn in Hx. injection Hx as <-. eexists. split; [exact Hread |].
    split; [apply Z.mod_pos_bound; lia | apply Hmod; lia].
  - intros n ->. cbn in Hx. injection Hx as <-. eexists. split; [exact Hread |].
    split.
    + apply (signed_range 4); [lia |]. apply Z.mod_pos_bound. lia.
    + apply (Hsig 4%nat). lia.
Qed.
End FieldRoundTrip.

(** ** Byte order *)

Section LittleEndian.
Context {Memory : Type} (H : Host Memory).
Local Abbreviation E := (engine H).

Lemma alignOffset_zero align : alignOffset 0 align = 0.
Proof.
  unfold alignOffset. rewrite Z.add_0_l. apply Z.land_lnot_diag.
Qed.

(** The layout of a struct of one scalar field. *)
Lemma oneScalar_layout nm t :
  layout (defineStruct H [(nm, FPrimitive t, None)] None)
  = [{| name := nm; kind := primitive; type := t; offset := 0;
        size := primitiveSizes H t; optional := false;
        defaultValue := VUndefined; lengthOf := None;
        packTransform := None; unpackTransform := None;
        enumDef := None |}].
Proof.
  unfold defineStruct. cbn. rewrite alignOffset_zero. reflexivity.
Qed.

End LittleEndian.


(** ** Lists of structs *)

Lemma Uint8Array_slice_chunk (bytes : list byte) (a n : Z) :
  0 <= a -> 0 <= n -> a + n <= Z.of_nat (length bytes) ->
  Uint8Array_slice bytes a (a + n) = take (Z.to_nat n) (drop (Z.to_nat a) bytes).
Proof.
  intros Ha Hn Hlen. unfold Uint8Array_slice.
  destruct (Z.ltb_spec a 0); [lia |].
  destruct (Z.ltb_spec (a + n) 0); [lia |].
  rewrite !Z.min_l by lia. f_equal; f_equal; lia.
Qed.

Section ListFacts.
Context {Memory : Type} (H : Host Memory).

(** The loop of [packList] from index [i0] on: the chunks it fills, the
    chunks it leaves alone, what it retains and the memory it leaves. *)
Lemma packList_fold S values st0 (i0 : nat) st i :
  foldM (packListItem H S) (st0, Z.of_nat i0) values = Ok (st, i) ->
  exists packs,
    packEach H S (st_memory st0) values = Ok packs
    /\ length (st_view st) = length (st_view st0)
    /\ (forall (j : nat) packed, packs !! j = Some packed ->
          view_get (st_view st) (Z.of_nat (i0 + j) * struct_size S)
                   (Z.to_nat (struct_size S))
          = Ok (st_view packed))
    /\ (forall o n, o + Z.of_nat n <= Z.of_nat i0 * struct_size S ->
          view_get (st_view st) o n = view_get (st_view st0) o n)
    /\ st_allocated st
       = st_allocated st0
         ++ List.concat (List.map (fun p => st_view p :: st_allocated p) packs)
    /\ st_memory st = default (st_memory st0) (st_memory <$> last packs).
Proof.
  revert st0 i0. induction values as [| value values IH]; intros st0 i0 Hf.
  - cbn in Hf. injection Hf as <- <-. exists []. cbn.
    rewrite app_nil_r. repeat split; try reflexivity.
    intros j packed Hj. rewrite lookup_nil in Hj. discriminate Hj.
  - cbn [foldM] in Hf. apply rbind_Ok in Hf as ([st1 i1] & Hstep & Hf).
    unfold packListItem in Hstep.
    apply rbind_Ok in Hstep as (packed & Hpack & Hstep).
    apply rbind_Ok in Hstep as (outView & Hset & [= <- <-]).
    destruct (pack_shape H S _ _ _ Hpack) as [Hsize _].
    replace (Z.of_nat i0 + 1) with (Z.of_nat (Datatypes.S i0)) in Hf by lia.
    destruct (IH _ _ Hf) as (packs & Heach & Hlen & Hchunks & Hframe & Hrefs & Hmem).
    cbn [st_view st_allocated st_memory] in *.
    exists (packed :: packs). cbn [packEach]. rewrite Hpack. cbn. rewrite Heach. cbn.
    split; [reflexivity |].
    pose proof (view_set_length _ _ _ _ Hset) as Hlen1.
    pose proof (view_set_inv _ _ _ _ Hset) as (Ho & Hin & _).
    split; [congruence |]. split; [| split; [| split]].
    + intros [| j] p Hj; cbn in Hj.
      * injection Hj as <-. rewrite Nat.add_0_r.
        rewrite Hframe by lia.
        pose proof (view_get_set_same _ _ _ _ Hset) as Hsame.
        replace (Z.to_nat (struct_size S)) with (length (st_view packed)) by lia.
        exact Hsame.
      * replace (i0 + Datatypes.S j)%nat with (Datatypes.S i0 + j)%nat by lia.
        apply Hchunks, Hj.
    + intros o n Hon. rewrite Hframe by lia.
      apply (view_get_set_other _ _ _ _ _ _ Hset). left. lia.
    + rewrite Hrefs. rewrite <- !app_assoc. reflexivity.
    + rewrite Hmem. destruct packs as [| p packs']; [reflexivity |].
      rewrite last_cons_cons.
      destruct (last (p :: packs')) eqn:Hlast; [reflexivity |].
      apply last_None in Hlast. discriminate Hlast.
Qed.

Lemma packEach_lookup S m values packs (j : nat) packed :
  packEach H S m values = Ok packs -> packs !! j = Some packed ->
  exists value m0, pack H S m0 value = Ok packed.
Proof.
  revert m j packs. induction values as [| v vs IH]; intros m0 j packs Heach Hj;
    cbn in Heach.
  - injection Heach as <-. rewrite lookup_nil in Hj. discriminate Hj.
  - apply rbind_Ok in Heach as (p0 & Hp0 & Heach).
    apply rbind_Ok in Heach as (ps & Hps & [= <-]).
    destruct j as [| j]; cbn in Hj.
    + injection Hj as <-. eauto.
    + exact (IH _ _ _ Hps Hj).
Qed.

Lemma packEach_length S m values packs :
  packEach H S m values = Ok packs -> length packs = length values.
Proof.
  revert m packs. induction values as [| v vs IH]; intros m0 packs Heach;
    cbn in Heach.
  - injection Heach as <-. reflexivity.
  - apply rbind_Ok in Heach as (p0 & Hp0 & Heach).
    apply rbind_Ok in Heach as (ps & Hps & [= <-]).
    cbn. f_equal. exact (IH _ _ Hps).
Qed.

(** The stretch of the list buffer that holds a packed struct. *)
Lemma packed_chunk S m values packs view (j : nat) packed :
  packEach H S m values = Ok packs -> packs !! j = Some packed ->
  view_get view (Z.of_nat j * struct_size S) (Z.to_nat (struct_size S))
    = Ok (st_view packed) ->
  Uint8Array_slice view (Z.of_nat j * struct_size S)
                   (Z.of_nat j * struct_size S + struct_size S)
  = st_view packed.
Proof.
  intros Heach Hj Hget.
  apply view_get_inv in Hget as (Ho & Hin & Heq).
  destruct (packEach_lookup S m values packs j packed Heach Hj)
    as (value & m0 & Hpk).
  destruct (pack_shape H S _ _ _ Hpk) as [Hs _].
  rewrite Uint8Array_slice_chunk by lia. symmetry. exact Heq.
Qed.

(** X17.  [packList] lays the structs out one after the other: its
    buffer has [size] bytes for each value, the i-th stretch of [size]
    bytes is the buffer that [pack] returns for the i-th value (each
    value packed on the host memory that the one before left), and its
    [_refs] keep every such buffer followed by that buffer's own
    [_refs]. *)
Theorem X17_packList_concatenates_packs (S : BuiltStruct) (m : Memory)
    (values : list (gmap jsstring JsValue)) (st : PackState) :
  packList H S m values = Ok st ->
  exists packs,
    packEach H S m values = Ok packs
    /\ Z.of_nat (length (st_view st)) = struct_size S * Z.of_nat (length values)
    /\ (forall (i : nat) packed, packs !! i = Some packed ->
          Uint8Array_slice (st_view st) (Z.of_nat i * struct_size S)
                           (Z.of_nat i * struct_size S + struct_size S)
          = st_view packed)
    /\ st_allocated st
       = List.concat (List.map (fun p => st_view p :: st_allocated p) packs)
    /\ st_memory st = default m (st_memory <$> last packs).
Proof.
  intros Hp. unfold packList in Hp.
  apply rbind_Ok in Hp as (listBuffer & Hnew & Hp).
  apply rbind_Ok in Hp as ([st' iend] & Hfold & [= <-]).
  apply newArrayBuffer_length in Hnew.
  destruct (packList_fold S values _ 0%nat st' iend Hfold)
    as (packs & Heach & Hlen & Hchunks & _ & Hrefs & Hmem).
  cbn [st_view st_allocated st_memory] in *.
  exists packs. split; [exact Heach |]. split; [lia |].
  split; [| split; [exact Hrefs | exact Hmem]].
  intros i packed Hi.
  exact (packed_chunk S m values packs _ i packed Heach Hi (Hchunks i packed Hi)).
Qed.

(** The items that [unpackList] decodes are the items decoded from the
    stretches of the buffer. *)
Lemma unpackItems_chunks S m bytes (buffers : list (list byte)) (i0 : nat) :
  (forall (j : nat) buffer, buffers !! j = Some buffer ->
     Uint8Array_slice bytes (Z.of_nat (i0 + j) * struct_size S)
                      (Z.of_nat (i0 + j) * struct_size S + struct_size S)
     = buffer) ->
  unpackItems H S m bytes (Z.of_nat i0) (length buffers)
  = unpackEach H S m buffers.
Proof.
  revert i0. induction buffers as [| buffer buffers IH]; intros i0 Hch.
  - reflexivity.
  - cbn [length unpackItems unpackEach].
    pose proof (Hch 0%nat buffer eq_refl) as H0. rewrite Nat.add_0_r in H0.
    rewrite H0.
    replace (Z.of_nat i0 + 1) with (Z.of_nat (Datatypes.S i0)) by lia.
    rewrite IH; [reflexivity |].
    intros j b Hj. replace (Datatypes.S i0 + j)%nat with (i0 + Datatypes.S j)%nat by lia.
    apply Hch. exact Hj.
Qed.

(** [unpackList] on the buffer of [packList]: the packs, decoded one
    after the other. *)
Lemma unpackList_packs S m values st :
  packList H S m values = Ok st ->
  exists packs,
    packEach H S m values = Ok packs
    /\ (forall m', unpackList H S m' (st_view st) (Z.of_nat (length values))
                   = unpackEach H S m' (st_view <$> packs))
    /\ st_memory st = default m (st_memory <$> last packs).
Proof.
  intros Hp. unfold packList in Hp.
  apply rbind_Ok in Hp as (listBuffer & Hnew & Hp).
  apply rbind_Ok in Hp as ([st' iend] & Hfold & [= <-]).
  destruct (packList_fold S values _ 0%nat st' iend Hfold)
    as (packs & Heach & Hlen & Hchunks & _ & _ & Hmem).
  cbn [st_view st_allocated st_memory] in *.
  exists packs. split; [exact Heach |]. split; [| exact Hmem].
  intros m'. unfold unpackList.
  rewrite Nat2Z.id, <- (packEach_length S m values packs Heach).
  rewrite <- (length_fmap st_view packs).
  apply (unpackItems_chunks S m' (st_view st') (st_view <$> packs) 0).
  intros j buffer Hj. rewrite list_lookup_fmap in Hj.
  destruct (packs !! j) as [packed |] eqn:Hpj; [| discriminate Hj].
  injection Hj as <-.
  exact (packed_chunk S m values packs _ j packed Heach Hpj (Hchunks j packed Hpj)).
Qed.

(** X18.  [unpackList] undoes the layout of [packList]: applied to the
    buffer of [packList(values)] with the count of the values, it
    decodes exactly the buffers that [pack] returned for the values,
    one after the other, and throws where [unpack] of one of them
    throws.  A count that is not positive gives the empty list. *)
Theorem X18_unpackList_of_packList (S : BuiltStruct) (m m' : Memory)
    (values : list (gmap jsstring JsValue)) (st : PackState) :
  packList H S m values = Ok st ->
  (exists packs,
     packEach H S m values = Ok packs
     /\ unpackList H S m' (st_view st) (Z.of_nat (length values))
        = unpackEach H S m' (st_view <$> packs))
  /\ (forall buffer count, count <= 0 ->
        unpackList H S m' buffer count = Ok []).
Proof.
  intros Hp. split.
  - destruct (unpackList_packs S m values st Hp) as (packs & Heach & Hlist & _).
    exists packs. split; [exact Heach | apply Hlist].
  - intros buffer count Hc. unfold unpackList.
    replace (Z.to_nat count) with 0%nat by lia. reflexivity.
Qed.
End ListFacts.

(** ** The FFI shim: pointers and wrappers *)

Lemma pointerIndicesFrom_spec (args : list NativeType) (i0 i : nat) :
  i ∈ pointerIndicesFrom i0 args <->
  (i0 <= i)%nat /\ exists t, args !! (i - i0)%nat = Some t /\ isPointerType t = true.
Proof.
  revert i0. induction args as [| t args IH]; intros i0; cbn.
  - split; [intros Hin; inversion Hin |].
    intros (_ & t & Ht & _). rewrite lookup_nil in Ht. discriminate Ht.
  - assert (Hrest : i ∈ pointerIndicesFrom (Datatypes.S i0) args <->
              (i0 < i)%nat /\ exists t', (t :: args) !! (i - i0)%nat = Some t'
                                         /\ isPointerType t' = true).
    { rewrite IH. split.
      - intros (Hle & t' & Ht' & Hp). split; [lia |]. exists t'. split; [| exact Hp].
        replace (i - i0)%nat with (Datatypes.S (i - Datatypes.S i0)) by lia. exact Ht'.
      - intros (Hlt & t' & Ht' & Hp). split; [lia |]. exists t'. split; [| exact Hp].
        replace (i - i0)%nat with (Datatypes.S (i - Datatypes.S i0)) in Ht' by lia.
        exact Ht'. }
    destruct (isPointerType t) eqn:Hpt.
    + rewrite elem_of_cons, Hrest. split.
      * intros [-> | (Hlt & Hex)]; [| split; [lia | exact Hex]].
        split; [lia |]. exists t. rewrite Nat.sub_diag. auto.
      * intros (Hle & t' & Ht' & Hp).
        destruct (decide (i = i0)) as [-> | Hne]; [left; reflexivity |].
        right. split; [lia |]. eauto.
    + rewrite Hrest. split.
      * intros (Hlt & Hex). split; [lia | exact Hex].
      * intros (Hle & t' & Ht' & Hp). split; [| eauto].
        destruct (decide (i = i0)) as [-> | Hne]; [| lia].
        rewrite Nat.sub_diag in Ht'. cbn in Ht'. injection Ht' as <-.
        congruence.
Qed.

Lemma pointerIndicesFrom_sorted (args : list NativeType) (i0 : nat) :
  forall (j k a b : nat), (j < k)%nat ->
    pointerIndicesFrom i0 args !! j = Some a ->
    pointerIndicesFrom i0 args !! k = Some b -> (a < b)%nat.
Proof.
  revert i0. induction args as [| t args IH]; intros i0 j k a b Hjk Hj Hk;
    cbn in Hj, Hk.
  - rewrite lookup_nil in Hj. discriminate Hj.
  - destruct (isPointerType t); [| exact (IH _ j k a b Hjk Hj Hk)].
    destruct k as [| k]; [lia |]. cbn in Hk.
    destruct j as [| j]; cbn in Hj.
    + injection Hj as <-.
      assert (Hin : b ∈ pointerIndicesFrom (Datatypes.S i0) args)
        by (apply list_elem_of_lookup; eauto).
      apply pointerIndicesFrom_spec in Hin as [Hle _]. lia.
    + exact (IH _ j k a b ltac:(lia) Hj Hk).
Qed.

Lemma increasing_NoDup (l : list nat) :
  (forall (j k a b : nat), (j < k)%nat ->
     l !! j = Some a -> l !! k = Some b -> (a < b)%nat) ->
  NoDup l.
Proof.
  intros Hinc. apply NoDup_alt. intros j k a Hj Hk.
  destruct (Nat.lt_trichotomy j k) as [Hlt | [Heq | Hgt]]; [| exact Heq |].
  - pose proof (Hinc j k a a Hlt Hj Hk). lia.
  - pose proof (Hinc k j a a Hgt Hk Hj). lia.
Qed.

Lemma getPointerParameterIndices_NoDup (symbol : CompatSymbolDefinition) :
  NoDup (getPointerParameterIndices symbol).
Proof. apply increasing_NoDup, pointerIndicesFrom_sorted. Qed.

(** X19.  [getPointerParameterIndices] lists, in increasing order and
    each one once, exactly the positions at which the parameter list of
    the definition says [ptr] or [pointer]: the list that
    [normalizeSymbol] takes too, [parameters] when it is there, else
    [args], else none. *)
Theorem X19_pointer_parameter_indices (symbol : CompatSymbolDefinition) :
  (forall i, i ∈ getPointerParameterIndices symbol <->
     exists t, bs_args (normalizeSymbol symbol) !! i = Some t /\
               (t = T_ptr \/ t = T_pointer))
  /\ (forall (j k a b : nat), (j < k)%nat ->
        getPointerParameterIndices symbol !! j = Some a ->
        getPointerParameterIndices symbol !! k = Some b -> (a < b)%nat)
  /\ NoDup (getPointerParameterIndices symbol).
Proof.
  unfold getPointerParameterIndices, normalizeSymbol. cbn.
  set (args := match sym_parameters symbol with
               | Some ps => ps
               | None => default [] (sym_args symbol)
               end).
  assert (Hsorted := pointerIndicesFrom_sorted args 0).
  split; [| split; [exact Hsorted | exact (increasing_NoDup _ Hsorted)]].
  intros i. rewrite pointerIndicesFrom_spec, Nat.sub_0_r. split.
  - intros (_ & t & Ht & Hp). exists t. split; [exact Ht |].
    destruct t; try discriminate Hp; auto.
  - intros (t & Ht & Hp). split; [lia |]. exists t. split; [exact Ht |].
    destruct Hp as [-> | ->]; reflexivity.
Qed.

Section WrapperFacts.
Context {Memory : Type} (H : Host Memory).

(** The loop of a wrapper over indices that are all different. *)
Lemma convertArguments_spec (pointerIndices : list nat) (args args' : list JsValue)
    (m m' : Memory) :
  NoDup pointerIndices ->
  foldM (convertArgument H) (args, m) pointerIndices = Ok (args', m') ->
  length args' = length args
  /\ forall i v, args !! i = Some v ->
       match v with
       | VBuf value =>
           if bool_decide (i ∈ pointerIndices)
           then exists m1 m2 p, ptr H m1 value = Ok (p, m2) /\ args' !! i = Some p
           else args' !! i = Some v
       | _ => args' !! i = Some v
       end.
Proof.
  revert args m. induction pointerIndices as [| j idx IH]; intros args m Hnd Hf.
  - cbn in Hf. injection Hf as <- <-. split; [reflexivity |].
    intros i v Hi. destruct v; exact Hi.
  - apply NoDup_cons in Hnd as [Hj Hnd]. cbn [foldM] in Hf.
    apply rbind_Ok in Hf as ([args1 m1] & Hstep & Hf).
    destruct (IH _ _ Hnd Hf) as [Hlen Hrest].
    unfold convertArgument in Hstep.
    assert (Hcases :
      (exists value p, args !! j = Some (VBuf value)
         /\ ptr H m value = Ok (p, m1) /\ args1 = <[j := p]> args)
      \/ ((forall value, args !! j <> Some (VBuf value)) /\ args1 = args)).
    { destruct (args !! j) as [[| | | | | | | value |] |] eqn:Hj';
        try (right; split; [intros value'; congruence |];
             injection Hstep as <- <-; reflexivity).
      left. apply rbind_Ok in Hstep as ([p m2] & Hptr & [= <- <-]).
      exists value, p. auto. }
    destruct Hcases as [(value & p & Hj' & Hptr & ->) | [Hno ->]].
    + rewrite length_insert in Hlen. split; [exact Hlen |].
      intros i v Hi. destruct (decide (i = j)) as [-> | Hne].
      * rewrite Hj' in Hi. injection Hi as <-.
        rewrite bool_decide_true by left.
        exists m, m1, p. split; [exact Hptr |].
        assert (Hp : <[j := p]> args !! j = Some p).
        { apply list_lookup_insert_eq. apply lookup_lt_Some in Hj'. exact Hj'. }
        specialize (Hrest j p Hp).
        destruct p; try exact Hrest.
        rewrite bool_decide_false in Hrest by exact Hj. exact Hrest.
      * assert (Hi' : <[j := p]> args !! i = Some v).
        { rewrite list_lookup_insert_ne by congruence. exact Hi. }
        specialize (Hrest i v Hi'). destruct v; try exact Hrest.
        destruct (bool_decide (i ∈ idx)) eqn:Hin.
        -- rewrite bool_decide_true by (right; apply bool_decide_eq_true in Hin; exact Hin).
           exact Hrest.
        -- rewrite bool_decide_false; [exact Hrest |].
           intros Hin'. apply elem_of_cons in Hin' as [-> | Hin']; [congruence |].
           apply bool_decide_eq_false in Hin. contradiction.
    + split; [exact Hlen |]. intros i v Hi. specialize (Hrest i v Hi).
      destruct v; try exact Hrest.
      destruct (bool_decide (i ∈ idx)) eqn:Hin.
      * rewrite bool_decide_true by (right; apply bool_decide_eq_true in Hin; exact Hin).
        exact Hrest.
      * rewrite bool_decide_false; [exact Hrest |].
        intros Hin'. apply elem_of_cons in Hin' as [-> | Hin'].
        -- exact (Hno _ Hi).
        -- apply bool_decide_eq_false in Hin. contradiction.
Qed.

Lemma convertArguments_none (pointerIndices : list nat) (args : list JsValue)
    (m : Memory) :
  (forall i value, i ∈ pointerIndices -> args !! i <> Some (VBuf value)) ->
  foldM (convertArgument H) (args, m) pointerIndices = Ok (args, m).
Proof.
  induction pointerIndices as [| j idx IH]; intros Hno; cbn [foldM].
  - reflexivity.
  - assert (Hstep : convertArgument H (args, m) j = Ok (args, m)).
    { unfold convertArgument.
      destruct (args !! j) as [[| | | | | | | value |] |] eqn:Hj; try reflexivity.
      exfalso. exact (Hno j value ltac:(left) Hj). }
    rewrite Hstep. cbn. apply IH. intros i value Hi. apply Hno. right. exact Hi.
Qed.
End WrapperFacts.

Section ShimTheorems.
Context {Memory : Type} (H : Host Memory).

Lemma toPointer_not_null value p : toPointer value = Ok p -> p = value /\ p <> VNull.
Proof. destruct value; cbn; intros [= <-]; split; congruence. Qed.

(** What [ptr] returns is never [null]; on Deno it is truthy. *)
Lemma ptr_not_null m value p m' :
  ptr H m value = Ok (p, m') -> p <> VNull.
Proof.
  unfold ptr. intros Hp. apply rbind_Ok in Hp as (runtime & _ & Hp).
  destruct runtime.
  - apply rbind_Ok in Hp as (ffi & _ & Hp).
    destruct (bun_ptr ffi m value) as [p0 m0].
    apply rbind_Ok in Hp as (p1 & Hp1 & [= <- <-]).
    apply toPointer_not_null in Hp1 as [_ Hp1]. exact Hp1.
  - apply rbind_Ok in Hp as (d & _ & Hp).
    destruct (UnsafePointer_of (deno_UnsafePointer d) m value) as [p0 m0].
    destruct (truthy p0); [| discriminate Hp].
    apply rbind_Ok in Hp as (p1 & Hp1 & [= <- <-]).
    apply toPointer_not_null in Hp1 as [_ Hp1]. exact Hp1.
Qed.

(** X20.  The wrapper that [wrapDenoSymbols] puts around a native
    function with pointer parameters calls it with as many arguments as
    it was given: an ArrayBuffer or typed array at a pointer position is
    replaced by the non-null pointer that [ptr] returns for it, every
    other argument (null, undefined, a number, a pointer object, or a
    buffer at a position that is no pointer parameter) is handed on as
    it is.  When no pointer position holds a buffer, the call is the
    native call itself and the host is not asked for a pointer. *)
Theorem X20_wrapper_converts_buffers (definition : CompatSymbolDefinition)
    (nativeSymbol : NativeSymbol Memory) (args : list JsValue) (m : Memory) :
  (forall r,
     wrapSymbol H (getPointerParameterIndices definition) nativeSymbol args m
       = Ok r ->
     exists args' m',
       nativeSymbol args' m' = Ok r
       /\ length args' = length args
       /\ forall i v, args !! i = Some v ->
            match v with
            | VBuf value =>
                if bool_decide (i ∈ getPointerParameterIndices definition)
                then exists m1 m2 p,
                       ptr H m1 value = Ok (p, m2) /\ p <> VNull /\
                       args' !! i = Some p
                else args' !! i = Some v
            | _ => args' !! i = Some v
            end)
  /\ ((forall i value, i ∈ getPointerParameterIndices definition ->
         args !! i <> Some (VBuf value)) ->
      wrapSymbol H (getPointerParameterIndices definition) nativeSymbol args m
        = nativeSymbol args m).
Proof.
  pose proof (getPointerParameterIndices_NoDup definition) as Hnd.
  split.
  - intros r Hw. unfold wrapSymbol in Hw.
    apply rbind_Ok in Hw as ([args' m'] & Hconv & Hcall).
    destruct (convertArguments_spec H _ _ _ _ _ Hnd Hconv) as [Hlen Hargs].
    exists args', m'. split; [exact Hcall |]. split; [exact Hlen |].
    intros i v Hi. specialize (Hargs i v Hi).
    destruct v; try exact Hargs.
    destruct (bool_decide (i ∈ getPointerParameterIndices definition));
      [| exact Hargs].
    destruct Hargs as (m1 & m2 & p & Hptr & Hp).
    exists m1, m2, p. split; [exact Hptr |].
    split; [exact (ptr_not_null _ _ _ _ Hptr) | exact Hp].
  - intros Hno. unfold wrapSymbol.
    rewrite (convertArguments_none H _ _ _ Hno). reflexivity.
Qed.

Lemma wrapDenoSymbols_dom (symbols : CompatSymbolDefinitions)
    (nativeSymbols : list (jsstring * NativeSymbol Memory))
    (wrapped : gmap jsstring (NativeSymbol Memory)) :
  dom (foldl (wrapEntry H symbols) wrapped nativeSymbols)
  = dom wrapped ∪ list_to_set (nativeSymbols.*1).
Proof.
  revert wrapped. induction nativeSymbols as [| [nm f] l IH]; intros wrapped.
  - cbn. rewrite union_empty_r_L. reflexivity.
  - cbn [foldl]. rewrite fmap_cons, list_to_set_cons. cbn [fst]. rewrite IH.
    assert (Hd : dom (wrapEntry H symbols wrapped (nm, f)) = {[nm]} ∪ dom wrapped).
    { unfold wrapEntry. destruct (Map_get nm symbols) as [definition |];
        [destruct (Nat.eqb _ 0) |]; apply dom_insert_L. }
    rewrite Hd, (comm_L (∪) {[nm]} (dom wrapped)), <- (assoc_L (∪)). reflexivity.
Qed.

Lemma wrapDenoSymbols_other (symbols : CompatSymbolDefinitions)
    (nativeSymbols : list (jsstring * NativeSymbol Memory))
    (wrapped : gmap jsstring (NativeSymbol Memory)) (nm : jsstring) :
  nm ∉ (nativeSymbols.*1) ->
  foldl (wrapEntry H symbols) wrapped nativeSymbols !! nm = wrapped !! nm.
Proof.
  revert wrapped. induction nativeSymbols as [| [nm0 f] l IH]; intros wrapped Hnm;
    cbn [foldl].
  - reflexivity.
  - cbn in Hnm. apply not_elem_of_cons in Hnm as [Hne Hnm].
    rewrite IH by exact Hnm. unfold wrapEntry.
    destruct (Map_get nm0 symbols) as [definition |];
      [destruct (Nat.eqb _ 0) |]; apply lookup_insert_ne; congruence.
Qed.

(** X21.  [wrapDenoSymbols] returns one function for each native
    symbol, under the same name.  A symbol that the definitions do not
    list, or whose definition has no [ptr] or [pointer] parameter, is
    the native function itself; a symbol with pointer parameters is the
    wrapper around it. *)
Theorem X21_wrapDenoSymbols_table
    (nativeSymbols : list (jsstring * NativeSymbol Memory))
    (symbols : CompatSymbolDefinitions) :
  dom (wrapDenoSymbols H nativeSymbols symbols) = list_to_set (nativeSymbols.*1)
  /\ (forall l1 nm nativeSymbol l2,
        nativeSymbols = l1 ++ (nm, nativeSymbol) :: l2 -> nm ∉ (l2.*1) ->
        wrapDenoSymbols H nativeSymbols symbols !! nm
        = Some (match Map_get nm symbols with
                | None => nativeSymbol
                | Some definition =>
                    match getPointerParameterIndices definition with
                    | [] => nativeSymbol
                    | pointerIndices => wrapSymbol H pointerIndices nativeSymbol
                    end
                end)).
Proof.
  split.
  - unfold wrapDenoSymbols. rewrite wrapDenoSymbols_dom, dom_empty_L.
    apply union_empty_l_L.
  - intros l1 nm nativeSymbol l2 -> Hlast. unfold wrapDenoSymbols.
    rewrite foldl_app. cbn [foldl].
    rewrite wrapDenoSymbols_other by exact Hlast.
    unfold wrapEntry. destruct (Map_get nm symbols) as [definition |].
    + destruct (getPointerParameterIndices definition); cbn; apply lookup_insert_eq.
    + apply lookup_insert_eq.
Qed.

(** X22.  [ptr] never returns [null].  On Bun a null from the host is
    reported as "Received null pointer"; on Deno every falsy result of
    [UnsafePointer.of] is reported as "Failed to get pointer for
    buffer", and an incomplete Deno FFI as "Deno FFI runtime not
    available"; without a runtime the error is "Unsupported runtime". *)
Theorem X22_ptr_never_returns_null (m : Memory) (value : list byte) :
  match detectRuntime H, ptr H m value with
  | Ok bun, Ok (p, _) => p <> VNull
  | Ok deno, Ok (p, _) => truthy p = true
  | Ok bun, Err err => err = NullPointerReceived
  | Ok deno, Err err => err = DenoFFIUnavailable \/ err = PointerUnavailable
  | Err _, Ok _ => False
  | Err _, Err err => err = UnsupportedRuntime
  end.
Proof.
  unfold ptr, detectRuntime, detectFfiRuntime, getBunFFI.
  destruct (getBunGlobal H ≫= Bun_FFI) as [ffi |]; cbn.
  - destruct (bun_ptr ffi m value) as [p m']. destruct p; cbn; congruence.
  - destruct (default false (Deno_dlopen <$> getDenoGlobal H)); cbn; [| reflexivity].
    destruct (getDenoFFI H) as [d | err] eqn:Hd; cbn.
    + destruct (UnsafePointer_of (deno_UnsafePointer d) m value) as [p m'].
      destruct (truthy p) eqn:Ht; [| right; reflexivity].
      destruct p; cbn in *; try discriminate Ht; exact Ht.
    + left. unfold getDenoFFI in Hd.
      repeat match type of Hd with
             | match ?x with _ => _ end = _ => destruct x
             end; congruence.
Qed.
End ShimTheorems.

(** ** Symbol tables: names and shapes *)

Section TableNames.
Context (E : Engine).

Lemma assignEntry_dom {V} (out : gmap jsstring V) nm (v : V) names :
  dom (assignEntry E out nm v) ∪ list_to_set (stored E names)
  = dom out ∪ list_to_set (stored E (nm :: names)).
Proof.
  unfold assignEntry, stored.
  destruct (inheritedSetter E nm) eqn:Hnm.
  - rewrite filter_cons_False by congruence. reflexivity.
  - rewrite filter_cons_True by exact Hnm.
    rewrite list_to_set_cons, dom_insert_L.
    rewrite (comm_L (∪) {[nm]} (dom out)), <- (assoc_L (∪)). reflexivity.
Qed.

Lemma bunEntry_dom (symbols : CompatSymbolDefinitions) (out : gmap jsstring BunSymbol) :
  dom (foldl (bunEntry E) out symbols)
  = dom out ∪ list_to_set (stored E (symbols.*1)).
Proof.
  revert out. induction symbols as [| [nm d] l IH]; intros out.
  - cbn. rewrite union_empty_r_L. reflexivity.
  - cbn [foldl]. rewrite fmap_cons. cbn [fst]. rewrite IH.
    unfold bunEntry. apply assignEntry_dom.
Qed.

Lemma denoEntry_dom (symbols : CompatSymbolDefinitions) (out : gmap jsstring DenoSymbol) :
  dom (foldl (denoEntry E) out symbols)
  = dom out ∪ list_to_set (stored E (symbols.*1)).
Proof.
  revert out. induction symbols as [| [nm d] l IH]; intros out.
  - cbn. rewrite union_empty_r_L. reflexivity.
  - cbn [foldl]. rewrite fmap_cons. cbn [fst]. rewrite IH.
    unfold denoEntry. apply assignEntry_dom.
Qed.

Lemma assignEntry_other {V} (out : gmap jsstring V) nm0 (v : V) nm :
  nm0 <> nm -> assignEntry E out nm0 v !! nm = out !! nm.
Proof.
  intros Hne. unfold assignEntry.
  destruct (inheritedSetter E nm0); [reflexivity |].
  apply lookup_insert_ne. exact Hne.
Qed.

Lemma bunEntry_other (symbols : CompatSymbolDefinitions)
    (out : gmap jsstring BunSymbol) (nm : jsstring) :
  nm ∉ (symbols.*1) -> foldl (bunEntry E) out symbols !! nm = out !! nm.
Proof.
  revert out. induction symbols as [| [nm0 d] l IH]; intros out Hnm; cbn [foldl].
  - reflexivity.
  - cbn in Hnm. apply not_elem_of_cons in Hnm as [Hne Hnm].
    rewrite IH by exact Hnm. apply assignEntry_other. congruence.
Qed.

Lemma denoEntry_other (symbols : CompatSymbolDefinitions)
    (out : gmap jsstring DenoSymbol) (nm : jsstring) :
  nm ∉ (symbols.*1) -> foldl (denoEntry E) out symbols !! nm = out !! nm.
Proof.
  revert out. induction symbols as [| [nm0 d] l IH]; intros out Hnm; cbn [foldl].
  - reflexivity.
  - cbn in Hnm. apply not_elem_of_cons in Hnm as [Hne Hnm].
    rewrite IH by exact Hnm. apply assignEntry_other. congruence.
Qed.

(** X23.  Normalising a symbol table (the entries of an object, so its
    names are distinct) keeps its names, for Bun and for Deno alike,
    but for the name of the inherited accessor [__proto__], which gets
    no property; and it gives every other symbol the shape of its own
    definition: the parameter types of [parameters] when that is
    given, else of [args], else none; the return type of [result] when
    that is given, else of [returns], else [void]; the [nonblocking]
    flag as it is.  For Deno there are as many parameter types as were
    given. *)
Theorem X23_normalized_table_entries (symbols : CompatSymbolDefinitions) :
  dom (toBunSymbols E symbols) = list_to_set (stored E (symbols.*1))
  /\ dom (toDenoSymbols E symbols) = list_to_set (stored E (symbols.*1))
  /\ (forall l1 nm symbol l2,
        symbols = l1 ++ (nm, symbol) :: l2 -> nm ∉ (l2.*1) ->
        inheritedSetter E nm = false ->
        let parameters :=
          default (default [] (sym_args symbol)) (sym_parameters symbol) in
        let result :=
          default (default T_void (sym_returns symbol)) (sym_result symbol) in
        toBunSymbols E symbols !! nm
          = Some {| bs_args := parameters; bs_returns := result;
                    bs_nonblocking := sym_nonblocking symbol |}
        /\ toDenoSymbols E symbols !! nm
           = Some {| ds_parameters := toDenoType <$> parameters;
                     ds_result := toDenoType result;
                     ds_nonblocking := sym_nonblocking symbol |}
        /\ length (toDenoType <$> parameters) = length parameters).
Proof.
  split; [| split].
  - unfold toBunSymbols. rewrite bunEntry_dom, dom_empty_L. apply union_empty_l_L.
  - unfold toDenoSymbols. rewrite denoEntry_dom, dom_empty_L. apply union_empty_l_L.
  - intros l1 nm symbol l2 -> Hlast Hnm parameters result.
    unfold toBunSymbols, toDenoSymbols. rewrite !foldl_app. cbn [foldl].
    rewrite bunEntry_other, denoEntry_other by exact Hlast.
    unfold bunEntry, denoEntry, assignEntry, normalizeSymbol, parameters, result.
    rewrite Hnm, !lookup_insert_eq, length_fmap.
    destruct (sym_parameters symbol), (sym_result symbol); auto.
Qed.
End TableNames.

(** ** The fallback display width *)

Section WidthFacts.
Context {Memory : Type} (H : Host Memory).
Local Abbreviation E := (engine H).

Lemma getCharWidth_range c : 0 <= getCharWidth H c <= 2.
Proof.
  unfold getCharWidth.
  repeat match goal with |- context [if ?b then _ else _] => destruct b end; lia.
Qed.

Lemma width_fold (s : jsstring) (w : Z) :
  foldl (fun width char => width + getCharWidth H char) w s
  = w + foldl (fun width char => width + getCharWidth H char) 0 s.
Proof.
  revert w. induction s as [| c s IH]; intros w; cbn [foldl].
  - lia.
  - rewrite IH, (IH (0 + getCharWidth H c)). lia.
Qed.

Lemma isFullWidthCodePoint_from c : isFullWidthCodePoint c = true -> 0x1100 <= c.
Proof.
  unfold isFullWidthCodePoint. intros Hc. apply andb_prop in Hc as [Hlo _].
  apply Z.leb_le in Hlo. exact Hlo.
Qed.

Lemma isFullWidthCodePoint_selector c :
  isFullWidthCodePoint c = true -> (0xFE00 <=? c) && (c <=? 0xFE0F) = false.
Proof.
  unfold isFullWidthCodePoint. intros Hc.
  destruct (Z.leb_spec 0xFE00 c); [| reflexivity].
  destruct (Z.leb_spec c 0xFE0F); [| reflexivity]. exfalso.
  repeat match type of Hc with
         | context [?a <=? ?b] => destruct (Z.leb_spec a b); try lia
         | context [?a =? ?b] => destruct (Z.eqb_spec a b); try lia
         end; cbn in Hc; discriminate Hc.
Qed.

(** X24.  Without [Bun.stringWidth] the width of a string is the sum
    of the widths of its code points, each 0, 1 or 2: it is additive
    over concatenation of code-point sequences and lies between 0 and
    twice the number of code points; a string of C0 and C1 control
    characters (and DEL) has width 0 whatever the Unicode tables say;
    a string of code points of the full-width table, none of them a
    Mark, has width twice its length. *)
Theorem X24_fallback_width_is_a_sum :
  getBunGlobal H ≫= Bun_stringWidth = None ->
  (forall a b, stringWidth H (a ++ b) = stringWidth H a + stringWidth H b)
  /\ (forall s, 0 <= stringWidth H s <= 2 * Z.of_nat (length s))
  /\ (forall s, Forall (fun c => c <= 0x1f \/ 0x7f <= c <= 0x9f) s ->
        stringWidth H s = 0)
  /\ (forall s, Forall (fun c => isFullWidthCodePoint c = true /\
                                 is_Mark E c = false) s ->
        stringWidth H s = 2 * Z.of_nat (length s)).
Proof.
  intros Hbun. unfold stringWidth. rewrite Hbun.
  split; [| split; [| split]].
  - intros a b. rewrite foldl_app, width_fold. reflexivity.
  - intros s. induction s as [| c s IH]; cbn [foldl length]; [lia |].
    rewrite width_fold. pose proof (getCharWidth_range c). lia.
  - intros s Hall. induction Hall as [| c s Hc Hall IH]; cbn [foldl]; [reflexivity |].
    rewrite width_fold, IH.
    assert (getCharWidth H c = 0); [| lia].
    unfold getCharWidth.
    destruct (Z.leb_spec c 0x1f); [reflexivity |].
    destruct (Z.leb_spec 0x7f c); [| lia].
    destruct (Z.leb_spec c 0x9f); [reflexivity | lia].
  - intros s Hall. induction Hall as [| c s [Hw Hm] Hall IH]; cbn [foldl length];
      [reflexivity |].
    rewrite width_fold, IH.
    assert (getCharWidth H c = 2); [| lia].
    unfold getCharWidth.
    pose proof (isFullWidthCodePoint_from c Hw) as Hlo.
    rewrite (isFullWidthCodePoint_selector c Hw), Hm, Hw.
    destruct (Z.leb_spec c 0x1f); [lia |].
    destruct (Z.leb_spec 0x7f c); [| lia].
    destruct (Z.leb_spec c 0x9f); [lia |].
    cbn. rewrite orb_true_r. reflexivity.
Qed.
End WidthFacts.

(** ** Platform and architecture *)

Lemma normalizePlatform_not_windows p : normalizePlatform p <> str "windows".
Proof.
  unfold normalizePlatform.
  destruct (bool_decide (p = str "windows")) eqn:Hp.
  - vm_compute. discriminate.
  - apply bool_decide_eq_false in Hp. exact Hp.
Qed.

Lemma normalizeArch_not_raw a :
  normalizeArch a <> str "x86_64" /\ normalizeArch a <> str "aarch64".
Proof.
  unfold normalizeArch.
  destruct (bool_decide (a = str "x86_64")) eqn:H1.
  - split; vm_compute; discriminate.
  - destruct (bool_decide (a = str "aarch64")) eqn:H2.
    + split; vm_compute; discriminate.
    + apply bool_decide_eq_false in H1, H2. auto.
Qed.

(** X25.  [process] decides when it has both a platform and an
    architecture, whatever [Deno.build] says; when it lacks one of the
    two, [Deno.build] decides if it has both an os and an architecture;
    and [getRuntimePlatformArch] throws exactly when neither has both.
    What it returns is normalised: never the platform "windows" nor the
    architectures "x86_64" and "aarch64", which come out as "win32",
    "x64" and "arm64", and normalising twice changes nothing more. *)
Theorem X25_platform_arch_are_normalized (proc : option ProcessGlobal)
    (build : option DenoBuild) :
  let complete (platform arch : option jsstring) :=
    match truthyString platform, truthyString arch with
    | Some _, Some _ => true
    | _, _ => false
    end in
  let process_complete :=
    match proc with
    | Some p => complete (proc_platform p) (proc_arch p)
    | None => false
    end in
  let build_complete :=
    match build with
    | Some b => complete (build_os b) (build_arch b)
    | None => false
    end in
  (forall p platform arch,
     proc = Some p ->
     truthyString (proc_platform p) = Some platform ->
     truthyString (proc_arch p) = Some arch ->
     getRuntimePlatformArch proc build
     = Some (normalizePlatform platform, normalizeArch arch))
  /\ (forall b os arch,
        process_complete = false ->
        build = Some b ->
        truthyString (build_os b) = Some os ->
        truthyString (build_arch b) = Some arch ->
        getRuntimePlatformArch proc build
        = Some (normalizePlatform os, normalizeArch arch))
  /\ (getRuntimePlatformArch proc build = None
      <-> process_complete = false /\ build_complete = false)
  /\ (forall platform arch,
        getRuntimePlatformArch proc build = Some (platform, arch) ->
        platform <> str "windows" /\ arch <> str "x86_64" /\ arch <> str "aarch64"
        /\ normalizePlatform platform = platform /\ normalizeArch arch = arch).
Proof.
  intros complete process_complete build_complete.
  assert (Hidem : forall p a,
            normalizePlatform (normalizePlatform p) = normalizePlatform p /\
            normalizeArch (normalizeArch a) = normalizeArch a).
  { intros p a. split.
    - unfold normalizePlatform at 1.
      rewrite bool_decide_false by apply normalizePlatform_not_windows. reflexivity.
    - destruct (normalizeArch_not_raw a) as [H1 H2]. unfold normalizeArch at 1.
      rewrite !bool_decide_false by assumption. reflexivity. }
  split; [| split; [| split]].
  - intros p platform arch -> Hp Ha. unfold getRuntimePlatformArch. cbn.
    rewrite Hp, Ha. reflexivity.
  - intros b os arch Hproc -> Hos Harch.
    unfold getRuntimePlatformArch. cbn. rewrite Hos, Harch.
    subst process_complete complete. destruct proc as [p |]; cbn; [| reflexivity].
    destruct (truthyString (proc_platform p)); [| reflexivity].
    destruct (truthyString (proc_arch p)); [discriminate Hproc | reflexivity].
  - subst process_complete build_complete complete.
    unfold getRuntimePlatformArch.
    destruct proc as [p |], build as [b |]; cbn;
      repeat match goal with
             | |- context [truthyString ?s] => destruct (truthyString s)
             end;
      split; try discriminate; try (intros [? ?]; discriminate); auto.
  - intros platform arch Hr. unfold getRuntimePlatformArch in Hr.
    destruct (proc ≫= (fun p => truthyString (proc_platform p))) as [pl |],
             (proc ≫= (fun p => truthyString (proc_arch p))) as [ar |];
      try (injection Hr as <- <-;
           destruct (normalizeArch_not_raw ar), (Hidem pl ar);
           repeat split; auto using normalizePlatform_not_windows);
      destruct (build ≫= (fun b => truthyString (build_os b))) as [os |],
               (build ≫= (fun b => truthyString (build_arch b))) as [ba |];
      try discriminate Hr;
      injection Hr as <- <-;
      destruct (normalizeArch_not_raw ba), (Hidem os ba);
      repeat split; auto using normalizePlatform_not_windows.
Qed.

(** ** The theorems at work on the sample hosts *)

(** Closes the branch in which an evaluation that succeeds is supposed
    to have thrown. *)
Ltac thrown_is_absurd Hu :=
  exfalso;
  match type of Hu with
  | ?r = Err _ =>
      let Hok := fresh "Hok" in
      assert (Hok : is_Ok r = true) by (vm_compute; reflexivity);
      rewrite Hu in Hok; discriminate Hok
  end.

Lemma X3_pack_buffer_size_witness :
  exists st,
    pack Sample.sampleBun (defineStruct Sample.sampleBun scenario None)
         [] scenarioValue = Ok st
    /\ Z.of_nat (length (st_view st)) = 32.
Proof.
  destruct (pack Sample.sampleBun (defineStruct Sample.sampleBun scenario None)
                 [] scenarioValue) as [st | err] eqn:Hpack;
    [| thrown_is_absurd Hpack].
  exists st. split; [reflexivity |].
  destruct (X3_pack_buffer_size Sample.sampleBun _ _ _ _ Hpack) as [Hsize _].
  exact Hsize.
Defined.

Lemma X4_scalar_struct_leaves_memory_witness :
  unpack Sample.sampleBun (defineStruct Sample.sampleBun pixel None) []
         (replicate 16 Byte.x00)
  = unpack Sample.sampleBun (defineStruct Sample.sampleBun pixel None) fourBytes
           (replicate 16 Byte.x00).
Proof.
  destruct (X4_scalar_struct_leaves_memory Sample.sampleBun
              (defineStruct Sample.sampleBun pixel None)) as [_ Hunpack].
  - vm_compute. reflexivity.
  - apply Hunpack.
Defined.

Lemma X5_unpack_keys_are_field_names_witness :
  exists out,
    unpack Sample.sampleBun (defineStruct Sample.sampleBun pixel None) []
           (replicate 16 Byte.x00) = Ok out
    /\ dom (own out) = list_to_set [str "x"; str "y"; str "on"; str "colour"]
    /\ proto out = ObjectPrototype.
Proof.
  destruct (unpack Sample.sampleBun (defineStruct Sample.sampleBun pixel None) []
                   (replicate 16 Byte.x00)) as [out | err] eqn:Hu;
    [| thrown_is_absurd Hu].
  exists out. split; [reflexivity |].
  exact (X5_unpack_keys_are_field_names Sample.sampleBun
           (defineStruct Sample.sampleBun pixel None) [] _ out eq_refl Hu).
Defined.

(** A field named [__proto__]: on Bun the assignment runs the inherited
    setter, which ignores a number, and the object gets no such
    property; on Deno, where Object.prototype has no [__proto__], the
    property is created. *)
Example unpack_of_a_field_named_proto :
  unpack Sample.sampleBun (defineStruct Sample.sampleBun protoNamed None) []
         (replicate 8 Byte.x00)
  = Ok (plainObject {[str "n" := VNum (NInt 0)]})
  /\ unpack (Sample.sampleDeno true)
            (defineStruct (Sample.sampleDeno true) protoNamed None) []
            (replicate 8 Byte.x00)
     = Ok (plainObject (<[str "n" := VNum (NInt 0)]>
                          {[str "__proto__" := VNum (NInt 0)]})).
Proof. split; vm_compute; reflexivity. Qed.

(** Once the setter has put a function behind the object, the
    assignment to [name] throws: a function's name cannot be written.
    Every field of this struct is a scalar and the buffer holds the
    struct. *)
Example unpack_through_a_function :
  struct_size (defineStruct Sample.sampleBun functionBehind None) = 8
  /\ unpack Sample.sampleBun (defineStruct Sample.sampleBun functionBehind None)
            [] (replicate 8 Byte.x00)
     = Err JsTypeError.
Proof. split; vm_compute; reflexivity. Qed.

Lemma X6_unpack_reads_each_slot_witness :
  exists out,
    unpack Sample.sampleBun (defineStruct Sample.sampleBun pixel None) []
           (replicate 16 Byte.x00) = Ok out
    /\ exists v,
         readPrimitive Sample.sampleBun (replicate 16 Byte.x00) i16 2 = Ok v
         /\ own out !! str "y" = Some v.
Proof.
  destruct (unpack Sample.sampleBun (defineStruct Sample.sampleBun pixel None) []
                   (replicate 16 Byte.x00)) as [out | err] eqn:Hu;
    [| thrown_is_absurd Hu].
  exists out. split; [reflexivity |].
  refine (X6_unpack_reads_each_slot Sample.sampleBun
            (defineStruct Sample.sampleBun pixel None) []
            (replicate 16 Byte.x00) out
            [xEntry] [onEntry; colourEntry] yEntry _ _ _ Hu).
  - vm_compute. reflexivity.
  - vm_compute. reflexivity.
  - apply (bool_decide_unpack _). vm_compute. exact I.
Defined.

Lemma X7_pack_rejects_undeclared_enum_witness :
  is_Ok (pack Sample.sampleBun (defineStruct Sample.sampleBun pixel None) []
              pixelUnset) = false
  /\ EnumDef_to Sample.sampleEngine (defineEnum colours None) VUndefined
     = Err (InvalidEnumValue (str "undefined")).
Proof.
  refine (X7_pack_rejects_undeclared_enum Sample.sampleBun
            (defineStruct Sample.sampleBun pixel None) [] pixelUnset
            [xEntry; yEntry; onEntry] [] colourEntry (defineEnum colours None)
            _ _ _ _ _ _).
  - vm_compute. reflexivity.
  - reflexivity.
  - reflexivity.
  - intros n. vm_compute. discriminate.
  - apply (bool_decide_unpack _). vm_compute. exact I.
  - vm_compute. reflexivity.
Defined.

Lemma X8_unpack_rejects_undeclared_enum_witness :
  is_Ok (unpack Sample.sampleBun (defineStruct Sample.sampleBun pixel None) []
                undeclaredColour) = false
  /\ EnumDef_from (defineEnum colours None) (NInt 7)
     = Err (InvalidEnumNumeric (NInt 7)).
Proof.
  refine (X8_unpack_rejects_undeclared_enum Sample.sampleBun
            (defineStruct Sample.sampleBun pixel None) [] undeclaredColour
            [xEntry; yEntry; onEntry] [] colourEntry colours None
            (VNum (NInt 7)) _ _ _ _ _).
  - vm_compute. reflexivity.
  - reflexivity.
  - reflexivity.
  - vm_compute. reflexivity.
  - apply (bool_decide_unpack _). vm_compute. exact I.
Defined.

Lemma X9_unpack_needs_every_slot_witness :
  is_Ok (unpack Sample.sampleBun (defineStruct Sample.sampleBun pixel None) []
                (replicate 10 Byte.x00)) = false
  /\ is_Ok (unpack Sample.sampleBun
                   (defineStruct Sample.sampleBun protoNamed None) []
                   (replicate 8 Byte.x00)) = true.
Proof.
  split.
  - destruct (X9_unpack_needs_every_slot Sample.sampleBun pixel None []
                (replicate 10 Byte.x00)) as [Hshort _].
    + vm_compute. reflexivity.
    + apply (Hshort colourEntry).
      * apply list_elem_of_lookup. exists 3%nat. vm_compute. reflexivity.
      * vm_compute. reflexivity.
  - destruct (X9_unpack_needs_every_slot Sample.sampleBun protoNamed None []
                (replicate 8 Byte.x00)) as [_ Hscalars].
    + vm_compute. reflexivity.
    + apply Hscalars.
      * intros e He. apply list_elem_of_In in He. vm_compute in He.
        destruct He as [<- | [<- | []]]; (split; [reflexivity | left; reflexivity]).
      * vm_compute. discriminate.
Defined.

Lemma X10_no_length_field_unpacks_empty_witness :
  exists out,
    unpack Sample.sampleBun (defineStruct Sample.sampleBun scenario None)
           [] (replicate 32 Byte.x00) = Ok out
    /\ own out !! str "name" = Some (VStr []).
Proof.
  destruct (unpack Sample.sampleBun (defineStruct Sample.sampleBun scenario None)
                   [] (replicate 32 Byte.x00)) as [out | err] eqn:Hu;
    [| thrown_is_absurd Hu].
  exists out. split; [reflexivity |].
  refine (X10_no_length_field_unpacks_empty Sample.sampleBun scenario None []
            (replicate 32 Byte.x00) out [idEntry] [tagsEntry; tagCountEntry]
            scenarioNameEntry _ _ _ _ _ _ Hu).
  - vm_compute. reflexivity.
  - vm_compute. reflexivity.
  - apply (bool_decide_unpack _). vm_compute. exact I.
  - left. reflexivity.
  - reflexivity.
  - intros L HL _. apply list_elem_of_In in HL. vm_compute in HL.
    destruct HL as [<- | [<- | [<- | [<- | []]]]]; vm_compute; discriminate.
Defined.

Lemma X11_derived_length_of_arrays_witness :
  exists st,
    pack Sample.sampleBun (defineStruct Sample.sampleBun scenario None)
         [] scenarioValue = Ok st
    /\ readPrimitive Sample.sampleBun (st_view st) u32 24 = Ok (VNum (NInt 3)).
Proof.
  destruct (pack Sample.sampleBun (defineStruct Sample.sampleBun scenario None)
                 [] scenarioValue) as [st | err] eqn:Hpack;
    [| thrown_is_absurd Hpack].
  exists st. split; [reflexivity |].
  destruct (X11_derived_length_of_arrays Sample.sampleBun scenario None []
              scenarioValue st 3 tagCountEntry (str "tags") 3)
    as (x & _ & _ & Hread).
  - vm_compute. reflexivity.
  - vm_compute. reflexivity.
  - vm_compute. reflexivity.
  - reflexivity.
  - reflexivity.
  - vm_compute. reflexivity.
  - exact Hpack.
  - apply Hread. vm_compute. reflexivity.
Defined.

Lemma X12_length_without_source_witness :
  exists st,
    pack Sample.sampleBun (defineStruct Sample.sampleBun nameAndLength None)
         [] lengthOnly = Ok st
    /\ readPrimitive Sample.sampleBun (st_view st) u32 8 = Ok (VNum (NInt 99)).
Proof.
  destruct (pack Sample.sampleBun (defineStruct Sample.sampleBun nameAndLength None)
                 [] lengthOnly) as [st | err] eqn:Hpack;
    [| thrown_is_absurd Hpack].
  exists st. split; [reflexivity |].
  destruct (X12_length_without_source Sample.sampleBun nameAndLength None []
              lengthOnly st 1 nameLenEntry (str "name"))
    as (x & _ & _ & Hread).
  - vm_compute. reflexivity.
  - vm_compute. reflexivity.
  - vm_compute. reflexivity.
  - reflexivity.
  - reflexivity.
  - reflexivity.
  - vm_compute. reflexivity.
  - exact Hpack.
  - refine (eq_trans (Hread _) _); vm_compute; reflexivity.
Defined.

Lemma X13_unset_scalar_packs_zero_witness :
  exists st,
    pack Sample.sampleBun (defineStruct Sample.sampleBun pixel None)
         [] pixelNoX = Ok st
    /\ view_get (st_view st) 0 2 = Ok [Byte.x00; Byte.x00].
Proof.
  destruct (pack Sample.sampleBun (defineStruct Sample.sampleBun pixel None)
                 [] pixelNoX) as [st | err] eqn:Hpack;
    [| thrown_is_absurd Hpack].
  exists st. split; [reflexivity |].
  destruct (X13_unset_scalar_packs_zero Sample.sampleBun pixel None []
              pixelNoX st 0 xEntry)
    as (x & _ & _ & Hzero).
  - vm_compute. reflexivity.
  - vm_compute. reflexivity.
  - vm_compute. reflexivity.
  - reflexivity.
  - reflexivity.
  - reflexivity.
  - reflexivity.
  - vm_compute. reflexivity.
  - exact Hpack.
  - apply Hzero; discriminate.
Defined.

Lemma X14_scalar_field_round_trip_witness :
  exists st out,
    pack Sample.sampleBun (defineStruct Sample.sampleBun pixel None)
         [] pixelValue = Ok st
    /\ unpack Sample.sampleBun (defineStruct Sample.sampleBun pixel None)
              [] (st_view st) = Ok out
    /\ own out !! str "y" = Some (VNum (NInt (-2))).
Proof.
  destruct (pack Sample.sampleBun (defineStruct Sample.sampleBun pixel None)
                 [] pixelValue) as [st | err] eqn:Hpack;
    [| thrown_is_absurd Hpack].
  destruct (unpack Sample.sampleBun (defineStruct Sample.sampleBun pixel None)
                   [] (st_view st)) as [out | err] eqn:Hu.
  - exists st, out. split; [reflexivity |]. split; [exact Hu |].
    refine (eq_trans
              (X14_scalar_field_round_trip Sample.sampleBun pixel None [] []
                 pixelValue st out 1 yEntry _ _ _ _ _ _ _ Hpack Hu) _).
    + vm_compute. reflexivity.
    + vm_compute. reflexivity.
    + vm_compute. reflexivity.
    + vm_compute. reflexivity.
    + apply (bool_decide_unpack _). vm_compute. exact I.
    + reflexivity.
    + vm_compute. reflexivity.
    + vm_compute. reflexivity.
  - exfalso.
    assert (Hst : st_view st
                  = [Byte.x03; Byte.x00; Byte.xfe; Byte.xff; Byte.x01; Byte.x00;
                     Byte.x00; Byte.x00; Byte.x01; Byte.x00; Byte.x00; Byte.x00;
                     Byte.x00; Byte.x00; Byte.x00; Byte.x00]).
    { assert (Hv : (st ← pack Sample.sampleBun
                                 (defineStruct Sample.sampleBun pixel None)
                                 [] pixelValue; Ok (st_view st))
                   = Ok [Byte.x03; Byte.x00; Byte.xfe; Byte.xff; Byte.x01; Byte.x00;
                         Byte.x00; Byte.x00; Byte.x01; Byte.x00; Byte.x00; Byte.x00;
                         Byte.x00; Byte.x00; Byte.x00; Byte.x00])
        by (vm_compute; reflexivity).
      rewrite Hpack in Hv. cbn in Hv. injection Hv as Hv. exact Hv. }
    rewrite Hst in Hu. thrown_is_absurd Hu.
Defined.

Lemma X15_scalar_write_then_read_witness :
  exists view',
    writePrimitive Sample.sampleBun (replicate 8 Byte.x00) i32 4
                   (VNum (NInt (-5))) = Ok view'
    /\ readPrimitive Sample.sampleBun view' i32 4 = Ok (VNum (NInt (-5)))
    /\ length view' = 8%nat.
Proof.
  destruct (X15_scalar_write_then_read Sample.sampleBun (replicate 8 Byte.x00)
              i32 4 (VNum (NInt (-5))))
    as (view' & Hw & Hr & Hlen & _).
  - vm_compute. reflexivity.
  - lia.
  - vm_compute. discriminate.
  - exists view'. auto.
Defined.

Lemma X16_integer_slots_wrap_witness :
  exists r,
    readPrimitive Sample.sampleBun [Byte.x2c] u8 0 = Ok (VNum (NInt r))
    /\ 0 <= r < 2 ^ (8 * primitiveSizes Sample.sampleBun u8)
    /\ (r - integral (NInt 300)) mod 2 ^ (8 * primitiveSizes Sample.sampleBun u8) = 0.
Proof.
  exact (X16_integer_slots_wrap Sample.sampleBun [Byte.x00] [Byte.x2c] u8 0
           (VNum (NInt 300)) eq_refl (NInt 300) eq_refl).
Defined.

Lemma X17_packList_concatenates_packs_witness :
  exists st,
    packList Sample.sampleBun (defineStruct Sample.sampleBun nameAndLength None)
             [] [abcValue; lengthOnly] = Ok st
    /\ Z.of_nat (length (st_view st))
       = struct_size (defineStruct Sample.sampleBun nameAndLength None) * 2.
Proof.
  destruct (packList Sample.sampleBun
              (defineStruct Sample.sampleBun nameAndLength None)
              [] [abcValue; lengthOnly]) as [st | err] eqn:Hp;
    [| thrown_is_absurd Hp].
  exists st. split; [reflexivity |].
  destruct (X17_packList_concatenates_packs Sample.sampleBun _ _ _ _ Hp)
    as (packs & _ & Hlen & _).
  exact Hlen.
Defined.

Lemma X18_unpackList_of_packList_witness :
  exists st packs,
    packList Sample.sampleBun (defineStruct Sample.sampleBun nameAndLength None)
             [] [abcValue; lengthOnly] = Ok st
    /\ packEach Sample.sampleBun
                (defineStruct Sample.sampleBun nameAndLength None)
                [] [abcValue; lengthOnly] = Ok packs
    /\ unpackList Sample.sampleBun
                  (defineStruct Sample.sampleBun nameAndLength None)
                  (st_memory st) (st_view st) 2
       = unpackEach Sample.sampleBun
                    (defineStruct Sample.sampleBun nameAndLength None)
                    (st_memory st) (st_view <$> packs).
Proof.
  destruct (packList Sample.sampleBun
              (defineStruct Sample.sampleBun nameAndLength None)
              [] [abcValue; lengthOnly]) as [st | err] eqn:Hp;
    [| thrown_is_absurd Hp].
  destruct (X18_unpackList_of_packList Sample.sampleBun _ [] (st_memory st) _ _ Hp)
    as [(packs & Heach & Hlist) _].
  exists st, packs. split; [reflexivity |]. split; [exact Heach | exact Hlist].
Defined.

Lemma X20_wrapper_converts_buffers_witness :
  exists args' m',
    countArguments args' m' = Ok (VNum (NInt 2), [(4096, [Byte.x01; Byte.x02])])
    /\ length args' = 2%nat.
Proof.
  destruct (X20_wrapper_converts_buffers (Sample.sampleDeno true)
              pointerAndLength countArguments
              [VBuf [Byte.x01; Byte.x02]; VNum (NInt 2)] []) as [Hcall _].
  destruct (Hcall (VNum (NInt 2), [(4096, [Byte.x01; Byte.x02])]))
    as (args' & m' & Hnative & Hlen & _).
  - vm_compute. reflexivity.
  - exists args', m'. split; [exact Hnative | exact Hlen].
Defined.

Lemma X24_fallback_width_is_a_sum_witness :
  stringWidth Sample.sampleBare (str "ab" ++ [0x4E2D])
  = stringWidth Sample.sampleBare (str "ab") + stringWidth Sample.sampleBare [0x4E2D].
Proof.
  destruct (X24_fallback_width_is_a_sum Sample.sampleBare) as [Hadd _].
  - reflexivity.
  - apply Hadd.
Defined.

Lemma X25_platform_arch_are_normalized_witness :
  getRuntimePlatformArch
    (Some {| proc_platform := Some (str "windows");
             proc_arch := Some (str "x86_64") |})
    None
  = Some (str "win32", str "x64")
  /\ getRuntimePlatformArch
       (Some {| proc_platform := Some (str "linux"); proc_arch := None |})
       (Some {| build_os := Some (str "darwin");
                build_arch := Some (str "aarch64") |})
     = Some (str "darwin", str "arm64")
  /\ getRuntimePlatformArch
       (Some {| proc_platform := Some (str "linux"); proc_arch := None |})
       (Some {| build_os := Some []; build_arch := Some (str "aarch64") |})
     = None.
Proof.
  split; [| split].
  - destruct (X25_platform_arch_are_normalized
                (Some {| proc_platform := Some (str "windows");
                         proc_arch := Some (str "x86_64") |})
                None) as [Hproc _].
    exact (Hproc _ (str "windows") (str "x86_64") eq_refl eq_refl eq_refl).
  - destruct (X25_platform_arch_are_normalized
                (Some {| proc_platform := Some (str "linux"); proc_arch := None |})
                (Some {| build_os := Some (str "darwin");
                         build_arch := Some (str "aarch64") |}))
      as (_ & Hbuild & _).
    exact (Hbuild _ (str "darwin") (str "aarch64") eq_refl eq_refl eq_refl eq_refl).
  - destruct (X25_platform_arch_are_normalized
                (Some {| proc_platform := Some (str "linux"); proc_arch := None |})
                (Some {| build_os := Some []; build_arch := Some (str "aarch64") |}))
      as (_ & _ & [_ Hnone] & _).
    apply Hnone. split; reflexivity.
Defined.

Lemma X21_wrapDenoSymbols_table_witness :
  wrapDenoSymbols (Sample.sampleDeno true) [(str "write", countArguments)]
                  [(str "write", pointerAndLength)] !! str "write"
  = Some (wrapSymbol (Sample.sampleDeno true) [0%nat] countArguments).
Proof.
  destruct (X21_wrapDenoSymbols_table (Sample.sampleDeno true)
              [(str "write", countArguments)]
              [(str "write", pointerAndLength)]) as [_ Hentry].
  refine (Hentry [] (str "write") countArguments [] eq_refl _).
  apply (bool_decide_unpack _). vm_compute. exact I.
Defined.

Lemma X23_normalized_table_entries_witness :
  toDenoSymbols Sample.denoEngine (asLegacy writeSymbol) !! str "write"
  = Some {| ds_parameters := [str "pointer"; str "u32"];
            ds_result := str "void"; ds_nonblocking := None |}
  /\ dom (toBunSymbols Sample.sampleEngine
            ((str "__proto__", legacyShape None None None) :: asLegacy writeSymbol))
     = {[ str "write" ]}.
Proof.
  split.
  - destruct (X23_normalized_table_entries Sample.denoEngine (asLegacy writeSymbol))
      as (_ & _ & Hentry).
    destruct (Hentry [] (str "write")
                (legacyShape (Some [T_ptr; T_u32]) (Some T_void) None) [] eq_refl)
      as (_ & Hdeno & _).
    + apply (bool_decide_unpack _). vm_compute. exact I.
    + reflexivity.
    + exact Hdeno.
  - destruct (X23_normalized_table_entries Sample.sampleEngine
                ((str "__proto__", legacyShape None None None)
                 :: asLegacy writeSymbol)) as (Hdom & _).
    rewrite Hdom. vm_compute. reflexivity.
Defined.

(** ** The round trip of a list of structs *)

Section LaterMemory.
Context {Memory : Type} (H : Host Memory).
Local Abbreviation E := (engine H).

Context (Hhost : pinsFaithfully H).

(** What was readable before [pack] is readable after it. *)
Lemma pack_memory S m value st a bs :
  pack H S m value = Ok st ->
  Readable H m a bs -> Readable H (st_memory st) a bs.
Proof.
  intros Hpack Hr. unfold pack in Hpack.
  apply rbind_Ok in Hpack as (buffer & _ & Hfold).
  exact (packFields_memory H Hhost _ _ _ _ _ _ _ Hfold Hr).
Qed.

Context (fields : list FieldDef)
        (reduce : option (gmap jsstring JsValue -> gmap jsstring JsValue))
        (m : Memory) (value : gmap jsstring JsValue)
        (st : @PackState Memory) (later : Memory).

Local Abbreviation S := (defineStruct H fields reduce).
Local Abbreviation input := (packInput (defineStruct H fields reduce) value).

Context (Hcount : Z.of_nat (length fields) < 2 ^ 26)
        (Hconf : conforming H S input = true)
        (Hpack : pack H S m value = Ok st)
        (Hlater : forall a bs, Readable H (st_memory st) a bs ->
                               Readable H later a bs).

(** The value that [unpack] decodes for the field at index [k], on a
    memory in which the payloads of the packed value are still
    readable. *)
Lemma unpacked_value_later out k e :
  decodedSoFar H S input out -> layout S !! k = Some e ->
  unpackValue H S later (st_view st) (plainObject out) e
  = Ok (logicalValue H input e).
Proof.
  intros Hout Hk.
  assert (He : e ∈ layout S) by (apply list_elem_of_lookup; eauto).
  destruct (conforming_fields H S input Hconf) as [Hnd Hall].
  pose proof (Hall e He) as Hc.
  pose proof (unpacked_value H fields reduce m value st Hcount Hhost Hconf Hpack
                out k e Hout Hk) as Hsame.
  unfold unpackValue in *. destruct (kind e) eqn:Hkind.
  - exact Hsame.
  - destruct (conforming_string H S input e Hkind Hc)
      as (s & L & Hs & _ & Hlv & Hl & Hdec & Hempty & HL & Hcarry).
    assert (Hn : derivedLength H input (name e)
                 = Some (Z.of_nat (length (utf8_encode E s)))).
    { unfold derivedLength. rewrite Hs. reflexivity. }
    rewrite (unpacked_length H fields reduce m value st Hcount Hhost Hconf Hpack
               out e L _ Hout He Hl HL Hcarry Hn).
    rewrite Hlv.
    destruct (packed_string H fields reduce m value st Hcount Hhost Hconf Hpack
                k e s Hk Hkind Hs)
      as [[Hz Hread] | (Hnz & a & Ha & Hread & Hr)]; rewrite Hread; cbn.
    + rewrite (Hempty Hz). reflexivity.
    + destruct (Z.eqb_spec a 0) as [| _]; [contradiction |]. cbn.
      destruct (Z.leb_spec (Z.of_nat (length (utf8_encode E s))) 0) as [| Hpos];
        [lia |]. cbn.
      rewrite (Hlater _ _ Hr (Z.of_nat (length (utf8_encode E s))) ltac:(lia)). cbn.
      rewrite Nat2Z.id, firstn_all, Hdec. reflexivity.
  - exact Hsame.
  - destruct (conforming_array H S input e Hkind Hc)
      as (items & L & Hs & _ & Hlv & Hl & Hfit & HL & Hcarry).
    assert (Hn : derivedLength H input (name e)
                 = Some (Z.of_nat (length items))).
    { unfold derivedLength. rewrite Hs. reflexivity. }
    rewrite (unpacked_length H fields reduce m value st Hcount Hhost Hconf Hpack
               out e L _ Hout He Hl HL Hcarry Hn).
    rewrite Hlv.
    destruct (packed_array H fields reduce m value st Hcount Hhost Hconf Hpack
                k e items Hk Hkind Hs)
      as [[Hz Hread] | (Hnz & a & arrBuf & Ha & Hread & Hr & Hlen & Hitems)];
      rewrite Hread; cbn.
    + rewrite Hz. reflexivity.
    + destruct (Z.eqb_spec a 0) as [| _]; [contradiction |]. cbn.
      assert (Hpos : 0 < Z.of_nat (length items))
        by (destruct items; [contradiction | cbn; lia]).
      destruct (Z.leb_spec (Z.of_nat (length items)) 0) as [| _]; [lia |]. cbn.
      pose proof (primitiveSizes_pos H (type e)) as Hes.
      rewrite (Hlater _ _ Hr (Z.of_nat (length items) * primitiveSizes H (type e))
                      ltac:(nia)). cbn.
      rewrite <- Hlen, Nat2Z.id, firstn_all, Nat2Z.id, Hitems. reflexivity.
Qed.

Lemma unpacked_field_later out e :
  decodedSoFar H S input out -> e ∈ layout S ->
  unpackField H S later (st_view st) (plainObject out) e
    = Ok (plainObject (<[name e := logicalValue H input e]> out)).
Proof.
  intros Hout He.
  destruct (conforming_fields H S input Hconf) as [_ Hall].
  destruct (conformsField_hooks H S input e (Hall e He)) as [_ Hu].
  destruct (conformsField_name H S input e (Hall e He)) as [_ Hset].
  pose proof He as Hidx. apply list_elem_of_lookup in Hidx as [k Hk].
  unfold unpackField. rewrite (unpacked_value_later out k e Hout Hk). cbn.
  rewrite Hu. apply setProperty_plain. exact Hset.
Qed.

Lemma unpacked_fields_later l out :
  (forall e, e ∈ l -> e ∈ layout S) -> decodedSoFar H S input out ->
  foldM (unpackField H S later (st_view st)) (plainObject out) l
    = Ok (plainObject
            (foldl (fun out e => <[name e := logicalValue H input e]> out) out l)).
Proof.
  revert out. induction l as [| e l IH]; intros out Hl Hout; cbn [foldM foldl].
  - reflexivity.
  - assert (He : e ∈ layout S) by (apply Hl; left).
    rewrite (unpacked_field_later out e Hout He). cbn. apply IH.
    + intros e' He'. apply Hl. right. exact He'.
    + apply (decodedSoFar_insert H fields reduce value); assumption.
Qed.

(** [unpack] of the packed buffer on the later memory. *)
Lemma unpack_later :
  unpack H S later (st_view st)
  = Ok (plainObject (expectedOut H input (layout S))).
Proof.
  unfold unpack. apply (unpacked_fields_later (layout S) ∅).
  - auto.
  - intros nm v Hv. rewrite lookup_empty in Hv. discriminate Hv.
Qed.
End LaterMemory.

Section ListRoundTrip.
Context {Memory : Type} (H : Host Memory).

Context (Hhost : pinsFaithfully H)
        (fields : list FieldDef)
        (reduce : option (gmap jsstring JsValue -> gmap jsstring JsValue))
        (Hcount : Z.of_nat (length fields) < 2 ^ 26).

Local Abbreviation S := (defineStruct H fields reduce).

Lemma last_default_cons {A B} (f : A -> B) (d : B) (x : A) (l : list A) :
  default d (f <$> last (x :: l)) = default (f x) (f <$> last l).
Proof.
  destruct l as [| y l]; [reflexivity |]. rewrite last_cons_cons.
  destruct (last (y :: l)) eqn:Hl; [reflexivity |].
  apply last_None in Hl. discriminate Hl.
Qed.

Lemma packEach_memory m values packs a bs :
  packEach H S m values = Ok packs ->
  Readable H m a bs ->
  Readable H (default m (st_memory <$> last packs)) a bs.
Proof.
  revert m packs. induction values as [| v vs IH]; intros m packs Heach Hr;
    cbn in Heach.
  - injection Heach as <-. exact Hr.
  - apply rbind_Ok in Heach as (p & Hp & Heach).
    apply rbind_Ok in Heach as (ps & Hps & [= <-]).
    rewrite last_default_cons. apply (IH _ _ Hps).
    exact (pack_memory H Hhost _ _ _ _ _ _ Hp Hr).
Qed.

(** Every packed buffer unpacks to the logical values of its value on
    the memory that the last [pack] left, or on a later one. *)
Lemma unpackEach_packs m values packs later :
  Forall (fun value => conforming H S (packInput S value) = true) values ->
  packEach H S m values = Ok packs ->
  (forall a bs, Readable H (default m (st_memory <$> last packs)) a bs ->
                Readable H later a bs) ->
  unpackEach H S later (st_view <$> packs)
  = Ok ((fun value => plainObject (expectedOut H (packInput S value) (layout S)))
          <$> values).
Proof.
  revert m packs. induction values as [| v vs IH]; intros m packs Hconf Heach Hlater;
    cbn in Heach.
  - injection Heach as <-. reflexivity.
  - apply rbind_Ok in Heach as (p & Hp & Heach).
    apply rbind_Ok in Heach as (ps & Hps & [= <-]).
    apply Forall_cons in Hconf as [Hv Hvs].
    rewrite last_default_cons in Hlater.
    cbn [fmap list_fmap unpackEach].
    rewrite (unpack_later H Hhost fields reduce m v p later Hcount Hv Hp).
    + cbn. rewrite (IH _ _ Hvs Hps Hlater). reflexivity.
    + intros a bs Hr. apply Hlater.
      exact (packEach_memory _ _ _ _ _ Hps Hr).
Qed.

Lemma packListItem_turn st0 i value :
  packListItem H S (st0, i) value
  = (packed ← pack H S (st_memory st0) value;
     outView ← Uint8Array_set (st_view st0) (st_view packed) (i * struct_size S);
     Ok ({| st_view := outView;
            st_allocated := st_allocated st0 ++ [st_view packed]
                            ++ st_allocated packed;
            st_memory := st_memory packed |},
         i + 1)).
Proof. reflexivity. Qed.

(** The loop of [packList] over conforming values fails only when the
    host cannot pin. *)
Lemma packList_fold_total values st0 (i0 : nat) (total : nat) :
  Forall (fun value => conforming H S (packInput S value) = true) values ->
  Z.of_nat (length (st_view st0)) = struct_size S * Z.of_nat total ->
  (i0 + length values <= total)%nat ->
  match foldM (packListItem H S) (st0, Z.of_nat i0) values with
  | Ok _ => True
  | Err err => pinFailure H err
  end.
Proof.
  revert st0 i0. induction values as [| v vs IH]; intros st0 i0 Hconf Hlen Hroom;
    cbn [foldM].
  - exact I.
  - apply Forall_cons in Hconf as [Hv Hvs]. cbn [length] in Hroom.
    rewrite packListItem_turn.
    pose proof (pack_total H Hhost fields reduce (st_memory st0) v Hcount Hv)
      as Htotal.
    destruct (pack H S (st_memory st0) v) as [packed | err] eqn:Hp;
      [| cbn; exact Htotal].
    cbn -[packListItem].
    destruct (pack_shape H S _ _ _ Hp) as [Hsize _].
    destruct (defineStruct_inOrder H fields reduce Hcount) as [_ Hnonneg].
    unfold Uint8Array_set. rewrite view_set_Ok by nia.
    cbn -[packListItem].
    replace (Z.of_nat i0 + 1) with (Z.of_nat (Datatypes.S i0)) by lia.
    apply IH; [exact Hvs | | lia].
    cbn. rewrite !length_app, length_take, length_drop. nia.
Qed.
End ListRoundTrip.

Section ListRoundTripTheorem.
Context {Memory : Type} (H : Host Memory).

End ListRoundTripTheorem.


(** ** [pack]: strings that name their length field *)

Section LengthTargets.
Context {Memory : Type} (H : Host Memory).
Local Abbreviation E := (engine H).

(** The loop of [pack], cut at the turn of the field at index [k]. *)
Lemma pack_cut S m value st k e :
  pack H S m value = Ok st -> layout S !! k = Some e ->
  exists st1 st2,
    packField H S (packInput S value) st1 e = Ok st2
    /\ foldM (packField H S (packInput S value)) st2
             (drop (Datatypes.S k) (layout S)) = Ok st.
Proof.
  intros Hpack Hk. unfold pack in Hpack.
  apply rbind_Ok in Hpack as (buffer & _ & Hfold).
  rewrite <- (take_drop_middle _ _ _ Hk), foldM_app in Hfold.
  apply rbind_Ok in Hfold as (st1 & _ & Hfold). cbn [foldM] in Hfold.
  apply rbind_Ok in Hfold as (st2 & Hstep & Hafter).
  exists st1, st2. auto.
Qed.

(** The fields after index [k] leave the slot of the field at [j <= k]
    alone when none of them carries a [lengthOf]. *)
Lemma pack_tail_frame fields reduce input st2 st j k L :
  Z.of_nat (length fields) < 2 ^ 26 ->
  (j <= k)%nat ->
  layout (defineStruct H fields reduce) !! j = Some L ->
  (forall i e', (k < i)%nat ->
     layout (defineStruct H fields reduce) !! i = Some e' ->
     lengthOf_truthy e' = None) ->
  foldM (packField H (defineStruct H fields reduce) input) st2
        (drop (Datatypes.S k) (layout (defineStruct H fields reduce))) = Ok st ->
  view_get (st_view st) (offset L) (Z.to_nat (size L))
  = view_get (st_view st2) (offset L) (Z.to_nat (size L)).
Proof.
  intros Hcount Hjk Hj Hnone Hafter.
  destruct (defineStruct_inOrder H fields reduce Hcount) as [[Hin Hord] _].
  refine (proj2 (packFields_frame H _ _ _ _ _ _ _ _ Hafter)).
  intros e' He'. apply list_elem_of_lookup in He' as [i Hi].
  rewrite lookup_drop in Hi.
  destruct (Hin _ e' Hi) as (_ & _ & Hws').
  split; [exact Hws' |]. split.
  - intros _. apply (Hnone (Datatypes.S k + i)%nat e'); [lia | exact Hi].
  - left. pose proof (Hord j (Datatypes.S k + i)%nat L e' ltac:(lia) Hj Hi).
    destruct (Hin j L Hj) as (_ & _ & HwsL).
    assert (0 <= size L).
    { unfold wellSized in HwsL. destruct (kind L);
        first [ pose proof (primitiveSizes_cases H (type L)); lia
              | pose proof (pointerSize_cases H); lia ]. }
    lia.
Qed.

(** X27.  In a struct of fewer than 2^26 fields: what a scalar length
    field holds after [pack] when it is the string field that names it
    ([lengthOf] on the char* side, no other field of the struct
    carrying a [lengthOf]) depends on the order of the two fields.
    When the length field comes before the string field, its slot
    holds the image of the UTF-8 byte length of the string (of what
    [pack] encodes for the string field), whatever the caller gave for
    the length.  When it comes after the string field, its own turn of
    the loop overwrites the derived length: its slot holds the image of
    the value that this turn computes, which is what reading its name
    from the value gives (the member of Object.prototype of that name
    when the value has no such property), or its default when that is
    undefined, passed through its [packTransform], and [null] when
    still undefined and the field is optional. *)
Theorem X27_string_side_length_depends_on_order (fields : list FieldDef)
    (reduce : option (gmap jsstring JsValue -> gmap jsstring JsValue))
    (m : Memory) (value : gmap jsstring JsValue) (st : PackState)
    (k j : nat) (e L : LayoutEntry) :
  Z.of_nat (length fields) < 2 ^ 26 ->
  layout (defineStruct H fields reduce) !! k = Some e ->
  kind e = char_ptr ->
  lengthOf_truthy e = Some (name L) ->
  byName (defineStruct H fields reduce) !! name L = Some L ->
  layout (defineStruct H fields reduce) !! j = Some L ->
  kind L = primitive ->
  (forall i e', i <> k ->
     layout (defineStruct H fields reduce) !! i = Some e' ->
     lengthOf_truthy e' = None) ->
  pack H (defineStruct H fields reduce) m value = Ok st ->
  let input := packInput (defineStruct H fields reduce) value in
  let written :=
    if (j <? k)%nat
    then VNum (NInt (Z.of_nat (length (utf8_encode E (textOf H input e)))))
    else fieldValueOf H input L in
  exists x,
    scalarImage H (type L) written = Ok x
    /\ view_get (st_view st) (offset L) (widthOf H (type L))
       = Ok (le_split (widthOf H (type L)) x).
Proof.
  intros Hcount Hk Hkind Htarget Hby Hj HkindL Hnone Hpack input written.
  destruct (defineStruct_inOrder H fields reduce Hcount) as [[Hin Hord] _].
  set (S := defineStruct H fields reduce) in *.
  destruct (Hin j L Hj) as (_ & _ & HwsL).
  unfold wellSized in HwsL. rewrite HkindL in HwsL.
  assert (Hwidth : Z.to_nat (size L) = widthOf H (type L))
    by (rewrite HwsL; reflexivity).
  assert (Hjk : j <> k).
  { intros ->. rewrite Hk in Hj. injection Hj as ->. congruence. }
  unfold written. destruct (Nat.ltb_spec j k) as [Hlt | Hge].
  - (* the length field first: the turn of the string writes it last *)
    destruct (pack_cut S m value st k e Hpack Hk) as (st1 & st2 & Hstep & Hafter).
    pose proof (pack_tail_frame fields reduce input st2 st j k L Hcount
                  ltac:(lia) Hj
                  ltac:(intros i e' Hi; apply Hnone; lia) Hafter) as Hslot.
    rewrite Hwidth in Hslot. rewrite Hslot.
    unfold packField in Hstep. rewrite Hkind in Hstep.
    apply rbind_Ok in Hstep as (st' & _ & Hstep).
    apply rbind_Ok in Hstep as (view & Hw & [= <-]). cbn [st_view].
    unfold writeLengthField in Hw. rewrite Htarget, Hby in Hw.
    exact (writePrimitive_slot H _ _ _ _ _ Hw).
  - (* the length field last: its own turn overwrites the length *)
    destruct (pack_cut S m value st j L Hpack Hj) as (st1 & st2 & Hstep & Hafter).
    pose proof (pack_tail_frame fields reduce input st2 st j j L Hcount
                  ltac:(lia) Hj
                  ltac:(intros i e' Hi; apply Hnone; lia) Hafter) as Hslot.
    rewrite Hwidth in Hslot. rewrite Hslot.
    unfold packField in Hstep. rewrite HkindL in Hstep.
    apply rbind_Ok in Hstep as (view & Hw & [= <-]). cbn [st_view].
    exact (writePrimitive_slot H _ _ _ _ _ Hw).
Qed.
End LengthTargets.

Lemma X27_string_side_length_depends_on_order_witness :
  (exists st,
     pack Sample.sampleBun (defineStruct Sample.sampleBun lengthBefore None)
          [] abcValue = Ok st
     /\ view_get (st_view st) 0 4 = Ok [Byte.x03; Byte.x00; Byte.x00; Byte.x00])
  /\ (exists st,
        pack Sample.sampleBun (defineStruct Sample.sampleBun lengthAfter None)
             [] abcValue = Ok st
        /\ view_get (st_view st) 8 4 = Ok [Byte.x63; Byte.x00; Byte.x00; Byte.x00]).
Proof.
  split.
  - destruct (pack Sample.sampleBun (defineStruct Sample.sampleBun lengthBefore None)
                   [] abcValue) as [st | err] eqn:Hpack;
      [| thrown_is_absurd Hpack].
    exists st. split; [reflexivity |].
    destruct (X27_string_side_length_depends_on_order Sample.sampleBun
                lengthBefore None [] abcValue st 1 0
                {| name := str "name"; kind := char_ptr; type := pointer;
                   offset := 8; size := 8; optional := false;
                   defaultValue := VUndefined;
                   lengthOf := Some (str "nameLen"); packTransform := None;
                   unpackTransform := None; enumDef := None |}
                (plainLength 0))
      as (x & Hx & Hget).
    + vm_compute. reflexivity.
    + vm_compute. reflexivity.
    + reflexivity.
    + reflexivity.
    + vm_compute. reflexivity.
    + vm_compute. reflexivity.
    + reflexivity.
    + intros [| [| i]] e' Hi He'; [| congruence |].
      * vm_compute in He'. injection He' as <-. reflexivity.
      * vm_compute in He'. discriminate He'.
    + exact Hpack.
    + vm_compute in Hx. injection Hx as <-. exact Hget.
  - destruct (pack Sample.sampleBun (defineStruct Sample.sampleBun lengthAfter None)
                   [] abcValue) as [st | err] eqn:Hpack;
      [| thrown_is_absurd Hpack].
    exists st. split; [reflexivity |].
    destruct (X27_string_side_length_depends_on_order Sample.sampleBun
                lengthAfter None [] abcValue st 0 1
                namedString (plainLength 8))
      as (x & Hx & Hget).
    + vm_compute. reflexivity.
    + vm_compute. reflexivity.
    + reflexivity.
    + reflexivity.
    + vm_compute. reflexivity.
    + vm_compute. reflexivity.
    + reflexivity.
    + intros [| [| i]] e' Hi He'; [congruence | |].
      * vm_compute in He'. injection He' as <-. reflexivity.
      * vm_compute in He'. discriminate He'.
    + exact Hpack.
    + vm_compute in Hx. injection Hx as <-. exact Hget.
Defined.

(** ** stripANSI *)

Lemma repeatMatcher_onSuffix (m : list Z -> Continuation -> option (list Z))
    (fuel min : nat) (max : option nat) :
  onSuffix m -> onSuffix (fun x c => repeatMatcher m fuel min max x c).
Proof.
  intros Hm. revert min max.
  induction fuel as [|fuel IH]; intros min max x c z Hz.
  - destruct max as [[|n]|]; cbn in Hz; try discriminate.
    exists x. split; [reflexivity | exact Hz].
  - assert (Hturn : forall d' : Continuation,
        (forall y, d' y = Some z -> exists y', y' `suffix_of` y /\ c y' = Some z) ->
        m x d' = Some z -> exists y, y `suffix_of` x /\ c y = Some z).
    { intros d' Hd' Hmz.
      destruct (Hm _ _ _ Hmz) as (y & Hy & Hdy).
      destruct (Hd' _ Hdy) as (y' & Hy' & Hc).
      exists y'. split; [etransitivity; eassumption | exact Hc]. }
    assert (Hd : forall max' y,
        (if Nat.eqb min 0 && Nat.eqb (length y) (length x) then None
         else repeatMatcher m fuel (Nat.pred min) max' y c) = Some z ->
        exists y', y' `suffix_of` y /\ c y' = Some z).
    { intros max' y Hy.
      destruct (Nat.eqb min 0 && Nat.eqb (length y) (length x)); [discriminate|].
      exact (IH _ _ _ _ _ Hy). }
    destruct max as [[|n]|]; cbn [repeatMatcher] in Hz.
    + exists x. split; [reflexivity | exact Hz].
    + destruct (negb (Nat.eqb min 0)).
      * eapply Hturn; [| exact Hz]. intros y. apply Hd.
      * match type of Hz with match ?t with _ => _ end = _ =>
          destruct t as [z'|] eqn:Ht end.
        -- injection Hz as ->. eapply Hturn; [| exact Ht]. intros y. apply Hd.
        -- exists x. split; [reflexivity | exact Hz].
    + destruct (negb (Nat.eqb min 0)).
      * eapply Hturn; [| exact Hz]. intros y. apply Hd.
      * match type of Hz with match ?t with _ => _ end = _ =>
          destruct t as [z'|] eqn:Ht end.
        -- injection Hz as ->. eapply Hturn; [| exact Ht]. intros y. apply Hd.
        -- exists x. split; [reflexivity | exact Hz].
Qed.

Lemma matcher_onSuffix (r : RegExp) : onSuffix (matcher r).
Proof.
  induction r as [member | first IH1 second IH2 | one IH1 other IH2 | atom IH min max];
    intros x c z Hz; cbn [matcher] in Hz.
  - destruct x as [|ch y]; [discriminate|].
    destruct (member ch); [|discriminate].
    exists y. split; [apply suffix_cons_r; reflexivity | exact Hz].
  - destruct (IH1 _ _ _ Hz) as (y & Hy & Hz2).
    destruct (IH2 _ _ _ Hz2) as (y' & Hy' & Hc).
    exists y'. split; [etransitivity; eassumption | exact Hc].
  - destruct (matcher one x c) as [z'|] eqn:H1.
    + injection Hz as ->. exact (IH1 _ _ _ H1).
    + exact (IH2 _ _ _ Hz).
  - exact (repeatMatcher_onSuffix (matcher atom) _ min max IH _ _ _ Hz).
Qed.

Lemma matcher_Then (first second : RegExp) (x : list Z) (c : Continuation) :
  matcher (Then first second) x c = matcher first x (fun y => matcher second y c).
Proof. reflexivity. Qed.

Lemma matcher_Chars (member : Z -> bool) (ch : Z) (y : list Z) (c : Continuation) :
  matcher (Chars member) (ch :: y) c = if member ch then c y else None.
Proof. reflexivity. Qed.

Lemma matcher_Times (atom : RegExp) (min : nat) (max : option nat)
    (x : list Z) (c : Continuation) :
  matcher (Times atom min max) x c
  = repeatMatcher (matcher atom) (Datatypes.S (min + length x)) min max x c.
Proof. cbn [matcher]. rewrite Nat.add_1_r. reflexivity. Qed.

(** A match of the pattern starts with an introducer and ends behind it. *)
Lemma ANSI_PATTERN_match (value behind : list Z) :
  matcher ANSI_PATTERN value Some = Some behind ->
  exists ch rest, value = ch :: rest /\ introducer ch = true
                  /\ behind `suffix_of` rest.
Proof.
  intros Hm. unfold ANSI_PATTERN in Hm.
  destruct value as [|ch rest]; [discriminate|].
  rewrite matcher_Then, matcher_Chars in Hm.
  destruct (introducer ch) eqn:Hi; [|discriminate].
  exists ch, rest. split; [reflexivity|]. split; [exact Hi|].
  destruct (matcher_onSuffix _ rest Some behind Hm) as (y & Hy & Hc).
  injection Hc as ->. exact Hy.
Qed.

Lemma ANSI_PATTERN_needs_introducer (ch : Z) (rest : list Z) :
  introducer ch = false -> matcher ANSI_PATTERN (ch :: rest) Some = None.
Proof.
  intros Hi. unfold ANSI_PATTERN. rewrite matcher_Then, matcher_Chars, Hi. reflexivity.
Qed.

Lemma suffix_length_le (l k : list Z) : l `suffix_of` k -> (length l <= length k)%nat.
Proof. intros [p ->]. rewrite length_app. lia. Qed.

Lemma removeMatches_sublist (fuel : nat) (value : list Z) :
  removeMatches ANSI_PATTERN fuel value `sublist_of` value.
Proof.
  revert value. induction fuel as [|fuel IH]; intros value; cbn [removeMatches].
  - reflexivity.
  - destruct value as [|ch rest]; [reflexivity|].
    destruct (matcher ANSI_PATTERN (ch :: rest) Some) as [behind|] eqn:Hm.
    + destruct (ANSI_PATTERN_match _ _ Hm) as (ch' & rest' & Heq & _ & [p Hp]).
      injection Heq as <- <-.
      etransitivity; [apply IH|].
      apply sublist_cons. rewrite Hp. apply sublist_inserts_l. reflexivity.
    + apply sublist_skip, IH.
Qed.

(** Fuel beyond the length of the text changes nothing. *)
Lemma removeMatches_fuel (fuel fuel' : nat) (value : list Z) :
  (length value <= fuel)%nat -> (length value <= fuel')%nat ->
  removeMatches ANSI_PATTERN fuel value = removeMatches ANSI_PATTERN fuel' value.
Proof.
  revert fuel' value. induction fuel as [|fuel IH]; intros fuel' value Hf Hf'.
  - destruct value; [|cbn in Hf; lia]. destruct fuel'; reflexivity.
  - destruct value as [|ch rest]; [destruct fuel'; reflexivity|].
    destruct fuel' as [|fuel']; [cbn in Hf'; lia|].
    cbn [removeMatches]. cbn [length] in Hf, Hf'.
    destruct (matcher ANSI_PATTERN (ch :: rest) Some) as [behind|] eqn:Hm.
    + destruct (ANSI_PATTERN_match _ _ Hm) as (ch' & rest' & Heq & _ & Hs).
      injection Heq as <- <-. apply suffix_length_le in Hs.
      apply IH; lia.
    + f_equal. apply IH; lia.
Qed.

Lemma stripANSI_cons_kept (ch : Z) (rest : list Z) :
  introducer ch = false ->
  stripANSI None (ch :: rest) = ch :: stripANSI None rest.
Proof.
  intros Hi. unfold stripANSI. cbn [length removeMatches].
  rewrite (ANSI_PATTERN_needs_introducer _ _ Hi). reflexivity.
Qed.

Lemma stripANSI_cut (ch : Z) (rest behind : list Z) :
  matcher ANSI_PATTERN (ch :: rest) Some = Some behind ->
  stripANSI None (ch :: rest) = stripANSI None behind.
Proof.
  intros Hm. unfold stripANSI. cbn [length removeMatches]. rewrite Hm.
  destruct (ANSI_PATTERN_match _ _ Hm) as (ch' & rest' & Heq & _ & Hs).
  injection Heq as <- <-. apply suffix_length_le in Hs.
  apply removeMatches_fuel; lia.
Qed.

(** X28: without Bun's own function, [stripANSI] only takes characters
    out of the text (the result is a sublist of the text), and it keeps
    all the text that stands ahead of the first U+001B or U+009B: a
    text with neither character comes back unchanged. *)
Theorem X28_stripANSI_only_removes (ahead value : jsstring) :
  stripANSI None value `sublist_of` value
  /\ (Forall (fun ch => ch <> 0x1B /\ ch <> 0x9B) ahead ->
      stripANSI None (ahead ++ value) = ahead ++ stripANSI None value
      /\ stripANSI None ahead = ahead).
Proof.
  split; [apply removeMatches_sublist|].
  intros Hahead.
  assert (Hkept : forall rest, stripANSI None (ahead ++ rest) = ahead ++ stripANSI None rest).
  { intros rest. induction Hahead as [|ch ahead [H1 H2] _ IH]; [reflexivity|].
    cbn [app]. rewrite stripANSI_cons_kept, IH; [reflexivity|].
    unfold introducer, oneOf. cbn [existsb].
    destruct (Z.eqb_spec ch 27); [lia|]. destruct (Z.eqb_spec ch 155); [lia|].
    reflexivity. }
  split; [apply Hkept|].
  rewrite <- (app_nil_r ahead) at 1. rewrite Hkept, app_nil_r. reflexivity.
Qed.

(** A greedy quantifier over one character class takes a whole run of
    characters of the class, when the run fits its bounds, cannot go on
    and the continuation accepts what follows. *)
Lemma repeatMatcher_run (member : Z -> bool) (run rest : list Z)
    (c : Continuation) (z : list Z) (fuel min : nat) (max : option nat) :
  Forall (fun ch => member ch = true) run ->
  (min <= length run)%nat ->
  match max with Some n => (length run <= n)%nat | None => True end ->
  (length run < fuel)%nat ->
  max = Some (length run)
  \/ match rest with ch :: _ => member ch = false | [] => True end ->
  c rest = Some z ->
  repeatMatcher (matcher (Chars member)) fuel min max (run ++ rest) c = Some z.
Proof.
  intros Hrun. revert fuel min max.
  induction Hrun as [|ch run Hch _ IH]; intros fuel min max Hmin Hmax Hfuel Hstop Hc.
  - cbn [length] in *. assert (min = 0)%nat as -> by lia. cbn [app].
    destruct fuel as [|fuel]; [lia|].
    assert (Hnone : forall d, matcher (Chars member) rest d = None
                              \/ max = Some 0%nat).
    { intros d. destruct Hstop as [->|Hstop]; [right; reflexivity|].
      left. destruct rest as [|ch rest]; [reflexivity|].
      rewrite matcher_Chars, Hstop. reflexivity. }
    destruct max as [[|n]|]; cbn [repeatMatcher]; try exact Hc.
    + cbn [Nat.eqb negb].
      match goal with |- match matcher _ _ ?d with _ => _ end = _ =>
        destruct (Hnone d) as [-> | ?]; [exact Hc | discriminate] end.
    + cbn [Nat.eqb negb].
      match goal with |- match matcher _ _ ?d with _ => _ end = _ =>
        destruct (Hnone d) as [-> | ?]; [exact Hc | discriminate] end.
  - cbn [length] in *. destruct fuel as [|fuel]; [lia|].
    assert (Hturn : forall max',
        (max' = Nat.pred <$> max) ->
        (if Nat.eqb min 0 && Nat.eqb (length (run ++ rest)) (length ((ch :: run) ++ rest))
         then None
         else repeatMatcher (matcher (Chars member)) fuel (Nat.pred min) max'
                (run ++ rest) c) = Some z).
    { intros max' ->.
      replace (Nat.eqb (length (run ++ rest)) (length ((ch :: run) ++ rest)))
        with false
        by (symmetry; apply Nat.eqb_neq; cbn [app length]; lia).
      rewrite andb_false_r.
      apply IH; try lia.
      - destruct max as [n|]; cbn; [lia | exact I].
      - destruct Hstop as [-> | Hstop]; [left; reflexivity | right; exact Hstop].
      - exact Hc. }
    assert (Hm : forall d : Continuation,
        matcher (Chars member) ((ch :: run) ++ rest) d = d (run ++ rest)).
    { intros d. cbn [app]. rewrite matcher_Chars, Hch. reflexivity. }
    destruct max as [[|n]|]; [lia | |]; cbn [repeatMatcher];
      destruct (negb (Nat.eqb min 0)); rewrite Hm, (Hturn _ eq_refl);
      reflexivity.
Qed.

Lemma repeatMatcher_done (m : list Z -> Continuation -> option (list Z))
    (fuel min : nat) (x : list Z) (c : Continuation) :
  repeatMatcher m fuel min (Some 0%nat) x c = c x.
Proof. destruct fuel; reflexivity. Qed.

Lemma digit_not_prefixChar (ch : Z) : digit ch = true -> prefixChar ch = false.
Proof.
  unfold digit, between, prefixChar, oneOf. cbn [existsb]. intros Hd.
  apply andb_true_iff in Hd as [H1 H2].
  apply Z.leb_le in H1. apply Z.leb_le in H2.
  repeat match goal with |- context [Z.eqb ch ?k] =>
    destruct (Z.eqb_spec ch k); [lia|] end.
  reflexivity.
Qed.

Lemma digit_not_semicolon (ch : Z) : digit ch = true -> oneOf [0x3B] ch = false.
Proof.
  unfold digit, between, oneOf. cbn [existsb]. intros Hd.
  apply andb_true_iff in Hd as [H1 H2].
  apply Z.leb_le in H1. apply Z.leb_le in H2.
  destruct (Z.eqb_spec ch 59); [lia | reflexivity].
Qed.

Lemma finalChar_not_semicolon (ch : Z) : finalChar ch = true -> oneOf [0x3B] ch = false.
Proof.
  unfold oneOf. cbn [existsb]. intros Hf.
  destruct (Z.eqb_spec ch 59) as [-> | ?]; [|reflexivity].
  vm_compute in Hf. discriminate.
Qed.

(** The quantified group of a semicolon and at most four digits takes
    all the groups that stand before a closing character. *)
Lemma repeatMatcher_groups (groups : list (list Z)) (close : Z) (rest : list Z)
    (c : Continuation) (z : list Z) (fuel : nat) :
  Forall digitGroup groups ->
  digit close = false -> oneOf [0x3B] close = false ->
  (length (laterGroups groups) < fuel)%nat ->
  c (close :: rest) = Some z ->
  repeatMatcher
    (matcher (Then (Chars (oneOf [0x3B])) (Times (Chars digit) 0 (Some 4%nat))))
    fuel 0 None (laterGroups groups ++ close :: rest) c = Some z.
Proof.
  intros Hgroups Hd Hs. revert fuel.
  induction Hgroups as [|group groups [Hdigits Hlen] _ IH]; intros fuel Hfuel Hc.
  - destruct fuel as [|fuel]; [cbn in Hfuel; lia|].
    cbn [laterGroups List.map concat app repeatMatcher Nat.eqb negb].
    rewrite matcher_Then, matcher_Chars, Hs. exact Hc.
  - destruct fuel as [|fuel]; [cbn in Hfuel; lia|].
    change (laterGroups (group :: groups))
      with ((0x3B :: group) ++ laterGroups groups) in *.
    rewrite length_app in Hfuel. cbn [length] in Hfuel.
    cbn [repeatMatcher Nat.eqb negb].
    rewrite <- app_assoc. change ((59 :: group) ++ ?t) with (59 :: (group ++ t)).
    rewrite matcher_Then, matcher_Chars.
    change (oneOf [59] 59) with true. cbn match.
    rewrite matcher_Times.
    rewrite repeatMatcher_run with (z := z); [reflexivity | exact Hdigits | lia | exact Hlen | | |].
    + rewrite length_app. lia.
    + right. destruct groups as [|g groups]; [exact Hd | reflexivity].
    + cbn [andb].
      replace (Nat.eqb (length (laterGroups groups ++ close :: rest))
                       (length (59 :: group ++ laterGroups groups ++ close :: rest)))
        with false
        by (symmetry; apply Nat.eqb_neq; cbn [length]; rewrite !length_app; lia).
      cbn [Nat.pred]. apply IH; [lia | exact Hc].
Qed.

(** X29: [stripANSI] removes a whole control sequence that is made of
    U+001B or U+009B, an opening bracket, one to four digits, any
    number of groups of a semicolon and at most four digits, and one
    closing character of the pattern's last class that is no digit
    (the letter m of a colour sequence, for one), whatever follows. *)
Theorem X29_stripANSI_removes_control_sequence (start : Z) (first : list Z)
    (groups : list (list Z)) (close : Z) (rest : jsstring) :
  start = 0x1B \/ start = 0x9B ->
  digitGroup first -> first <> [] ->
  Forall digitGroup groups ->
  finalChar close = true -> digit close = false ->
  stripANSI None (start :: 0x5B :: first ++ laterGroups groups ++ close :: rest)
  = stripANSI None rest.
Proof.
  intros Hstart [Hfirst Hlen] Hne Hgroups Hclose Hnodigit.
  pose proof (finalChar_not_semicolon _ Hclose) as Hnosemi.
  apply stripANSI_cut.
  unfold ANSI_PATTERN. rewrite matcher_Then, matcher_Chars.
  replace (introducer start) with true
    by (destruct Hstart as [-> | ->]; reflexivity).
  rewrite matcher_Then, matcher_Times.
  change (91 :: ?t) with ([91] ++ t).
  apply repeatMatcher_run.
  - repeat constructor.
  - cbn; lia.
  - exact I.
  - cbn [length app]. lia.
  - right. destruct first as [|d first]; [congruence|].
    apply digit_not_prefixChar. inversion Hfirst; assumption.
  - cbn [matcher]. fold parameters.
    match goal with |- match ?t with _ => _ end = _ =>
      assert (Ht : t = Some rest); [| rewrite Ht; reflexivity] end.
    unfold parameters. rewrite matcher_Times.
    cbn [repeatMatcher Nat.eqb negb].
    match goal with |- match ?t with _ => _ end = _ =>
      assert (Ht : t = Some rest); [| rewrite Ht; reflexivity] end.
    rewrite matcher_Then, matcher_Times.
    apply repeatMatcher_run.
    + exact Hfirst.
    + destruct first; [congruence | cbn; lia].
    + exact Hlen.
    + rewrite length_app. lia.
    + right. destruct groups as [|g groups]; [exact Hnodigit | reflexivity].
    + rewrite matcher_Times.
      apply repeatMatcher_groups; [exact Hgroups | exact Hnodigit | exact Hnosemi | |].
      * rewrite length_app. lia.
      * cbn [andb].
        replace (Nat.eqb (length (close :: rest))
                   (length (first ++ laterGroups groups ++ close :: rest)))
          with false.
        2:{ symmetry. apply Nat.eqb_neq. rewrite !length_app.
            destruct first; [congruence | cbn [length]; lia]. }
        cbn [Nat.pred fmap option_fmap option_map].
        rewrite repeatMatcher_done, Hclose. reflexivity.
Qed.

Lemma finalChar_false_digit (ch : Z) : finalChar ch = false -> digit ch = false.
Proof.
  unfold finalChar. intros Hf.
  repeat (apply orb_false_iff in Hf as [Hf _]). exact Hf.
Qed.

(** The part of the pattern for parameters and a closing character
    fails on text that starts with no closing character. *)
Lemma parameters_fail (ch : Z) (text : list Z) :
  finalChar ch = false ->
  matcher (Then parameters (Chars finalChar)) (ch :: text) Some = None.
Proof.
  intros Hf. pose proof (finalChar_false_digit _ Hf) as Hd.
  rewrite matcher_Then. unfold parameters. rewrite matcher_Times.
  cbn [repeatMatcher Nat.eqb negb Nat.add].
  rewrite matcher_Then, matcher_Times.
  cbn [repeatMatcher Nat.eqb negb Nat.add].
  rewrite !matcher_Chars, Hd, Hf. reflexivity.
Qed.

(** X30: [stripANSI] removes a control string that is made of U+001B
    or U+009B, a body without U+0007 that starts with none of the
    pattern's prefix and closing characters, and U+0007, whatever
    follows. *)
Theorem X30_stripANSI_removes_string_to_bell (start : Z) (body rest : jsstring) :
  start = 0x1B \/ start = 0x9B ->
  Forall (fun ch => ch <> 0x07) body ->
  match body with
  | ch :: _ => prefixChar ch = false /\ finalChar ch = false
  | [] => True
  end ->
  stripANSI None (start :: body ++ 0x07 :: rest) = stripANSI None rest.
Proof.
  intros Hstart Hbody Hhead.
  assert (Hshape : exists ch text, body ++ 7 :: rest = ch :: text
                     /\ prefixChar ch = false /\ finalChar ch = false).
  { destruct body as [|ch body].
    - exists 7, rest. repeat split; reflexivity.
    - exists ch, (body ++ 7 :: rest). destruct Hhead. repeat split; assumption. }
  destruct Hshape as (ch & text & Hshape & Hprefix & Hfinal).
  apply stripANSI_cut.
  unfold ANSI_PATTERN. rewrite matcher_Then, matcher_Chars.
  replace (introducer start) with true
    by (destruct Hstart as [-> | ->]; reflexivity).
  rewrite matcher_Then, matcher_Times.
  apply (repeatMatcher_run prefixChar [] (body ++ 7 :: rest)).
  - constructor.
  - cbn; lia.
  - exact I.
  - cbn; lia.
  - right. rewrite Hshape. exact Hprefix.
  - cbn [matcher]. fold parameters.
    change (matcher parameters ?x (fun y => match y with
              | [] => None
              | c :: y0 => if finalChar c then Some y0 else None end))
      with (matcher (Then parameters (Chars finalChar)) x Some).
    rewrite Hshape at 1. rewrite parameters_fail by exact Hfinal.
    unfold untilTerminator. rewrite matcher_Then, matcher_Times.
    apply repeatMatcher_run.
    + eapply Forall_impl; [exact Hbody|]. cbn. intros c Hc.
      destruct (Z.eqb_spec c 7); [contradiction | reflexivity].
    + lia.
    + exact I.
    + rewrite length_app. lia.
    + right. reflexivity.
    + reflexivity.
Qed.

Lemma X29_stripANSI_removes_control_sequence_witness :
  stripANSI None [0x1B; 0x5B; 0x33; 0x38; 0x3B; 0x35; 0x3B; 0x31; 0x39; 0x36; 0x6D; 0x58]
  = [0x58].
Proof.
  refine (eq_trans
    (X29_stripANSI_removes_control_sequence 0x1B [0x33; 0x38]
       [[0x35]; [0x31; 0x39; 0x36]] 0x6D [0x58] _ _ _ _ _ _) _).
  - left. reflexivity.
  - split; [repeat constructor | cbn; lia].
  - discriminate.
  - repeat constructor; cbn; lia.
  - reflexivity.
  - reflexivity.
  - reflexivity.
Defined.

Lemma X30_stripANSI_removes_string_to_bell_witness :
  stripANSI None [0x1B; 0x5F; 0x61; 0x62; 0x07; 0x58] = [0x58].
Proof.
  refine (eq_trans
    (X30_stripANSI_removes_string_to_bell 0x1B [0x5F; 0x61; 0x62] [0x58] _ _ _) _).
  - left. reflexivity.
  - repeat constructor; lia.
  - split; reflexivity.
  - reflexivity.
Defined.
